(** * Statistical-arbitrage simulator: a shallow embedding and its properties

    The development follows the C++ sources file by file:
    - [Utilities]   (src/src/Utilities.cpp): mean, standard deviation, rolling
      statistics, least-squares regression and the simplified ADF test;
    - [AssetPair]   (src/src/AssetPair.cpp): spread, cointegration test, z-scores
      and the signal generator;
    - [MarketData] and [Backtester] (src/src/MarketData.cpp, Backtester.cpp): the
      price provider, the day loop of the simulation and the metrics.

    Conventions of the embedding.
    - A C++ [double] is a primitive binary64 float of Rocq ([PrimFloat.float]):
      the arithmetic is IEEE 754 round-to-nearest-even, comparisons with NaN are
      false, all NaNs are identified.  No fused multiply-add is assumed.
    - A [std::vector<T>] is a [list T]; an unchecked [v[i]] that the code
      performs inside the bounds of its own loop is a total lookup, one that can
      leave the vector (price reads of the simulation) is a partial lookup.
    - [size_t] arithmetic that can wrap is written out on [Z] modulo 2^64.
    - [int] values are [Z]; the embedding does not wrap them (day indices and
      trade counts stay far below 2^31).
    - Console output is not modelled. *)

From Stdlib Require Import ZArith List Bool Lia Floats.
From stdpp Require Import base option list strings gmap.

Set Warnings "-inexact-float".

Local Open Scope Z_scope.

(** ** Numeric conventions *)

(** Conversion of an integer to [double] (round to nearest even), as done by
    [static_cast<double>] and by the usual arithmetic conversions. *)
Definition double_of_Z (z : Z) : float :=
  SF2Prim (binary_normalize prec emax z 0 false).

(** Unsigned 64-bit wrap-around of [size_t] arithmetic. *)
Definition size_t_wrap (z : Z) : Z := z mod 2 ^ 64.

(** [vector::size()] as an integer. *)
Definition size {A} (v : list A) : Z := Z.of_nat (length v).

#[global] Instance float_inhabited : Inhabited float := populate nan.

(** The indices visited by [for (size_t i = lo; i < hi; ++i)]. *)
Definition loop_range (lo hi : Z) : list Z := seqZ lo (hi - lo).

(** [std::vector<T>(n, x)]. *)
Abbreviation filled n x := (replicate n x).

(** ** Utilities.cpp *)
Module Utilities.

Local Open Scope float_scope.

Definition mean (data : list float) : float :=
  match data with
  | [] => nan
  | _ =>
      let sum := fold_left (fun acc v => acc + v) data 0 in
      sum / double_of_Z (size data)
  end.

Definition standardDeviation (data : list float) : float :=
  if (size data <? 2)%Z then nan
  else
    let avg := mean data in
    let sum_squared_diff :=
      fold_left (fun acc value => let diff := value - avg in acc + diff * diff)
                data 0 in
    sqrt (sum_squared_diff / double_of_Z (size_t_wrap (size data - 1))).

Definition calculateReturns (prices : list float) : list float :=
  if (size prices <? 2)%Z then []
  else
    fold_left
      (fun returns i =>
         <[Z.to_nat (i - 1) :=
             prices !!! Z.to_nat i / prices !!! Z.to_nat (i - 1) - 1]> returns)
      (loop_range 1 (size prices))
      (filled (Z.to_nat (size prices - 1)) 0).

(** Sum of the [window] observations that end at index [i]. *)
Definition window_sum (data : list float) (window : Z) (i : Z) : float :=
  fold_left (fun sum j => sum + data !!! Z.to_nat j)
            (loop_range (i - window + 1) (i + 1)) 0.

Definition rollingMean (data : list float) (window : Z) : list float :=
  if (size data <? window)%Z then filled (length data) nan
  else
    fold_left
      (fun result i =>
         <[Z.to_nat i := window_sum data window i / double_of_Z window]> result)
      (loop_range (size_t_wrap (window - 1)) (size data))
      (filled (length data) nan).

(** [std::vector<double>(data.begin() + lo, data.begin() + hi)]. *)
Definition slice (data : list float) (lo hi : Z) : list float :=
  take (Z.to_nat (hi - lo)) (drop (Z.to_nat lo) data).

Definition rollingStdDev (data : list float) (window : Z) : list float :=
  if (size data <? window)%Z then filled (length data) nan
  else
    fold_left
      (fun result i =>
         let window_data := slice data (i - window + 1) (i + 1) in
         <[Z.to_nat i := standardDeviation window_data]> result)
      (loop_range (size_t_wrap (window - 1)) (size data))
      (filled (length data) nan).

Definition rollingZScore (data : list float) (window : Z) : list float :=
  if (size data <? window)%Z then filled (length data) nan
  else
    let means := rollingMean data window in
    let stdDevs := rollingStdDev data window in
    fold_left
      (fun zScores i =>
         if 0 <? stdDevs !!! Z.to_nat i then
           <[Z.to_nat i :=
               (data !!! Z.to_nat i - means !!! Z.to_nat i)
               / stdDevs !!! Z.to_nat i]> zScores
         else zScores)
      (loop_range (size_t_wrap (window - 1)) (size data))
      (filled (length data) nan).

Record RegressionResult := {
  alpha : float;
  beta : float;
  rsquared : float;
  residuals : list float
}.

Record RegressionSums := {
  sum_x : float; sum_y : float; sum_xy : float; sum_xx : float; sum_yy : float
}.

Definition regression_sums (x y : list float) : RegressionSums :=
  fold_left
    (fun s i =>
       let xi := x !!! Z.to_nat i in
       let yi := y !!! Z.to_nat i in
       {| sum_x := sum_x s + xi;
          sum_y := sum_y s + yi;
          sum_xy := sum_xy s + xi * yi;
          sum_xx := sum_xx s + xi * xi;
          sum_yy := sum_yy s + yi * yi |})
    (loop_range 0 (size x))
    {| sum_x := 0; sum_y := 0; sum_xy := 0; sum_xx := 0; sum_yy := 0 |}.

Definition linearRegression (x y : list float) : RegressionResult :=
  if negb (size x =? size y)%Z || (size x =? 0)%Z then
    {| alpha := 0; beta := 0; rsquared := 0; residuals := [] |}
  else
    let s := regression_sums x y in
    let n := double_of_Z (size x) in
    let denominator := n * sum_xx s - sum_x s * sum_x s in
    if denominator =? 0 then
      {| alpha := 0; beta := 0; rsquared := 0; residuals := [] |}
    else
      let beta := (n * sum_xy s - sum_x s * sum_y s) / denominator in
      let alpha := (sum_y s - beta * sum_x s) / n in
      let '(residuals, ss_total, ss_residual) :=
        fold_left
          (fun '(residuals, ss_total, ss_residual) i =>
             let xi := x !!! Z.to_nat i in
             let yi := y !!! Z.to_nat i in
             let predicted := alpha + beta * xi in
             let r := yi - predicted in
             (<[Z.to_nat i := r]> residuals,
              ss_total + (yi - sum_y s / n) * (yi - sum_y s / n),
              ss_residual + r * r))
          (loop_range 0 (size x))
          (filled (length x) 0, 0, 0) in
      let rsquared :=
        if 0 <? ss_total then 1 - ss_residual / ss_total else 0 in
      {| alpha := alpha; beta := beta; rsquared := rsquared;
         residuals := residuals |}.

Record AdfResult := {
  testStatistic : float;
  pValue : float;
  isStationary : bool
}.

Definition criticalValue : float := -2.86.

Definition adfTest (timeSeries : list float) (maxLags : Z) : AdfResult :=
  if (size timeSeries <? 20)%Z then
    {| testStatistic := 0; pValue := 1; isStationary := false |}
  else
    let diff :=
      fold_left
        (fun diff i =>
           <[Z.to_nat (i - 1) :=
               timeSeries !!! Z.to_nat i - timeSeries !!! Z.to_nat (i - 1)]> diff)
        (loop_range 1 (size timeSeries))
        (filled (Z.to_nat (size timeSeries - 1)) 0) in
    let lagged :=
      fold_left
        (fun lagged i => <[Z.to_nat i := timeSeries !!! Z.to_nat i]> lagged)
        (loop_range 0 (size timeSeries - 1))
        (filled (Z.to_nat (size timeSeries - 1)) 0) in
    let regression := linearRegression lagged diff in
    let beta := beta regression in
    let se :=
      fold_left (fun se residual => se + residual * residual)
                (residuals regression) 0 in
    let se :=
      sqrt (se / double_of_Z (size_t_wrap (size (residuals regression) - 2))) in
    let se :=
      se / sqrt (fold_left (fun sum val => sum + val * val) lagged 0) in
    let tStat := beta / se in
    {| testStatistic := tStat;
       pValue := 0.05;
       isStationary := tStat <? criticalValue |}.

End Utilities.

(** ** AssetPair.cpp *)

Record AssetPair := {
  symbolA_ : string;
  symbolB_ : string;
  pricesA_ : list float;
  pricesB_ : list float;
  spreads_ : list float;
  beta_ : float;
  isCointegrated_ : bool
}.

Definition set_beta (p : AssetPair) (b : float) : AssetPair :=
  {| symbolA_ := symbolA_ p; symbolB_ := symbolB_ p;
     pricesA_ := pricesA_ p; pricesB_ := pricesB_ p;
     spreads_ := spreads_ p; beta_ := b;
     isCointegrated_ := isCointegrated_ p |}.

Definition set_spreads (p : AssetPair) (s : list float) : AssetPair :=
  {| symbolA_ := symbolA_ p; symbolB_ := symbolB_ p;
     pricesA_ := pricesA_ p; pricesB_ := pricesB_ p;
     spreads_ := s; beta_ := beta_ p;
     isCointegrated_ := isCointegrated_ p |}.

Definition set_isCointegrated (p : AssetPair) (c : bool) : AssetPair :=
  {| symbolA_ := symbolA_ p; symbolB_ := symbolB_ p;
     pricesA_ := pricesA_ p; pricesB_ := pricesB_ p;
     spreads_ := spreads_ p; beta_ := beta_ p;
     isCointegrated_ := c |}.

(** [spreads_.resize(n)] followed by the loop that overwrites every entry.
    The constructor keeps both price series at one length, so the read of
    [pricesB_[i]] stays inside the vector. *)
Definition calculateSpreads (p : AssetPair) : AssetPair :=
  set_spreads p
    (fold_left
       (fun spreads i =>
          <[Z.to_nat i :=
              (pricesA_ p !!! Z.to_nat i
               - beta_ p * pricesB_ p !!! Z.to_nat i)%float]> spreads)
       (loop_range 0 (size (pricesA_ p)))
       (resize (length (pricesA_ p)) 0%float (spreads_ p))).

(** The constructor: truncate to the shorter series, then the default spread
    (beta = 1). *)
Definition newAssetPair (symbolA symbolB : string)
    (pricesA pricesB : list float) : AssetPair :=
  let minSize := Nat.min (length pricesA) (length pricesB) in
  let truncate v :=
    if (size pricesA =? size pricesB)%Z then v else resize minSize 0%float v in
  calculateSpreads
    {| symbolA_ := symbolA; symbolB_ := symbolB;
       pricesA_ := truncate pricesA; pricesB_ := truncate pricesB;
       spreads_ := []; beta_ := 1; isCointegrated_ := false |}.

(** [testCointegration] mutates the pair and returns the verdict. *)
Definition testCointegration (p : AssetPair) (significanceLevel : float)
  : AssetPair * bool :=
  let regression := Utilities.linearRegression (pricesB_ p) (pricesA_ p) in
  let p := set_beta p (Utilities.beta regression) in
  let p := calculateSpreads p in
  let adfResult := Utilities.adfTest (spreads_ p) 1 in
  let p := set_isCointegrated p (Utilities.isStationary adfResult) in
  (p, isCointegrated_ p).

Definition getZScores (p : AssetPair) (window : Z) : list float :=
  let window :=
    if (size (spreads_ p) <=? window)%Z then
      let window := (size (spreads_ p) / 2)%Z in
      if (window <? 2)%Z then 2 else window
    else window in
  Utilities.rollingZScore (spreads_ p) window.

(** One iteration of the loop of [generateSignals]: the state is the signal
    vector and the local [currentPosition]. *)
Definition signal_body (entryThreshold exitThreshold : float)
    (zScores : list float) (st : list Z * Z) (i : Z) : list Z * Z :=
  let '(signals, currentPosition) := st in
  let z := zScores !!! Z.to_nat i in
  if is_nan z then (<[Z.to_nat i := 0]> signals, currentPosition)
  else if currentPosition =? 0 then
    if (entryThreshold <? z)%float then (<[Z.to_nat i := -1]> signals, -1)
    else if (z <? - entryThreshold)%float then (<[Z.to_nat i := 1]> signals, 1)
    else (signals, currentPosition)
  else if currentPosition =? 1 then
    if (- exitThreshold <=? z)%float then (<[Z.to_nat i := 0]> signals, 0)
    else (<[Z.to_nat i := 1]> signals, currentPosition)
  else if currentPosition =? -1 then
    if (z <=? exitThreshold)%float then (<[Z.to_nat i := 0]> signals, 0)
    else (<[Z.to_nat i := -1]> signals, currentPosition)
  else (signals, currentPosition).

(** The loop after its first [k] iterations. *)
Definition signal_loop (entryThreshold exitThreshold : float)
    (zScores : list float) (k : Z) : list Z * Z :=
  fold_left (signal_body entryThreshold exitThreshold zScores)
            (loop_range 0 k)
            (filled (length zScores) 0, 0).

Definition generateSignals (p : AssetPair)
    (entryThreshold exitThreshold : float) (lookbackWindow : Z) : list Z :=
  let zScores := getZScores p lookbackWindow in
  fst (signal_loop entryThreshold exitThreshold zScores (size zScores)).

(** The value of the local [currentPosition] on entry to iteration [i]. *)
Definition heldBefore (p : AssetPair)
    (entryThreshold exitThreshold : float) (lookbackWindow : Z) (i : Z) : Z :=
  snd (signal_loop entryThreshold exitThreshold
                   (getZScores p lookbackWindow) i).

(** ** MarketData.cpp (the price provider; the loader follows the engine) *)

Record MarketData := {
  dates : list string;
  prices : gmap string (list float);
  isDataLoaded_ : bool
}.

Definition getPriceSeries (md : MarketData) (symbol : string)
  : option (list float) :=
  if isDataLoaded_ md then prices md !! symbol else None.

Definition getDataSize (md : MarketData) : Z := size (dates md).

(** ** Backtester.cpp *)

Record Position := {
  symbolA : string;
  symbolB : string;
  quantityA : float;
  quantityB : float;
  entryPriceA : float;
  entryPriceB : float;
  entryDay : Z;
  direction : Z
}.

(** [Position()] with the default member initialisers. *)
Definition emptyPosition : Position :=
  {| symbolA := ""; symbolB := ""; quantityA := 0; quantityB := 0;
     entryPriceA := 0; entryPriceB := 0; entryDay := -1; direction := 0 |}.

Record PerformanceMetrics := {
  totalReturn : float;
  annualizedReturn : float;
  sharpeRatio : float;
  maxDrawdown : float;
  winCount : Z;
  lossCount : Z;
  avgHoldingPeriod : float;
  avgWin : float;
  avgLoss : float
}.

Definition defaultMetrics : PerformanceMetrics :=
  {| totalReturn := 0; annualizedReturn := 0; sharpeRatio := 0;
     maxDrawdown := 0; winCount := 0; lossCount := 0;
     avgHoldingPeriod := 0; avgWin := 0; avgLoss := 0 |}.

Record Backtester := {
  marketData_ : MarketData;
  pairs_ : list AssetPair;
  positions_ : list Position;
  portfolioValues_ : list float;
  tradeHistory_ : list (Z * float);
  cash_ : float;
  initialCapital_ : float;
  metrics_ : PerformanceMetrics
}.

Definition newBacktester (marketData : MarketData) : Backtester :=
  {| marketData_ := marketData; pairs_ := []; positions_ := [];
     portfolioValues_ := []; tradeHistory_ := []; cash_ := 0;
     initialCapital_ := 0; metrics_ := defaultMetrics |}.

Definition addPair (bt : Backtester) (symbolA symbolB : string) : Backtester :=
  match getPriceSeries (marketData_ bt) symbolA,
        getPriceSeries (marketData_ bt) symbolB with
  | Some pricesA, Some pricesB =>
      let pair := newAssetPair symbolA symbolB pricesA pricesB in
      let tested := testCointegration pair 0.05 in
      if snd tested then
        {| marketData_ := marketData_ bt; pairs_ := pairs_ bt ++ [fst tested];
           positions_ := positions_ bt;
           portfolioValues_ := portfolioValues_ bt;
           tradeHistory_ := tradeHistory_ bt; cash_ := cash_ bt;
           initialCapital_ := initialCapital_ bt; metrics_ := metrics_ bt |}
      else bt
  | _, _ => bt
  end.

Definition calculatePortfolioValue (bt : Backtester) (day : Z) : float :=
  if (day <? 0) || (getDataSize (marketData_ bt) <=? day) then
    initialCapital_ bt
  else
    fold_left
      (fun totalValue position =>
         match getPriceSeries (marketData_ bt) (symbolA position),
               getPriceSeries (marketData_ bt) (symbolB position) with
         | Some pricesA, Some pricesB =>
             if (day <? size pricesA) && (day <? size pricesB) then
               let currentPriceA := pricesA !!! Z.to_nat day in
               let currentPriceB := pricesB !!! Z.to_nat day in
               (totalValue
                + (quantityA position * currentPriceA
                   + quantityB position * currentPriceB))%float
             else totalValue
         | _, _ => totalValue
         end)
      (positions_ bt) (cash_ bt).

(** The locals of the per-pair loop of [runBacktest] next to the engine. *)
Record LoopState := {
  engine : Backtester;
  currentPosition : Z;
  position : Position
}.

(** The branch that closes the held position at the execution-day prices.
    [positions_] is left as it is. *)
Definition closePosition (priceA priceB : float) (executionDay : Z)
    (s : LoopState) : LoopState :=
  let bt := engine s in
  let pos := position s in
  let entryValueA := (quantityA pos * entryPriceA pos)%float in
  let entryValueB := (quantityB pos * entryPriceB pos)%float in
  let exitValueA := (quantityA pos * priceA)%float in
  let exitValueB := (quantityB pos * priceB)%float in
  let pnl := ((exitValueA - entryValueA) + (exitValueB - entryValueB))%float in
  let m := metrics_ bt in
  let holdingPeriod := executionDay - entryDay pos in
  let m :=
    {| totalReturn := totalReturn m; annualizedReturn := annualizedReturn m;
       sharpeRatio := sharpeRatio m; maxDrawdown := maxDrawdown m;
       winCount := if (0 <? pnl)%float then winCount m + 1 else winCount m;
       lossCount := if (0 <? pnl)%float then lossCount m else lossCount m + 1;
       avgHoldingPeriod :=
         (avgHoldingPeriod m + double_of_Z holdingPeriod)%float;
       avgWin := avgWin m; avgLoss := avgLoss m |} in
  {| engine :=
       {| marketData_ := marketData_ bt; pairs_ := pairs_ bt;
          positions_ := positions_ bt;
          portfolioValues_ := portfolioValues_ bt;
          tradeHistory_ := tradeHistory_ bt ++ [(executionDay, pnl)];
          cash_ := (cash_ bt + (exitValueA + exitValueB))%float;
          initialCapital_ := initialCapital_ bt; metrics_ := m |};
     currentPosition := 0;
     position := emptyPosition |}.

(** The branch that opens a position for a non-flat [signal]. *)
Definition openPosition (pair : AssetPair) (priceA priceB : float)
    (executionDay signal : Z) (s : LoopState) : LoopState :=
  let bt := engine s in
  let positionSize :=
    (calculatePortfolioValue bt (executionDay - 1) * 0.1)%float in
  let quantityA :=
    if 0 <? signal then (positionSize / (2 * priceA))%float
    else (- positionSize / (2 * priceA))%float in
  let quantityB :=
    if 0 <? signal then (- positionSize / (2 * priceB))%float
    else (positionSize / (2 * priceB))%float in
  let pos :=
    {| symbolA := symbolA_ pair; symbolB := symbolB_ pair;
       quantityA := quantityA; quantityB := quantityB;
       entryPriceA := priceA; entryPriceB := priceB;
       entryDay := executionDay; direction := signal |} in
  {| engine :=
       {| marketData_ := marketData_ bt; pairs_ := pairs_ bt;
          positions_ := positions_ bt ++ [pos];
          portfolioValues_ := portfolioValues_ bt;
          tradeHistory_ := tradeHistory_ bt;
          cash_ :=
            (cash_ bt - (quantityA * priceA + quantityB * priceB))%float;
          initialCapital_ := initialCapital_ bt; metrics_ := metrics_ bt |};
     currentPosition := signal;
     position := pos |}.

Definition set_portfolioValues (bt : Backtester) (v : list float)
  : Backtester :=
  {| marketData_ := marketData_ bt; pairs_ := pairs_ bt;
     positions_ := positions_ bt; portfolioValues_ := v;
     tradeHistory_ := tradeHistory_ bt; cash_ := cash_ bt;
     initialCapital_ := initialCapital_ bt; metrics_ := metrics_ bt |}.

Definition executionDayOf (numDays : Z) (delayedExecution : bool) (day : Z)
  : Z :=
  if delayedExecution && (day + 1 <? numDays) then day + 1 else day.

(** One day of the inner loop.  The two price reads are unchecked in the
    source; a read beyond the pair's series has no defined result ([None]). *)
Definition dayStep (pair : AssetPair) (signals : list Z) (numDays : Z)
    (delayedExecution : bool) (s : LoopState) (day : Z) : option LoopState :=
  let signal :=
    if day <? size signals then signals !!! Z.to_nat day else 0 in
  let executionDay := executionDayOf numDays delayedExecution day in
  s ← (if signal =? currentPosition s then Some s
       else
         s ← (if currentPosition s =? 0 then Some s
              else
                priceA ← pricesA_ pair !! Z.to_nat executionDay;
                priceB ← pricesB_ pair !! Z.to_nat executionDay;
                Some (closePosition priceA priceB executionDay s));
         if signal =? 0 then Some s
         else
           priceA ← pricesA_ pair !! Z.to_nat executionDay;
           priceB ← pricesB_ pair !! Z.to_nat executionDay;
           Some (openPosition pair priceA priceB executionDay signal s));
  Some {| engine :=
            set_portfolioValues (engine s)
              (<[Z.to_nat executionDay :=
                   calculatePortfolioValue (engine s) executionDay]>
                 (portfolioValues_ (engine s)));
          currentPosition := currentPosition s;
          position := position s |}.

(** A loop whose body can fail. *)
Fixpoint foldM {S A} (f : S → A → option S) (l : list A) (s : S) : option S :=
  match l with
  | [] => Some s
  | a :: l => s ← f s a; foldM f l s
  end.

(** The day loop of one pair, with its locals at the end. *)
Definition runPair (entryThreshold exitThreshold : float)
    (lookbackWindow numDays : Z) (delayedExecution : bool)
    (bt : Backtester) (pair : AssetPair) : option LoopState :=
  let signals :=
    generateSignals pair entryThreshold exitThreshold lookbackWindow in
  foldM (dayStep pair signals numDays delayedExecution)
        (loop_range lookbackWindow numDays)
        {| engine := bt; currentPosition := 0; position := emptyPosition |}.

(** The reset at the head of [runBacktest]. *)
Definition resetState (bt : Backtester) (initialCapital : float)
  : Backtester :=
  {| marketData_ := marketData_ bt; pairs_ := pairs_ bt; positions_ := [];
     portfolioValues_ := []; tradeHistory_ := []; cash_ := initialCapital;
     initialCapital_ := initialCapital; metrics_ := metrics_ bt |}.

(** The loop over the accepted pairs: each pair replays its days on the
    shared engine state. *)
Definition runPairs (entryThreshold exitThreshold : float)
    (lookbackWindow numDays : Z) (delayedExecution : bool)
    (bt : Backtester) : option Backtester :=
  foldM (fun bt pair =>
           engine <$> runPair entryThreshold exitThreshold lookbackWindow
                              numDays delayedExecution bt pair)
        (pairs_ bt) bt.

(** The peak-to-trough loop of [calculateMetrics]: the state is
    ([maxValue], [maxDrawdown]). *)
Definition drawdown_body (st : float * float) (value : float)
  : float * float :=
  let '(maxValue, maxDrawdown) := st in
  if (maxValue <? value)%float then (value, maxDrawdown)
  else
    let drawdown := ((maxValue - value) / maxValue)%float in
    if (maxDrawdown <? drawdown)%float then (maxValue, drawdown)
    else (maxValue, maxDrawdown).

Definition drawdown_loop (portfolioValues : list float) : float * float :=
  fold_left drawdown_body portfolioValues (portfolioValues !!! 0%nat, 0%float).

Section Metrics.

(** [std::pow] of the C library, which the sources only call. *)
Variable pow : float → float → float.

Definition calculateMetrics (bt : Backtester) : Backtester :=
  match portfolioValues_ bt with
  | [] => bt
  | _ =>
      let pv := portfolioValues_ bt in
      let m := metrics_ bt in
      let finalValue := default 0%float (last pv) in
      let totalReturn := (finalValue / initialCapital_ bt - 1)%float in
      let years := (double_of_Z (size pv) / 252)%float in
      let annualizedReturn :=
        (pow (1 + totalReturn) (1 / years) - 1)%float in
      let dailyReturns :=
        fold_left
          (fun dailyReturns i =>
             <[Z.to_nat (i - 1) :=
                 (pv !!! Z.to_nat i / pv !!! Z.to_nat (i - 1) - 1)%float]>
               dailyReturns)
          (loop_range 1 (size pv))
          (filled (Z.to_nat (size_t_wrap (size pv - 1))) 0%float) in
      let meanDailyReturn := Utilities.mean dailyReturns in
      let stdDailyReturn := Utilities.standardDeviation dailyReturns in
      let sharpeRatio :=
        if (0 <? stdDailyReturn)%float then
          (meanDailyReturn / stdDailyReturn * sqrt 252)%float
        else sharpeRatio m in
      let maxDrawdown := snd (drawdown_loop pv) in
      let totalTrades := winCount m + lossCount m in
      let avgHoldingPeriod :=
        if 0 <? totalTrades then
          (avgHoldingPeriod m / double_of_Z totalTrades)%float
        else avgHoldingPeriod m in
      let '(totalWins, totalLosses) :=
        fold_left
          (fun '(totalWins, totalLosses) trade =>
             let pnl := snd trade in
             if (0 <? pnl)%float then ((totalWins + pnl)%float, totalLosses)
             else (totalWins, (totalLosses + pnl)%float))
          (tradeHistory_ bt) (0%float, 0%float) in
      let avgWin :=
        if 0 <? winCount m then (totalWins / double_of_Z (winCount m))%float
        else avgWin m in
      let avgLoss :=
        if 0 <? lossCount m then
          (totalLosses / double_of_Z (lossCount m))%float
        else avgLoss m in
      {| marketData_ := marketData_ bt; pairs_ := pairs_ bt;
         positions_ := positions_ bt;
         portfolioValues_ := portfolioValues_ bt;
         tradeHistory_ := tradeHistory_ bt; cash_ := cash_ bt;
         initialCapital_ := initialCapital_ bt;
         metrics_ :=
           {| totalReturn := totalReturn;
              annualizedReturn := annualizedReturn;
              sharpeRatio := sharpeRatio; maxDrawdown := maxDrawdown;
              winCount := winCount m; lossCount := lossCount m;
              avgHoldingPeriod := avgHoldingPeriod;
              avgWin := avgWin; avgLoss := avgLoss |} |}
  end.

Definition runBacktest (bt : Backtester) (initialCapital entryThreshold
    exitThreshold : float) (lookbackWindow : Z) (delayedExecution : bool)
  : option Backtester :=
  let bt := resetState bt initialCapital in
  let numDays := getDataSize (marketData_ bt) in
  if numDays =? 0 then Some bt
  else
    let bt :=
      set_portfolioValues bt
        (resize (Z.to_nat numDays) 0%float (portfolioValues_ bt)) in
    bt ← runPairs entryThreshold exitThreshold lookbackWindow numDays
                  delayedExecution bt;
    Some (calculateMetrics bt).

End Metrics.

(** ** The signal machine in the words of the specification

    Three states; on a day with a defined z-score the machine moves as the
    specification lists, and the signal of the day is the state it moves to. *)

Inductive SpreadState := Flat | LongSpread | ShortSpread.

Definition direction_of (s : SpreadState) : Z :=
  match s with Flat => 0 | LongSpread => 1 | ShortSpread => -1 end.

Definition machine_step (entryThreshold exitThreshold : float)
    (s : SpreadState) (z : float) : SpreadState :=
  match s with
  | Flat =>
      if (entryThreshold <? z)%float then ShortSpread
      else if (z <? - entryThreshold)%float then LongSpread
      else Flat
  | LongSpread => if (- exitThreshold <=? z)%float then Flat else LongSpread
  | ShortSpread => if (z <=? exitThreshold)%float then Flat else ShortSpread
  end.

(** A day of the machine: signal and next state.  A NaN z-score gives the
    flat signal and keeps the state. *)
Definition machine_day (entryThreshold exitThreshold : float)
    (s : SpreadState) (z : float) : Z * SpreadState :=
  if is_nan z then (0, s)
  else
    let s' := machine_step entryThreshold exitThreshold s z in
    (direction_of s', s').

Fixpoint machine_run (entryThreshold exitThreshold : float)
    (s : SpreadState) (zScores : list float) : list Z * SpreadState :=
  match zScores with
  | [] => ([], s)
  | z :: zScores =>
      let d := machine_day entryThreshold exitThreshold s z in
      let r := machine_run entryThreshold exitThreshold (snd d) zScores in
      (fst d :: fst r, snd r)
  end.

(** ** Predicates on the engine state *)

(** The shape of the value series that the loops maintain: [n] entries, the
    ones below [first] still at their initial 0.0. *)
Definition untouched_below (n first : Z) (bt : Backtester) : Prop :=
  size (portfolioValues_ bt) = n
  ∧ ∀ i : nat, Z.of_nat i < first → portfolioValues_ bt !! i = Some 0%float.

(** The accepted pairs have prices for every day of the dataset (the loader
    appends one price per symbol and per date, and [addPair] copies them). *)
Definition pairs_cover_dataset (bt : Backtester) : Prop :=
  Forall (λ pair, getDataSize (marketData_ bt) ≤ size (pricesA_ pair)
                  ∧ getDataSize (marketData_ bt) ≤ size (pricesB_ pair))
         (pairs_ bt).

(** ** Concrete inputs *)

(** A six-day pair whose spread is [0; 0; 5; 5; 5; 4]: with a window of 3 the
    z-scores are NaN, NaN, 1.15, 0.58, NaN (flat window), -1.15. *)
Definition plateau_pair : AssetPair :=
  newAssetPair "A" "B" [1; 1; 6; 6; 6; 5]%float [1; 1; 1; 1; 1; 1]%float.

Definition trend_B : list float :=
  [100; 101; 102; 103; 104; 105; 106; 107; 108; 109; 110; 111;
   112; 113; 114; 115; 116; 117; 118; 119; 120; 121; 122; 123]%float.

(** Twenty-four days, A = 2 B + a small reverting deviation. *)
Definition reverting_A : list float :=
  [200; 203; 203; 208; 206; 211; 212; 213; 219; 215; 221; 221;
   224; 228; 226; 231; 231; 234; 237; 237; 242; 241; 244; 247]%float.


Definition market_of (pricesA : list float) : MarketData :=
  {| dates := replicate 24 "2020-01-01"%string;
     prices := {[ "A"%string := pricesA; "B"%string := trend_B ]};
     isDataLoaded_ := true |}.

Definition reverting_engine : Backtester :=
  addPair (newBacktester (market_of reverting_A)) "A" "B".


(** The pair that [addPair] accepts from the reverting market. *)
Definition reverting_pair : AssetPair :=
  fst (testCointegration (newAssetPair "A" "B" reverting_A trend_B) 0.05).

(** [runBacktest] of [reverting_engine] between the reset and the pair loop. *)
Definition reverting_start : Backtester :=
  set_portfolioValues (resetState reverting_engine 1000)
                      (resize 24 0%float []).

(** ** Auxiliary predicates of the proofs *)

(** The body of a loop that fills a vector: iteration [i] stores [value i] at
    index [i] when [writes i] holds. *)
Definition fill_body {A} (writes : Z → bool) (value : Z → A)
    (acc : list A) (i : Z) : list A :=
  if writes i then <[Z.to_nat i := value i]> acc else acc.

(** The location of a mantissa is inexact. *)
Definition inexact (l : location) : Prop := l ≠ loc_Exact.

(** What [j] right shifts have made of the mantissa [m0]: the quotient by
    [2^j], and round/sticky bits that are set only if something was lost
    ([lost0] says that the initial location already was inexact). *)
Definition shifted (m0 : Z) (lost0 : Prop) (j : Z) (mrs : shr_record) : Prop :=
  shr_m mrs = m0 / 2 ^ j
  ∧ (shr_r mrs || shr_s mrs = true → m0 mod 2 ^ j ≠ 0 ∨ lost0).

(** The double 1.0. *)
Definition SF_one : spec_float := S754_finite false 4503599627370496 (-52).

(** [y] is [+inf] or a positive number of magnitude at least [a], that is,
    [y >= 2^(a-1)]. *)
Definition at_least (y : spec_float) (a : Z) : Prop :=
  y = S754_infinity false
  ∨ ∃ m e, y = S754_finite false m e ∧ a ≤ Z.pos (digits2_pos m) + e.

(** [y] is a zero, a positive number or [+inf]. *)
Definition nonneg (y : spec_float) : Prop :=
  (∃ s, y = S754_zero s) ∨ (∃ m e, y = S754_finite false m e)
  ∨ y = S754_infinity false.

(** [y] is a zero or a finite number. *)
Definition finite_or_zero (y : spec_float) : Prop :=
  (∃ s, y = S754_zero s) ∨ ∃ s m e, y = S754_finite s m e.

(** What a sum of squares can be. *)
Definition nonneg_or_nan (y : spec_float) : Prop := nonneg y ∨ y = S754_nan.

(** [y] is neither [+inf] nor [-inf]. *)
Definition not_infinite (y : spec_float) : Prop :=
  match y with S754_infinity _ => False | _ => True end.

(** Every series of the provider has a price for every date. *)
Definition market_aligned (md : MarketData) : Prop :=
  ∀ symbol series,
    getPriceSeries md symbol = Some series → getDataSize md ≤ size series.

(** ** Text streams *)

(** The characters of the unread part [s] of a stream up to the first
    [delim], and what is left after that delimiter. *)
Fixpoint read_until (delim : Ascii.ascii) (s : string) : string * string :=
  match s with
  | String.EmptyString => (String.EmptyString, String.EmptyString)
  | String.String c rest =>
      if Ascii.eqb c delim then (String.EmptyString, rest)
      else let r := read_until delim rest in (String.String c (fst r), snd r)
  end.

(** [std::getline(stream, cell, delim)] on a stream whose unread part is
    [stream]: it fails when nothing is left to extract; otherwise it gives
    the cell and the unread part after the delimiter. *)
Definition getline (delim : Ascii.ascii) (stream : string)
  : option (string * string) :=
  match stream with
  | String.EmptyString => None
  | _ => Some (read_until delim stream)
  end.

(** [while (std::getline(stream, cell, delim)) cells.push_back(cell)], with
    the number of iterations bounded by [fuel]. *)
Fixpoint getline_loop (fuel : nat) (delim : Ascii.ascii) (stream : string)
  : list string :=
  match fuel with
  | O => []
  | S fuel =>
      match getline delim stream with
      | None => []
      | Some (cell, rest) => cell :: getline_loop fuel delim rest
      end
  end.

(** Every successful [getline] extracts a character, so the loop ends within
    [length stream + 1] iterations. *)
Definition read_cells (delim : Ascii.ascii) (stream : string) : list string :=
  getline_loop (S (String.length stream)) delim stream.

(** The characters ['\n'] and [',']. *)
Definition newline : Ascii.ascii := Ascii.ascii_of_nat 10.
Definition comma : Ascii.ascii := Ascii.ascii_of_nat 44.

(** ** MarketData.cpp: the loader

    The file system is a map from paths to contents (a missing path cannot
    be opened); [std::stod] is a parameter that fails where the library
    function throws. *)

(** [MarketData()]. *)
Definition defaultMarketData : MarketData :=
  {| dates := []; prices := ∅; isDataLoaded_ := false |}.

Definition set_prices (md : MarketData) (p : gmap string (list float))
  : MarketData :=
  {| dates := dates md; prices := p; isDataLoaded_ := isDataLoaded_ md |}.

(** [data_.dates.push_back(dateStr)]. *)
Definition push_date (md : MarketData) (dateStr : string) : MarketData :=
  {| dates := dates md ++ [dateStr]; prices := prices md;
     isDataLoaded_ := isDataLoaded_ md |}.

(** [data_.prices[symbol].push_back(price)]: [operator[]] creates an empty
    series for a symbol that has none. *)
Definition push_price (md : MarketData) (symbol : string) (price : float)
  : MarketData :=
  set_prices md
    (<[symbol := default [] (prices md !! symbol) ++ [price]]> (prices md)).

Section Loader.

Variable stod : string → option float.

(** One price cell of a row: the state is the object and the unread part of
    the line. *)
Definition loadCell (headers : list string) (st : MarketData * string)
    (i : Z) : MarketData * string :=
  let '(md, lineStream) := st in
  match getline comma lineStream with
  | None => (push_price md (headers !!! Z.to_nat i) nan, lineStream)
  | Some (priceStr, rest) =>
      (push_price md (headers !!! Z.to_nat i)
                  (match stod priceStr with
                   | Some price => price
                   | None => nan
                   end),
       rest)
  end.

(** The body of the loop over the data rows. *)
Definition loadRow (headers : list string) (md : MarketData) (line : string)
  : MarketData :=
  match getline comma line with
  | None => md
  | Some (dateStr, lineStream) =>
      fst (fold_left (loadCell headers) (loop_range 1 (size headers))
                     (push_date md dateStr, lineStream))
  end.

Definition loadFromCSV (fs : gmap string string) (md : MarketData)
    (filePath : string) : MarketData * bool :=
  match fs !! filePath with
  | None => (md, false)
  | Some content =>
      match getline newline content with
      | None => (md, false)
      | Some (headerLine, file) =>
          let headers := read_cells comma headerLine in
          if size headers <? 2 then (md, false)
          else
            let md :=
              fold_left
                (fun md i =>
                   set_prices md
                     (<[headers !!! Z.to_nat i := []]> (prices md)))
                (loop_range 1 (size headers)) md in
            let md :=
              fold_left (loadRow headers) (read_cells newline file) md in
            ({| dates := dates md; prices := prices md;
                isDataLoaded_ := true |}, true)
      end
  end.

(** [MarketData(dataFilePath)]. *)
Definition newMarketData (fs : gmap string string) (dataFilePath : string)
  : MarketData :=
  fst (loadFromCSV fs defaultMarketData dataFilePath).

(** The price that a row gives for column [j]: the parsed cell, NaN when the
    cell is missing or does not parse. *)
Definition parse_cell (line : string) (j : nat) : float :=
  match read_cells comma line !! j with
  | Some cell => match stod cell with Some price => price | None => nan end
  | None => nan
  end.

End Loader.

(** ** Utilities.cpp: writeCSV, and Backtester::exportResults

    [operator<<] on a [double] is a parameter ([format]); whether the output
    file can be opened is an input ([opens]). *)

Section Csv.

Variable format : float → string.

(** One line of the file: the cells separated by commas, then a newline
    ([for (i = 0; i < n; ++i) { file << cell[i]; if (i < n - 1) file << ","; }
    file << "\n"]). *)
Definition write_line (cells : list string) : string :=
  fold_left
    (fun out i =>
       out +:+ cells !!! Z.to_nat i
           +:+ (if i <? size_t_wrap (size cells - 1)
                then String.String comma String.EmptyString
                else String.EmptyString))
    (loop_range 0 (size cells)) String.EmptyString
  +:+ String.String newline String.EmptyString.

Definition writeCSV (fs : gmap string string) (opens : bool)
    (filename : string) (headers : list string) (data : list (list float))
  : gmap string string * bool :=
  if (size headers =? 0) || (size data =? 0)
     || negb (size (data !!! 0%nat) =? size headers)
  then (fs, false)
  else if negb opens then (fs, false)
  else
    (<[filename :=
         fold_left
           (fun out row =>
              out +:+ write_line (format <$> data !!! Z.to_nat row))
           (loop_range 0 (size data)) (write_line headers)]> fs,
     true).

Definition exportResults (fs : gmap string string) (opens : bool)
    (bt : Backtester) (filename : string) : gmap string string * bool :=
  let headers := ["Day"; "PortfolioValue"] in
  let data :=
    fold_left
      (fun data i =>
         <[Z.to_nat i :=
             <[1%nat := portfolioValues_ bt !!! Z.to_nat i]>
               (<[0%nat := double_of_Z i]> (data !!! Z.to_nat i))]> data)
      (loop_range 0 (size (portfolioValues_ bt)))
      (filled (length (portfolioValues_ bt)) (filled 2 0%float)) in
  writeCSV fs opens filename headers data.

End Csv.

(** ** Auxiliary definitions of the further properties *)

(** The second loop of [linearRegression]: residuals, total and residual sums
    of squares. *)
Definition regression_loop_body (x y : list float) (alpha beta ybar : float)
    (st : list float * float * float) (i : Z) : list float * float * float :=
  let '(residuals, ss_total, ss_residual) := st in
  let xi := x !!! Z.to_nat i in
  let yi := y !!! Z.to_nat i in
  let predicted := (alpha + beta * xi)%float in
  let r := (yi - predicted)%float in
  (<[Z.to_nat i := r]> residuals,
   (ss_total + (yi - ybar) * (yi - ybar))%float,
   (ss_residual + r * r)%float).

(** What a run leaves alone. *)
Definition frame_kept (bt0 bt : Backtester) : Prop :=
  marketData_ bt = marketData_ bt0 ∧ pairs_ bt = pairs_ bt0
  ∧ initialCapital_ bt = initialCapital_ bt0
  ∧ length (portfolioValues_ bt) = length (portfolioValues_ bt0).

(** The trade log, the position list and the win/loss counters while a
    direction [held] is open in the day loop: [c] is the number of outcomes
    counted before the trade log was started. *)
Definition books_ok (n first c : Z) (bt : Backtester) (held : Z) : Prop :=
  Forall (λ trade, first ≤ fst trade < n) (tradeHistory_ bt)
  ∧ Forall (λ pos, (direction pos = 1 ∨ direction pos = -1)
                   ∧ first ≤ entryDay pos < n) (positions_ bt)
  ∧ winCount (metrics_ bt) + lossCount (metrics_ bt)
    = c + size (tradeHistory_ bt)
  ∧ (held = 0 ∨ held = 1 ∨ held = -1)
  ∧ size (tradeHistory_ bt) + (if held =? 0 then 0 else 1)
    ≤ size (positions_ bt).

(** The first half of [dayStep]: the trades of the day, before the value of
    the day is written. *)
Definition dayTrades (pair : AssetPair) (signal executionDay : Z)
    (s : LoopState) : option LoopState :=
  if signal =? currentPosition s then Some s
  else
    s ← (if currentPosition s =? 0 then Some s
         else
           priceA ← pricesA_ pair !! Z.to_nat executionDay;
           priceB ← pricesB_ pair !! Z.to_nat executionDay;
           Some (closePosition priceA priceB executionDay s));
    if signal =? 0 then Some s
    else
      priceA ← pricesA_ pair !! Z.to_nat executionDay;
      priceB ← pricesB_ pair !! Z.to_nat executionDay;
      Some (openPosition pair priceA priceB executionDay signal s).

(** Frame and books together. *)
Definition run_ok (bt0 : Backtester) (n first c : Z) (s : LoopState) : Prop :=
  frame_kept bt0 (engine s)
  ∧ books_ok n first c (engine s) (currentPosition s).

(** The engine after a list of [addPair] calls. *)
Definition addPairs (bt : Backtester) (symbols : list (string * string))
  : Backtester :=
  fold_left (λ bt ab, addPair bt (fst ab) (snd ab)) symbols bt.

(** No position, no trade, the cash untouched; the values below [first] are
    still 0.0 and the values from [first] to below [upto] are the capital. *)
Definition flat_books (n first upto : Z) (capital : float) (bt : Backtester)
  : Prop :=
  positions_ bt = [] ∧ tradeHistory_ bt = [] ∧ cash_ bt = capital
  ∧ size (portfolioValues_ bt) = n
  ∧ (∀ i : nat, Z.of_nat i < first → portfolioValues_ bt !! i = Some 0%float)
  ∧ (∀ i : nat, first ≤ Z.of_nat i < upto →
                portfolioValues_ bt !! i = Some capital).

(** The pushes of one row, column by column. *)
Definition push_cells (stod : string → option float)
    (headers : list string) (line : string)
    (columns : list nat) (md : MarketData) : MarketData :=
  fold_left (λ md j, push_price md (headers !!! j) (parse_cell stod line j))
            columns md.

(** The length of the series of a symbol (0 when it has none). *)
Definition series_length (md : MarketData) (symbol : string) : nat :=
  length (default [] (prices md !! symbol)).

(** The loop that gives every symbol of the header an empty series. *)
Definition clear_series (headers : list string) (md : MarketData)
  : MarketData :=
  fold_left
    (λ md i, set_prices md (<[headers !!! Z.to_nat i := []]> (prices md)))
    (loop_range 1 (size headers)) md.

(** The date of a row: its first cell. *)
Definition row_date (line : string) : string :=
  default String.EmptyString (head (read_cells comma line)).

(** The rows that carry data: the lines that are not empty. *)
Definition data_rows (file : string) : list string :=
  filter (λ line, line ≠ String.EmptyString) (read_cells newline file).

(** Every series is at least as long as the list of dates, and the symbols
    are the columns of the header. *)
Definition columns_filled (headers : list string) (md : MarketData) : Prop :=
  ∀ symbol,
    (is_Some (prices md !! symbol) ↔ symbol ∈ drop 1 headers)
    ∧ (symbol ∈ drop 1 headers →
       (length (dates md) ≤ series_length md symbol)%nat).

(** A line of a CSV file: the cells joined by commas, then a newline. *)
Definition csv_line (cells : list string) : string :=
  String.concat (String.String comma String.EmptyString) cells
  +:+ String.String newline String.EmptyString.

(** The table that [exportResults] hands to [writeCSV]: day index and
    value. *)
Definition export_rows (values : list float) : list (list float) :=
  imap (λ i v, [double_of_Z (Z.of_nat i); v]) values.

(** Whether the character [c] occurs in [s]. *)
Fixpoint has_char (c : Ascii.ascii) (s : string) : bool :=
  match s with
  | String.EmptyString => false
  | String.String x s => Ascii.eqb x c || has_char c s
  end.

(** The text of a row of the exported file, without its newline. *)
Definition export_body (format : float → string) (i : nat) (v : float) : string :=
  String.concat (String.String comma String.EmptyString)
                [format (double_of_Z (Z.of_nat i)); format v].

(** A small file: a header, a full row, an empty line, and a row whose
    first price is not a number and whose second price is missing. *)
Definition sample_csv : string :=
  "Date,A,B"
  +:+ String.String newline
        ("d1,1,2"
         +:+ String.String newline
               (String.String newline "d2,x")).

(** A stand-in for [std::stod] on that file. *)
Definition sample_stod (cell : string) : option float :=
  if String.eqb cell "x" then None
  else Some (double_of_Z (Z.of_nat (String.length cell))).

(** * Properties *)

Import Utilities.

(** * Loops that fill a vector *)

Section FillLoop.
Context {A : Type}.
Variable writes : Z → bool.
Variable value : Z → A.

Local Abbreviation fill_body := (fill_body writes value).

Lemma fill_loop_length (idx : list Z) (init : list A) :
  length (fold_left fill_body idx init) = length init.
Proof.
  revert init; induction idx as [|i idx IH]; intros init; simpl; [done|].
  rewrite IH. unfold fill_body. destruct (writes i); [apply length_insert|done].
Qed.

Lemma fill_loop_lookup (lo : Z) (n : nat) (init : list A) (j : nat) :
  0 ≤ lo →
  fold_left fill_body (seqZ lo (Z.of_nat n)) init !! j =
  if decide (lo ≤ Z.of_nat j < lo + Z.of_nat n ∧ (j < length init)%nat
             ∧ writes (Z.of_nat j) = true)
  then Some (value (Z.of_nat j)) else init !! j.
Proof.
  intros Hlo. revert lo Hlo init.
  induction n as [|n IH]; intros lo Hlo init.
  - simpl. case_decide; [lia|done].
  - rewrite seqZ_cons by lia. simpl.
    replace (Z.pred (Z.of_nat (S n))) with (Z.of_nat n) by lia.
    rewrite IH by lia.
    assert (Hlen : length (fill_body init lo) = length init).
    { unfold fill_body. destruct (writes lo); [apply length_insert|done]. }
    rewrite Hlen.
    destruct (decide (lo = Z.of_nat j)) as [->|Hne].
    + rewrite decide_False by lia.
      unfold fill_body. rewrite Nat2Z.id.
      destruct (writes (Z.of_nat j)) eqn:Hw.
      * destruct (decide (j < length init)%nat).
        -- rewrite list_lookup_insert_eq by done. rewrite decide_True; [done|lia].
        -- rewrite list_insert_ge by lia. rewrite decide_False; [done|lia].
      * rewrite decide_False; [done|]. intros (_ & _ & ?); done.
    + assert (fill_body init lo !! j = init !! j) as Hsame.
      { unfold fill_body. destruct (writes lo); [|done].
        apply list_lookup_insert_ne. lia. }
      rewrite Hsame.
      destruct (writes (Z.of_nat j));
        repeat case_decide; try done; exfalso; intuition (try discriminate; lia).
Qed.

End FillLoop.

Lemma loop_range_seqZ lo hi :
  loop_range lo hi = seqZ lo (Z.of_nat (Z.to_nat (hi - lo))).
Proof.
  unfold loop_range. destruct (decide (0 ≤ hi - lo)).
  - by rewrite Z2Nat.id.
  - rewrite !seqZ_nil; [done| lia | lia].
Qed.

(** * The pair model *)

Lemma calculateSpreads_lookup (p : AssetPair) (j : nat) :
  spreads_ (calculateSpreads p) !! j =
  if decide (j < length (pricesA_ p))%nat
  then Some (pricesA_ p !!! j - beta_ p * pricesB_ p !!! j)%float
  else None.
Proof.
  unfold calculateSpreads. simpl. rewrite loop_range_seqZ.
  etrans.
  { apply (fill_loop_lookup (λ _, true)
             (λ i, (pricesA_ p !!! Z.to_nat i
                    - beta_ p * pricesB_ p !!! Z.to_nat i)%float)). lia. }
  rewrite length_resize. unfold size.
  rewrite Z.sub_0_r, !Nat2Z.id.
  destruct (decide (j < length (pricesA_ p))%nat) as [Hj|Hj].
  - rewrite decide_True; [done|]. repeat split; (lia || done).
  - rewrite decide_False by (intros (? & ? & ?); lia).
    apply lookup_ge_None. rewrite length_resize. lia.
Qed.

Lemma calculateSpreads_ext (p q : AssetPair) :
  pricesA_ p = pricesA_ q → pricesB_ p = pricesB_ q → beta_ p = beta_ q →
  spreads_ (calculateSpreads p) = spreads_ (calculateSpreads q).
Proof.
  intros HA HB Hb. apply list_eq. intros j.
  rewrite !calculateSpreads_lookup. by rewrite HA, HB, Hb.
Qed.

Lemma calculateSpreads_fields (p : AssetPair) :
  calculateSpreads p = set_spreads p (spreads_ (calculateSpreads p)).
Proof. done. Qed.

(** * The signal generator *)

Section SignalLoop.
Variables entryThreshold exitThreshold : float.
Local Abbreviation run := (machine_run entryThreshold exitThreshold).
Local Abbreviation day := (machine_day entryThreshold exitThreshold).

Lemma machine_run_length s zs : length (fst (run s zs)) = length zs.
Proof. revert s; induction zs as [|z zs IH]; intros s; simpl; [done|]. by rewrite IH. Qed.

Lemma machine_run_snoc s zs z :
  run s (zs ++ [z]) =
  (fst (run s zs) ++ [fst (day (snd (run s zs)) z)],
   snd (day (snd (run s zs)) z)).
Proof.
  revert s; induction zs as [|z' zs IH]; intros s; simpl; [done|].
  by rewrite IH.
Qed.

Lemma insert_frontier (o : list Z) (n k : nat) (v : Z) :
  length o = k → (k < n)%nat →
  <[k := v]> (o ++ replicate (n - k) 0) = (o ++ [v]) ++ replicate (n - S k) 0.
Proof.
  intros Hk Hn. replace (n - k)%nat with (S (n - S k)) by lia.
  simpl. rewrite <- Hk. rewrite insert_app_r_alt by lia.
  rewrite Nat.sub_diag. simpl. by rewrite <- app_assoc.
Qed.

Lemma keep_frontier (o : list Z) (n k : nat) :
  (k < n)%nat →
  o ++ replicate (n - k) 0 = (o ++ [0]) ++ replicate (n - S k) 0.
Proof.
  intros Hn. replace (n - k)%nat with (S (n - S k)) by lia.
  simpl. by rewrite <- app_assoc.
Qed.

Lemma signal_body_day (zs : list float) (o : list Z) (s : SpreadState)
    (k : nat) (z : float) :
  zs !! k = Some z → length o = k →
  signal_body entryThreshold exitThreshold zs
    (o ++ replicate (length zs - k) 0, direction_of s) (Z.of_nat k) =
  ((o ++ [fst (day s z)]) ++ replicate (length zs - S k) 0,
   direction_of (snd (day s z))).
Proof.
  intros Hz Ho.
  assert (Hk : (k < length zs)%nat) by (by eapply lookup_lt_Some).
  unfold signal_body, machine_day, machine_step.
  rewrite Nat2Z.id. rewrite (list_lookup_total_correct _ _ _ Hz).
  destruct (is_nan z); simpl.
  { by rewrite insert_frontier. }
  destruct s; simpl;
    repeat match goal with
           | |- context [if ?c then _ else _] => destruct c; simpl
           end;
    first [ by rewrite insert_frontier | by rewrite <- keep_frontier ].
Qed.

Lemma signal_loop_run (zs : list float) (k : nat) :
  (k ≤ length zs)%nat →
  signal_loop entryThreshold exitThreshold zs (Z.of_nat k) =
  (fst (run Flat (take k zs)) ++ replicate (length zs - k) 0,
   direction_of (snd (run Flat (take k zs)))).
Proof.
  induction k as [|k IH]; intros Hk.
  - unfold signal_loop, loop_range. simpl. by rewrite Nat.sub_0_r.
  - unfold signal_loop, loop_range in *. rewrite Z.sub_0_r in *.
    rewrite seqZ_S, fold_left_app. simpl. rewrite IH by lia.
    destruct (lookup_lt_is_Some_2 zs k) as [z Hz]; [lia|].
    rewrite (take_S_r _ _ _ Hz), machine_run_snoc.
    apply signal_body_day; [done|].
    rewrite machine_run_length, length_take. lia.
Qed.

Lemma machine_run_app s zs1 zs2 :
  run s (zs1 ++ zs2) =
  (fst (run s zs1) ++ fst (run (snd (run s zs1)) zs2),
   snd (run (snd (run s zs1)) zs2)).
Proof.
  revert s; induction zs1 as [|z zs1 IH]; intros s; simpl.
  - by destruct (run s zs2).
  - by rewrite IH.
Qed.

(** The [i]-th output of the machine is the output of its [i]-th day. *)
Lemma machine_run_lookup s zs (i : nat) z :
  zs !! i = Some z →
  fst (run s zs) !! i = Some (fst (day (snd (run s (take i zs))) z)).
Proof.
  intros Hz.
  rewrite <- (take_drop (S i) zs) at 1.
  rewrite machine_run_app. simpl.
  rewrite (take_S_r _ _ _ Hz), machine_run_snoc. simpl.
  rewrite lookup_app_l.
  2:{ rewrite length_app, machine_run_length, length_take. simpl.
      apply lookup_lt_Some in Hz. lia. }
  rewrite lookup_app_r; rewrite machine_run_length, length_take.
  2:{ lia. }
  apply lookup_lt_Some in Hz.
  replace (i - i `min` length zs)%nat with 0%nat by lia. done.
Qed.

Lemma machine_run_state_S s zs (i : nat) z :
  zs !! i = Some z →
  snd (run s (take (S i) zs)) = snd (day (snd (run s (take i zs))) z).
Proof. intros Hz. by rewrite (take_S_r _ _ _ Hz), machine_run_snoc. Qed.

End SignalLoop.

Lemma generateSignals_run p e x w :
  generateSignals p e x w = fst (machine_run e x Flat (getZScores p w)).
Proof.
  unfold generateSignals, size. rewrite signal_loop_run by done.
  simpl. rewrite firstn_all, Nat.sub_diag. simpl. apply app_nil_r.
Qed.

Lemma heldBefore_run p e x w (k : nat) :
  (k ≤ length (getZScores p w))%nat →
  heldBefore p e x w (Z.of_nat k) =
  direction_of (snd (machine_run e x Flat (take k (getZScores p w)))).
Proof. intros Hk. unfold heldBefore. by rewrite signal_loop_run. Qed.

(** What one day of the source loop does, in terms of the machine. *)
Lemma signal_day p e x w (i : nat) (z : float) :
  getZScores p w !! i = Some z →
  ∃ s, heldBefore p e x w (Z.of_nat i) = direction_of s
       ∧ generateSignals p e x w !! i = Some (fst (machine_day e x s z))
       ∧ heldBefore p e x w (Z.of_nat (S i))
         = direction_of (snd (machine_day e x s z)).
Proof.
  intros Hz. pose proof (lookup_lt_Some _ _ _ Hz) as Hi.
  exists (snd (machine_run e x Flat (take i (getZScores p w)))).
  rewrite !heldBefore_run by lia. rewrite generateSignals_run.
  split; [done|]. split.
  - by apply machine_run_lookup.
  - by rewrite (machine_run_state_S _ _ _ _ _ _ Hz).
Qed.

Lemma direction_of_inj s1 s2 : direction_of s1 = direction_of s2 → s1 = s2.
Proof. by destruct s1, s2. Qed.

Lemma held_through_nan p e x w (i j : nat) :
  (i ≤ j)%nat →
  (∀ k, (i ≤ k < j)%nat →
        ∃ zk, getZScores p w !! k = Some zk ∧ is_nan zk = true) →
  heldBefore p e x w (Z.of_nat j) = heldBefore p e x w (Z.of_nat i).
Proof.
  induction 1 as [|j Hle IH]; intros Hnan; [done|].
  destruct (Hnan j) as (zk & Hzk & Hk); [lia|].
  destruct (signal_day p e x w j zk Hzk) as (s & H1 & _ & H3).
  rewrite H3. unfold machine_day. rewrite Hk. simpl. rewrite <- H1.
  apply IH. intros k Hk'. apply Hnan. lia.
Qed.

Lemma machine_day_emits e x s z :
  fst (machine_day e x s z) ≠ 0 →
  fst (machine_day e x s z) = direction_of (snd (machine_day e x s z))
  ∧ (s ≠ Flat → snd (machine_day e x s z) = s).
Proof.
  unfold machine_day, machine_step.
  destruct (is_nan z); simpl; [done|].
  destruct s; simpl;
    repeat match goal with
           | |- context [if ?c then _ else _] => destruct c; simpl
           end; done.
Qed.

(** * The rounding of [SpecFloat], for non-negative mantissas *)

Section IterPos.
Context {A : Type} (f : A → A) (P : Z → A → Prop).
Hypothesis step : ∀ j x, 0 ≤ j → P j x → P (j + 1) (f x).

Lemma iter_pos_invariant (p : positive) :
  ∀ j x, 0 ≤ j → P j x → P (j + Z.pos p) (SpecFloat.iter_pos f p x).
Proof.
  induction p as [p IH|p IH|]; intros j x Hj Hx; simpl.
  - replace (j + Z.pos p~1) with (((j + 1) + Z.pos p) + Z.pos p) by lia.
    apply IH; [lia|]. apply IH; [lia|]. by apply step.
  - replace (j + Z.pos p~0) with ((j + Z.pos p) + Z.pos p) by lia.
    apply IH; [lia|]. by apply IH.
  - by apply step.
Qed.
End IterPos.

Lemma shr_1_shifted m0 lost0 j mrs :
  0 ≤ m0 → 0 ≤ j → shifted m0 lost0 j mrs → shifted m0 lost0 (j + 1) (shr_1 mrs).
Proof.
  intros Hm0 Hj [Hm Hbits]. destruct mrs as [m r s]. simpl in *.
  assert (0 ≤ m) as Hm_pos by (subst m; apply Z.div_pos; lia).
  assert (m0 / 2 ^ (j + 1) = m / 2) as Hdiv.
  { rewrite Z.pow_add_r by lia. rewrite <- Z.div_div by lia. by rewrite Hm. }
  assert (m mod 2 ≠ 0 ∨ (r || s = true) → m0 mod 2 ^ (j + 1) ≠ 0 ∨ lost0)
    as Hlost.
  { intros [Hodd|Hrs].
    - left. intros Hzero. apply Hodd.
      apply Z.mod_divide in Hzero; [|lia]. destruct Hzero as [k Hk].
      subst m. rewrite Hk, Z.pow_add_r by lia.
      replace (k * (2 ^ j * 2 ^ 1)) with (k * 2 * 2 ^ j) by lia.
      rewrite Z.div_mul by lia. replace (k * 2) with (k * 2) by lia.
      apply Z.mod_mul. lia.
    - destruct (Hbits Hrs) as [Hmod|?]; [left|by right].
      intros Hzero. apply Hmod.
      apply Z.mod_divide in Hzero; [|lia]. destruct Hzero as [k Hk].
      rewrite Hk, Z.pow_add_r by lia.
      replace (k * (2 ^ j * 2 ^ 1)) with (k * 2 * 2 ^ j) by lia.
      apply Z.mod_mul. lia. }
  unfold shifted. rewrite Hdiv.
  destruct m as [|[p|p|]|p]; simpl; try lia.
  - split; [done|]. intros H. apply Hlost. right. done.
  - split.
    + rewrite Pos2Z.inj_xI. apply (Z.div_unique _ _ _ 1); lia.
    + intros _. apply Hlost. left. rewrite Pos2Z.inj_xI.
      rewrite Z.add_comm, Z.mul_comm, Z.mod_add by lia. done.
  - split.
    + rewrite Pos2Z.inj_xO. apply (Z.div_unique _ _ _ 0); lia.
    + intros H. apply Hlost. right. done.
  - split; [done|]. intros _. apply Hlost. left. done.
Qed.

Lemma shr_shifted m0 lost0 mrs e n :
  0 ≤ m0 → shifted m0 lost0 0 mrs →
  shifted m0 lost0 (Z.max 0 n) (fst (shr mrs e n))
  ∧ snd (shr mrs e n) = e + Z.max 0 n.
Proof.
  intros Hm0 H0. destruct n as [|p|p]; simpl.
  - split; [done|lia].
  - split; [|done].
    apply (iter_pos_invariant shr_1 (shifted m0 lost0)
             (λ j x Hj, shr_1_shifted m0 lost0 j x Hm0 Hj) p 0 mrs); [lia|done].
  - split; [done|lia].
Qed.

Lemma shr_record_of_loc_shifted m l :
  shifted m (inexact l) 0 (shr_record_of_loc m l).
Proof.
  unfold shifted. rewrite Z.pow_0_r, Z.div_1_r.
  destruct l as [|[]]; simpl; (split; [done|]); intros H;
    try discriminate; right; discriminate.
Qed.

Lemma round_nearest_even_bounds m mrs :
  0 ≤ m → shr_m mrs = m →
  m ≤ round_nearest_even m (loc_of_shr_record mrs) ≤ m + 1
  ∧ (round_nearest_even m (loc_of_shr_record mrs) ≠ m →
     shr_r mrs || shr_s mrs = true).
Proof.
  intros Hm _. destruct mrs as [m' [] []]; simpl;
    try destruct (Z.even m); split; try lia; try done.
Qed.

(** [fexp] and the number of digits. *)
Lemma digits2_pos_size p : digits2_pos p = Pos.size p.
Proof. induction p; simpl; by rewrite ?IHp. Qed.

Lemma Zdigits2_bounds m :
  0 < m → 2 ^ (Zdigits2 m - 1) ≤ m < 2 ^ Zdigits2 m.
Proof.
  destruct m as [|p|p]; try lia. intros _. simpl.
  rewrite digits2_pos_size. split.
  - pose proof (Pos.size_le p) as H.
    assert (2 ^ Z.pos (Pos.size p) ≤ 2 * Z.pos p) as H'.
    { change 2 with (Z.pos 2) at 1. rewrite <- Pos2Z.inj_pow.
      change (2 * Z.pos p) with (Z.pos (p~0)). by apply Pos2Z.pos_le_pos. }
    replace (Z.pos (Pos.size p)) with (Z.pos (Pos.size p) - 1 + 1) in H' by lia.
    rewrite Z.pow_add_r in H' by lia. lia.
  - pose proof (Pos.size_gt p) as H.
    change 2 with (Z.pos 2). rewrite <- Pos2Z.inj_pow. by apply Pos2Z.pos_lt_pos.
Qed.

Lemma Zdigits2_nonneg m : 0 ≤ Zdigits2 m.
Proof. destruct m; simpl; lia. Qed.

(** The mantissa that [binary_round_aux] tests at the end is not negative,
    so the rounding of a non-negative mantissa is never NaN. *)
Lemma binary_round_aux_not_nan prec emax sx mx ex lx :
  0 ≤ mx → binary_round_aux prec emax sx mx ex lx ≠ S754_nan.
Proof.
  intros Hmx. unfold binary_round_aux, shr_fexp.
  destruct (shr (shr_record_of_loc mx lx) ex _) as [mrs' e'] eqn:E1.
  pose proof (shr_shifted mx (inexact lx) _ ex
                (fexp prec emax (Zdigits2 mx + ex) - ex) Hmx
                (shr_record_of_loc_shifted mx lx)) as [[Hm1 _] _].
  rewrite E1 in Hm1. simpl in Hm1.
  assert (0 ≤ shr_m mrs') as Hm1_pos.
  { rewrite Hm1. apply Z.div_pos; lia. }
  set (m2 := round_nearest_even (shr_m mrs') (loc_of_shr_record mrs')).
  assert (0 ≤ m2) as Hm2.
  { pose proof (round_nearest_even_bounds (shr_m mrs') mrs' Hm1_pos eq_refl).
    unfold m2. lia. }
  destruct (shr (shr_record_of_loc m2 loc_Exact) e' _) as [mrs'' e''] eqn:E2.
  pose proof (shr_shifted m2 (inexact loc_Exact) _ e'
                (fexp prec emax (Zdigits2 m2 + e') - e') Hm2
                (shr_record_of_loc_shifted m2 loc_Exact)) as [[Hm3 _] _].
  rewrite E2 in Hm3. simpl in Hm3.
  assert (0 ≤ shr_m mrs'') as Hm3_pos.
  { rewrite Hm3. apply Z.div_pos; lia. }
  destruct (shr_m mrs''); try lia; [done|].
  by destruct (_ <=? _).
Qed.

Lemma Zdigits2_le_pow m k : 0 ≤ k → 0 ≤ m → m < 2 ^ k → Zdigits2 m ≤ k.
Proof.
  intros Hk Hm Hlt. destruct (decide (m = 0)) as [->|Hne]; [simpl; lia|].
  pose proof (Zdigits2_bounds m ltac:(lia)) as [Hlo _].
  pose proof (Zdigits2_nonneg m).
  destruct (decide (Zdigits2 m ≤ k)); [done|]. exfalso.
  assert (2 ^ k ≤ 2 ^ (Zdigits2 m - 1)) by (apply Z.pow_le_mono_r; lia).
  lia.
Qed.

Lemma div_lt_of_not_multiple a b K :
  0 < b → 0 ≤ a → a ≤ K * b → a mod b ≠ 0 → a / b < K.
Proof.
  intros Hb Ha Hle Hmod.
  apply Z.div_lt_upper_bound; [done|].
  destruct (decide (a = K * b)) as [->|]; [|lia].
  exfalso. apply Hmod. apply Z.mod_mul. lia.
Qed.

(** Rounding to nearest of a non-negative quantity that does not exceed a
    representable bound [mB * 2^eB] stays below that bound. *)
Lemma binary_round_aux_le prec emax mx ex lx mB eB :
  0 ≤ mx →
  Z.pos (digits2_pos mB) ≤ prec →
  SpecFloat.emin prec emax ≤ eB → eB ≤ emax - prec →
  ex + Z.max 0 (fexp prec emax (Zdigits2 mx + ex) - ex) ≤ eB →
  mx ≤ Z.pos mB * 2 ^ (eB - ex) →
  (inexact lx → mx + 1 ≤ Z.pos mB * 2 ^ (eB - ex)) →
  SFleb (binary_round_aux prec emax false mx ex lx) (S754_finite false mB eB)
  = true.
Proof.
  intros Hmx HdB HeminB HemaxB He1 Hval Hvalx.
  unfold binary_round_aux, shr_fexp.
  set (n := fexp prec emax (Zdigits2 mx + ex) - ex) in *.
  destruct (shr (shr_record_of_loc mx lx) ex n) as [mrs' e'] eqn:E1.
  pose proof (shr_shifted mx (inexact lx) _ ex n Hmx
                (shr_record_of_loc_shifted mx lx)) as [[Hm1 Hbits1] He'].
  rewrite E1 in Hm1, Hbits1, He'. simpl in Hm1, Hbits1, He'.
  set (m1 := shr_m mrs') in *.
  assert (0 ≤ m1) as Hm1_pos by (rewrite Hm1; apply Z.div_pos; lia).
  set (m2 := round_nearest_even m1 (loc_of_shr_record mrs')).
  pose proof (round_nearest_even_bounds m1 mrs' Hm1_pos eq_refl)
    as [Hm2 Hup]. fold m2 in Hm2, Hup.
  (* the bound on the grid of the first shift *)
  set (K := Z.pos mB * 2 ^ (eB - e')).
  assert (0 ≤ Z.max 0 n) as Hn by lia.
  assert (Z.pos mB * 2 ^ (eB - ex) = K * 2 ^ Z.max 0 n) as HK.
  { unfold K. rewrite <- Z.mul_assoc, <- Z.pow_add_r by lia.
    f_equal. f_equal. lia. }
  assert (0 < 2 ^ Z.max 0 n) as Hpow by (apply Z.pow_pos_nonneg; lia).
  assert (m2 ≤ K) as Hm2K.
  { assert (m1 ≤ K) as Hm1K.
    { rewrite Hm1. apply Z.div_le_upper_bound; [done|]. lia. }
    destruct (decide (m2 = m1)) as [->|Hne]; [done|].
    assert (m1 < K); [|lia].
    destruct (Hbits1 (Hup Hne)) as [Hmod|Hinex].
    - rewrite Hm1. apply div_lt_of_not_multiple; (done || lia).
    - rewrite Hm1. apply Z.div_lt_upper_bound; [done|].
      specialize (Hvalx Hinex). lia. }
  assert (0 ≤ m2) as Hm2_pos by lia.
  set (n2 := fexp prec emax (Zdigits2 m2 + e') - e').
  destruct (shr (shr_record_of_loc m2 loc_Exact) e' n2) as [mrs'' e''] eqn:E2.
  pose proof (shr_shifted m2 (inexact loc_Exact) _ e' n2 Hm2_pos
                (shr_record_of_loc_shifted m2 loc_Exact)) as [[Hm3 _] He''].
  rewrite E2 in Hm3, He''. simpl in Hm3, He''.
  (* the final exponent does not exceed the exponent of the bound *)
  assert (e' ≤ eB) as He'B by lia.
  assert (e'' ≤ eB) as He''B.
  { rewrite He''. destruct (Z.max_spec 0 n2) as [[_ ->]|[_ ->]]; [|lia].
    unfold n2, fexp.
    assert (Zdigits2 m2 ≤ prec + (eB - e')); [|lia].
    pose proof (Zdigits2_nonneg m2).
    destruct (decide (0 ≤ prec + (eB - e'))); [|lia].
    apply Zdigits2_le_pow; [lia|lia|].
    pose proof (Zdigits2_bounds (Z.pos mB) ltac:(lia)) as [_ HmB].
    simpl in HmB.
    assert (2 ^ Z.pos (digits2_pos mB) ≤ 2 ^ prec)
      by (apply Z.pow_le_mono_r; lia).
    assert (0 < 2 ^ (eB - e')) by (apply Z.pow_pos_nonneg; lia).
    rewrite Z.pow_add_r by lia. unfold K in Hm2K. nia. }
  destruct (shr_m mrs'') as [|m3|m3] eqn:Em3.
  - done.
  - destruct (Z.leb_spec e'' (emax - prec)); [|lia].
    unfold SFleb. simpl.
    destruct (Z.compare_spec e'' eB) as [Heq|Hlt|Hgt]; [|done|lia].
    assert (Z.pos m3 ≤ Z.pos mB) as Hle.
    { rewrite Hm3. subst e''.
      assert (Z.max 0 n2 = eB - e') as -> by lia.
      apply Z.div_le_upper_bound; [apply Z.pow_pos_nonneg; lia|].
      unfold K in Hm2K. lia. }
    fold (Pos.compare m3 mB).
    destruct (Pos.compare_spec m3 mB); try done. lia.
  - exfalso. assert (0 ≤ m2 / 2 ^ Z.max 0 n2); [|lia].
    apply Z.div_pos; [lia|]. apply Z.pow_pos_nonneg; lia.
Qed.

(** ** Binary64 numbers that are positive and finite *)

Lemma bounded_facts m e :
  bounded prec emax m e = true →
  -1074 ≤ e ≤ 971
  ∧ Z.pos (digits2_pos m) ≤ 53
  ∧ (-1074 < e → Z.pos (digits2_pos m) = 53).
Proof.
  unfold bounded, canonical_mantissa, fexp, SpecFloat.emin, prec, emax.
  intros [H1 H2]%andb_true_iff. apply Z.eqb_eq in H1. apply Z.leb_le in H2.
  lia.
Qed.

Lemma pos_digits_bounds m :
  2 ^ (Z.pos (digits2_pos m) - 1) ≤ Z.pos m < 2 ^ Z.pos (digits2_pos m).
Proof. apply (Zdigits2_bounds (Z.pos m)). lia. Qed.

(** The order of [SFcompare] on two valid positive numbers is the order of
    their values. *)
Lemma finite_order_value ma ea mb eb :
  bounded prec emax ma ea = true → bounded prec emax mb eb = true →
  SFcompare (S754_finite false ma ea) (S754_finite false mb eb) ≠ Some Gt →
  ea ≤ eb ∧ Z.pos ma ≤ Z.pos mb * 2 ^ (eb - ea).
Proof.
  intros (Hea & Hda & _)%bounded_facts (Heb & Hdb & Hnb)%bounded_facts.
  simpl. destruct (Z.compare_spec ea eb) as [->|Hlt|Hgt]; try done.
  - intros Hc. split; [lia|]. rewrite Z.sub_diag, Z.mul_1_r.
    fold (Pos.compare ma mb) in Hc.
    destruct (Pos.compare_spec ma mb); try done; lia.
  - intros _. split; [lia|].
    pose proof (pos_digits_bounds ma) as [_ Ha].
    pose proof (pos_digits_bounds mb) as [Hb _].
    rewrite Hnb in Hb by lia.
    assert (2 ^ Z.pos (digits2_pos ma) ≤ 2 ^ 53)
      by (apply Z.pow_le_mono_r; lia).
    assert (2 ^ 1 ≤ 2 ^ (eb - ea)) by (apply Z.pow_le_mono_r; lia).
    change (2 ^ (53 - 1)) with 4503599627370496 in Hb.
    change (2 ^ 53) with 9007199254740992 in *. change (2 ^ 1) with 2 in *.
    nia.
Qed.

Lemma inexact_new_location nb k : inexact (new_location nb k) → k ≠ 0.
Proof.
  unfold inexact, new_location, new_location_even, new_location_odd.
  intros H ->. by destruct (Z.even nb).
Qed.

(** The quotient core: mantissa, exponent and location. *)
Lemma SFdiv_core_binary_spec mx ex my ey :
  let e' := Z.min (fexp prec emax (Z.pos (digits2_pos mx) + ex
                                   - (Z.pos (digits2_pos my) + ey)))
                  (ex - ey) in
  let m' := Z.pos mx * 2 ^ (ex - ey - e') in
  ∃ l, SFdiv_core_binary prec emax (Z.pos mx) ex (Z.pos my) ey
       = (m' / Z.pos my, e', l)
       ∧ (inexact l → m' mod Z.pos my ≠ 0).
Proof.
  intros e' m'. unfold SFdiv_core_binary. simpl Zdigits2. fold e'.
  set (s := ex - ey - e').
  assert (0 ≤ s) as Hs by (unfold s, e'; lia).
  assert (match s with
          | 0 => Z.pos mx
          | Z.pos _ => Z.pos mx ≪ s
          | Z.neg _ => 0
          end = m') as ->.
  { unfold m'. fold s. destruct s as [|p|p] eqn:Es; try lia.
    rewrite Z.shiftl_mul_pow2 by lia. done. }
  destruct (Z.div_eucl m' (Z.pos my)) as [q r] eqn:E.
  assert (q = m' / Z.pos my) as -> by (unfold Z.div; by rewrite E).
  eexists. split; [done|].
  intros Hl%inexact_new_location.
  unfold Z.modulo. by rewrite E.
Qed.

Lemma Prim2SF_one : Prim2SF 1 = SF_one.
Proof. reflexivity. Qed.


Lemma Zdigits2_unique m d :
  0 < m → 2 ^ (d - 1) ≤ m < 2 ^ d → Zdigits2 m = d.
Proof.
  intros Hm [Hlo Hhi].
  pose proof (Zdigits2_bounds m Hm) as [Hlo' Hhi'].
  pose proof (Zdigits2_nonneg m).
  assert (1 ≤ d).
  { destruct (decide (1 ≤ d)); [done|]. exfalso.
    assert (2 ^ d ≤ 2 ^ 0) by (apply Z.pow_le_mono_r; lia).
    change (2 ^ 0) with 1 in *. lia. }
  destruct (Z.lt_trichotomy (Zdigits2 m) d) as [Hlt|[Heq|Hgt]]; [|done|].
  - exfalso.
    assert (2 ^ Zdigits2 m ≤ 2 ^ (d - 1)) by (apply Z.pow_le_mono_r; lia).
    lia.
  - exfalso.
    assert (2 ^ d ≤ 2 ^ (Zdigits2 m - 1)) by (apply Z.pow_le_mono_r; lia).
    lia.
Qed.

Lemma Zdigits2_mul_pow2 m k :
  0 < m → 0 ≤ k → Zdigits2 (m * 2 ^ k) = Zdigits2 m + k.
Proof.
  intros Hm Hk.
  pose proof (Zdigits2_bounds m Hm) as [Hlo Hhi].
  assert (0 < 2 ^ k) by (apply Z.pow_pos_nonneg; lia).
  assert (1 ≤ Zdigits2 m).
  { destruct (decide (1 ≤ Zdigits2 m)); [done|]. exfalso.
    assert (2 ^ Zdigits2 m ≤ 2 ^ 0) by (apply Z.pow_le_mono_r; lia).
    change (2 ^ 0) with 1 in *. lia. }
  apply Zdigits2_unique; [nia|].
  replace (Zdigits2 m + k - 1) with ((Zdigits2 m - 1) + k) by lia.
  rewrite !Z.pow_add_r by lia. nia.
Qed.

Lemma shl_align_spec mx ex ex' :
  snd (shl_align mx ex ex') = Z.min ex ex'
  ∧ Z.pos (fst (shl_align mx ex ex'))
    = Z.pos mx * 2 ^ (ex - Z.min ex ex').
Proof.
  unfold shl_align. destruct (ex' - ex) as [|d|d] eqn:E; simpl.
  - split; [lia|]. replace (ex - Z.min ex ex') with 0 by lia. lia.
  - split; [lia|]. replace (ex - Z.min ex ex') with 0 by lia. lia.
  - split; [lia|]. replace (ex - Z.min ex ex') with (Z.pos d) by lia.
    change (Pos.iter xO mx d) with (shift_pos d mx).
    rewrite shift_pos_correct. change (Z.pow_pos 2 d) with (2 ^ Z.pos d). lia.
Qed.

Lemma binary_round_aux_shape prec emax sx mx ex lx :
  let R := binary_round_aux prec emax sx mx ex lx in
  R = S754_zero sx ∨ R = S754_infinity sx ∨ R = S754_nan
  ∨ ∃ m e, R = S754_finite sx m e.
Proof.
  unfold binary_round_aux.
  destruct (shr_fexp prec emax mx ex lx) as [mrs' e'].
  destruct (shr_fexp prec emax _ e' loc_Exact) as [mrs'' e''].
  destruct (shr_m mrs''); [by left| |by right; right; left].
  destruct (_ <=? _); [|by right; left]. right; right; right. eauto.
Qed.

(** The difference of two positive numbers, the smaller one subtracted, is
    +0 or a positive number that does not exceed the larger one. *)
Lemma SFsub_le mM eM mv ev :
  bounded prec emax mM eM = true → bounded prec emax mv ev = true →
  SFcompare (S754_finite false mv ev) (S754_finite false mM eM) ≠ Some Gt →
  let R := SFsub prec emax (S754_finite false mM eM) (S754_finite false mv ev) in
  R = S754_zero false
  ∨ ∃ m e, R = S754_finite false m e
           ∧ SFcompare R (S754_finite false mM eM) ≠ Some Gt.
Proof.
  intros HM Hv Hle R.
  destruct (finite_order_value mv ev mM eM Hv HM Hle) as [He Hval].
  pose proof (bounded_facts _ _ HM) as (HeM & HdM & _).
  pose proof (pos_digits_bounds mM) as [_ HMhi].
  assert (2 ^ Z.pos (digits2_pos mM) ≤ 2 ^ 53) as HM53
    by (apply Z.pow_le_mono_r; lia).
  unfold R, SFsub. cbn [cond_Zopp].
  replace (Z.min eM ev) with ev by lia.
  destruct (shl_align_spec mM eM ev) as [_ ->].
  destruct (shl_align_spec mv ev ev) as [_ ->].
  replace (Z.min eM ev) with ev by lia.
  replace (Z.min ev ev) with ev by lia.
  rewrite Z.sub_diag, Z.mul_1_r.
  set (diff := Z.pos mM * 2 ^ (eM - ev) - Z.pos mv).
  assert (0 ≤ diff) as Hdiff by (unfold diff; lia).
  unfold binary_normalize.
  destruct diff as [|d|d] eqn:Ed; [by left| |lia].
  unfold binary_round.
  set (f := fexp prec emax (Z.pos (digits2_pos d) + ev)).
  destruct (shl_align d ev f) as [mz ez] eqn:Ea.
  pose proof (shl_align_spec d ev f) as [Hez Hmz]. rewrite Ea in Hez, Hmz.
  simpl in Hez, Hmz. subst ez.
  assert (0 < 2 ^ (eM - ev)) by (apply Z.pow_pos_nonneg; lia).
  assert (Z.pos d ≤ Z.pos mM * 2 ^ (eM - ev)) as Hd by lia.
  assert (Zdigits2 (Z.pos mz) + Z.min ev f = Z.pos (digits2_pos d) + ev)
    as Hdig.
  { rewrite Hmz, Zdigits2_mul_pow2 by lia. simpl. lia. }
  assert (f ≤ eM) as Hf.
  { unfold f, fexp, SpecFloat.emin, prec, emax.
    assert (Z.pos (digits2_pos d) ≤ 53 + (eM - ev)); [|lia].
    apply (Zdigits2_le_pow (Z.pos d)); [lia|lia|].
    rewrite Z.pow_add_r by lia. nia. }
  assert (SFleb (binary_round_aux prec emax false (Z.pos mz) (Z.min ev f)
                   loc_Exact) (S754_finite false mM eM) = true) as Hbound.
  { apply binary_round_aux_le;
      unfold SpecFloat.emin; try (unfold prec, emax; lia).
    - rewrite Hdig. fold f. lia.
    - rewrite Hmz.
      replace (eM - Z.min ev f) with ((eM - ev) + (ev - Z.min ev f)) by lia.
      rewrite Z.pow_add_r by lia.
      assert (0 < 2 ^ (ev - Z.min ev f)) by (apply Z.pow_pos_nonneg; lia).
      nia.
    - intros Hin. by destruct Hin. }
  destruct (binary_round_aux_shape prec emax false (Z.pos mz) (Z.min ev f)
              loc_Exact) as [HR|[HR|[HR|(m & e & HR)]]];
    rewrite HR in Hbound |- *; try done.
  - by left.
  - right. exists m, e. split; [done|]. unfold SFleb in Hbound.
    intros Hc. rewrite Hc in Hbound. done.
Qed.

(** ** Magnitudes: lower bounds through the rounding *)

Lemma Zdigits2_pos m : 0 < m → 1 ≤ Zdigits2 m.
Proof. destruct m; simpl; lia. Qed.

Lemma Zdigits2_zero_iff m : 0 ≤ m → (Zdigits2 m = 0 ↔ m = 0).
Proof. destruct m; simpl; lia. Qed.

Lemma Zdigits2_mono a b : 0 ≤ a → a ≤ b → Zdigits2 a ≤ Zdigits2 b.
Proof.
  intros Ha Hab. destruct (decide (a = 0)) as [->|Hne].
  - apply Zdigits2_nonneg.
  - pose proof (Zdigits2_bounds b ltac:(lia)) as [_ Hb].
    apply Zdigits2_le_pow; [apply Zdigits2_nonneg|lia|lia].
Qed.

Lemma Zdigits2_div_pow2 m n :
  0 < m → 0 ≤ n → n < Zdigits2 m → Zdigits2 (m / 2 ^ n) = Zdigits2 m - n.
Proof.
  intros Hm Hn Hlt.
  pose proof (Zdigits2_bounds m Hm) as [Hlo Hhi].
  assert (0 < 2 ^ n) by (apply Z.pow_pos_nonneg; lia).
  assert (2 ^ (Zdigits2 m - 1) = 2 ^ (Zdigits2 m - n - 1) * 2 ^ n) as E1.
  { rewrite <- Z.pow_add_r by lia. f_equal. lia. }
  assert (2 ^ Zdigits2 m = 2 ^ (Zdigits2 m - n) * 2 ^ n) as E2.
  { rewrite <- Z.pow_add_r by lia. f_equal. lia. }
  assert (2 ^ (Zdigits2 m - n - 1) ≤ m / 2 ^ n).
  { apply Z.div_le_lower_bound; [done|]. lia. }
  assert (m / 2 ^ n < 2 ^ (Zdigits2 m - n)).
  { apply Z.div_lt_upper_bound; [done|]. lia. }
  assert (0 < 2 ^ (Zdigits2 m - n - 1)) by (apply Z.pow_pos_nonneg; lia).
  apply Zdigits2_unique; [lia|]. split; [|done].
  replace (Zdigits2 m - n - 1) with (Zdigits2 m - n - 1) by lia. done.
Qed.

Lemma Zdigits2_succ_le m : 0 ≤ m → Zdigits2 (m + 1) ≤ Zdigits2 m + 1.
Proof.
  intros Hm. destruct (decide (m = 0)) as [->|Hne]; [simpl; lia|].
  pose proof (Zdigits2_bounds m ltac:(lia)) as [_ Hhi].
  pose proof (Zdigits2_nonneg m).
  apply Zdigits2_le_pow; [lia|lia|].
  rewrite Z.pow_add_r by lia. lia.
Qed.

(** One call of [shr_fexp] on a positive mantissa whose magnitude is above
    [emin]: the magnitude is kept, the exponent becomes canonical or stays. *)
Lemma shr_fexp_mag prec emax m e l :
  0 < prec → 0 < m →
  SpecFloat.emin prec emax < Zdigits2 m + e →
  let r := shr_fexp prec emax m e l in
  let n := Z.max 0 (fexp prec emax (Zdigits2 m + e) - e) in
  snd r = e + n
  ∧ shr_m (fst r) = m / 2 ^ n
  ∧ 0 < shr_m (fst r)
  ∧ Zdigits2 (shr_m (fst r)) + snd r = Zdigits2 m + e
  ∧ (shr_r (fst r) || shr_s (fst r) = true → m mod 2 ^ n ≠ 0 ∨ inexact l).
Proof.
  intros Hprec Hm Hmag r n. unfold r, shr_fexp.
  pose proof (shr_shifted m (inexact l) _ e
                (fexp prec emax (Zdigits2 m + e) - e) ltac:(lia)
                (shr_record_of_loc_shifted m l)) as [[Hsm Hbits] He].
  fold n in Hsm, Hbits, He.
  assert (n < Zdigits2 m) as Hn.
  { unfold n, fexp. pose proof (Zdigits2_pos m Hm). lia. }
  assert (0 ≤ n) by (unfold n; lia).
  pose proof (Zdigits2_div_pow2 m n Hm ltac:(lia) Hn) as Hd.
  split; [done|]. split; [done|]. rewrite Hsm, He, Hd.
  split; [|split; [lia|done]].
  pose proof (Zdigits2_nonneg (m / 2 ^ n)).
  assert (0 ≤ m / 2 ^ n) by (apply Z.div_pos; [lia|apply Z.pow_pos_nonneg; lia]).
  destruct (decide (m / 2 ^ n = 0)) as [E|]; [|lia].
  rewrite E in Hd. simpl in Hd. lia.
Qed.

Lemma fexp_mono prec emax a b : a ≤ b → fexp prec emax a ≤ fexp prec emax b.
Proof. unfold fexp. lia. Qed.

(** The rounding of a positive mantissa whose magnitude [mu] is above [emin]:
    an infinity, or a number of magnitude [mu] or [mu + 1] whose exponent is
    the larger of the input exponent and the canonical one. *)
Lemma binary_round_aux_mag prec emax sx mx ex lx :
  0 < prec → 0 < mx →
  SpecFloat.emin prec emax < Zdigits2 mx + ex →
  let mu := Zdigits2 mx + ex in
  let R := binary_round_aux prec emax sx mx ex lx in
  ∃ m e, mu ≤ Z.pos (digits2_pos m) + e ≤ mu + 1
         ∧ e = Z.max ex (fexp prec emax (Z.pos (digits2_pos m) + e))
         ∧ R = (if e <=? emax - prec then S754_finite sx m e
                else S754_infinity sx).
Proof.
  intros Hprec Hmx Hmag mu R. unfold R, binary_round_aux.
  pose proof (shr_fexp_mag prec emax mx ex lx Hprec Hmx Hmag)
    as (He1 & Hm1 & Hm1pos & Hmag1 & _).
  destruct (shr_fexp prec emax mx ex lx) as [mrs' e1]. simpl in *.
  set (m1 := shr_m mrs') in *.
  set (m2 := round_nearest_even m1 (loc_of_shr_record mrs')).
  pose proof (round_nearest_even_bounds m1 mrs' ltac:(lia) eq_refl)
    as [Hm2 _]. fold m2 in Hm2.
  assert (Zdigits2 m1 ≤ Zdigits2 m2 ≤ Zdigits2 m1 + 1) as Hd2.
  { split; [apply Zdigits2_mono; lia|].
    etrans; [apply (Zdigits2_mono m2 (m1 + 1)); lia|].
    apply Zdigits2_succ_le. lia. }
  assert (SpecFloat.emin prec emax < Zdigits2 m2 + e1) as Hmag2 by lia.
  pose proof (shr_fexp_mag prec emax m2 e1 loc_Exact Hprec ltac:(lia) Hmag2)
    as (He3 & Hm3 & Hm3pos & Hmag3 & _).
  destruct (shr_fexp prec emax m2 e1 loc_Exact) as [mrs'' e3]. simpl in *.
  destruct (shr_m mrs'') as [|m3|m3] eqn:E3; try lia.
  exists m3, e3. simpl in Hmag3.
  assert (Z.pos (digits2_pos m3) + e3 = Zdigits2 m2 + e1) as Hmu3 by lia.
  split; [|split; [|done]].
  - unfold mu. lia.
  - rewrite Hmu3. unfold fexp in *. lia.
Qed.

Lemma Zdigits2_ge_pow m k : 0 ≤ k → 2 ^ k ≤ m → k + 1 ≤ Zdigits2 m.
Proof.
  intros Hk Hm.
  assert (0 < 2 ^ k) by (apply Z.pow_pos_nonneg; lia).
  pose proof (Zdigits2_bounds m ltac:(lia)) as [_ Hhi].
  pose proof (Zdigits2_nonneg m).
  destruct (decide (k + 1 ≤ Zdigits2 m)); [done|]. exfalso.
  assert (2 ^ Zdigits2 m ≤ 2 ^ k) by (apply Z.pow_le_mono_r; lia). lia.
Qed.

Lemma binary_round_aux_at_least sx mx ex lx a :
  0 < mx → -1074 < a → a ≤ Zdigits2 mx + ex →
  let R := binary_round_aux prec emax sx mx ex lx in
  R = S754_infinity sx
  ∨ ∃ m e, R = S754_finite sx m e ∧ a ≤ Z.pos (digits2_pos m) + e.
Proof.
  intros Hmx Ha Hmag R.
  destruct (binary_round_aux_mag prec emax sx mx ex lx) as (m & e & Hmu & _ & HR);
    [done|done|unfold SpecFloat.emin, prec, emax; lia|].
  fold R in HR. rewrite HR. destruct (e <=? emax - prec); [|by left].
  right. exists m, e. split; [done|lia].
Qed.

(** The square of a number of magnitude [mu]. *)
Lemma SFmul_square_at_least s m e :
  -1074 < 2 * (Z.pos (digits2_pos m) + e) - 1 →
  at_least (SFmul prec emax (S754_finite s m e) (S754_finite s m e))
           (2 * (Z.pos (digits2_pos m) + e) - 1).
Proof.
  intros Hmag. unfold SFmul. replace (xorb s s) with false by (by destruct s).
  apply binary_round_aux_at_least; [lia|done|].
  pose proof (pos_digits_bounds m) as [Hlo _].
  assert (0 ≤ Z.pos (digits2_pos m) - 1) by lia.
  assert (2 * (Z.pos (digits2_pos m) - 1) + 1
          ≤ Zdigits2 (Z.pos (m * m))); [|lia].
  apply Zdigits2_ge_pow; [lia|].
  replace (2 * (Z.pos (digits2_pos m) - 1))
    with ((Z.pos (digits2_pos m) - 1) + (Z.pos (digits2_pos m) - 1)) by lia.
  rewrite Z.pow_add_r by lia. rewrite Pos2Z.inj_mul. nia.
Qed.

(** Adding a non-negative number does not decrease the magnitude. *)
Lemma SFadd_at_least acc q a :
  -1074 < a → nonneg acc → at_least q a →
  at_least (SFadd prec emax acc q) a.
Proof.
  intros Ha Hacc Hq.
  destruct Hacc as [[s ->]|[(ma & ea & ->)| ->]];
    destruct Hq as [->|(mq & eq & -> & Hmag)]; simpl; try (by left).
  - right. eauto.
  - (* two positive numbers *)
    destruct (shl_align_spec ma ea (Z.min ea eq)) as [_ HA].
    destruct (shl_align_spec mq eq (Z.min ea eq)) as [_ HQ].
    set (ez := Z.min ea eq) in *.
    replace (Z.min ea ez) with ez in HA by (unfold ez; lia).
    replace (Z.min eq ez) with ez in HQ by (unfold ez; lia).
    set (mA := fst (shl_align ma ea ez)) in *.
    set (mQ := fst (shl_align mq eq ez)) in *.
    unfold binary_normalize. simpl Z.add.
    unfold binary_round.
    set (sum := (mA + mQ)%positive).
    set (f := fexp prec emax (Z.pos (digits2_pos sum) + ez)).
    destruct (shl_align_spec sum ez f) as [Hez Hmz].
    destruct (shl_align sum ez f) as [mz ez']. simpl in Hez, Hmz. subst ez'.
    apply binary_round_aux_at_least; [lia|done|].
    rewrite Hmz, Zdigits2_mul_pow2 by lia.
    assert (Zdigits2 (Z.pos mQ) ≤ Zdigits2 (Z.pos sum)) as Hmono.
    { apply Zdigits2_mono; unfold sum; lia. }
    assert (Zdigits2 (Z.pos mQ) = Z.pos (digits2_pos mq) + (eq - ez)) as HdQ.
    { rewrite HQ, Zdigits2_mul_pow2 by (unfold ez; lia). done. }
    simpl Zdigits2 in *. lia.
Qed.

(** The quotient of a number of magnitude at least [a] by a non-negative
    number of magnitude at most [b]. *)
Lemma SFdiv_at_least x c a b :
  -1074 < a - b →
  at_least x a →
  (c = S754_zero false
   ∨ ∃ mc ec, c = S754_finite false mc ec ∧ Z.pos (digits2_pos mc) + ec ≤ b) →
  at_least (SFdiv prec emax x c) (a - b).
Proof.
  intros Hab Hx Hc.
  destruct Hx as [->|(mx & ex & -> & Hmx)];
    destruct Hc as [->|(mc & ec & -> & Hmc)]; simpl; try (by left).
  destruct (SFdiv_core_binary_spec mx ex mc ec) as (l & -> & _).
  set (mux := Z.pos (digits2_pos mx) + ex) in *.
  set (muc := Z.pos (digits2_pos mc) + ec) in *.
  set (e' := Z.min (fexp prec emax (mux - muc)) (ex - ec)).
  set (m' := Z.pos mx * 2 ^ (ex - ec - e')).
  pose proof (pos_digits_bounds mx) as [Hxlo _].
  pose proof (pos_digits_bounds mc) as [_ Hchi].
  assert (e' ≤ mux - muc - 1) as He'.
  { unfold e', fexp, SpecFloat.emin, prec, emax. lia. }
  set (g := mux - muc - 1 - e').
  assert (0 ≤ g) by (unfold g; lia).
  assert (0 ≤ ex - ec - e') by (unfold e'; lia).
  (* the quotient mantissa is at least 2^g *)
  assert (2 ^ g ≤ m' / Z.pos mc) as Hq.
  { apply Z.div_le_lower_bound; [lia|].
    assert (2 ^ g * 2 ^ Z.pos (digits2_pos mc)
            = 2 ^ (Z.pos (digits2_pos mx) - 1) * 2 ^ (ex - ec - e')) as E.
    { rewrite <- !Z.pow_add_r by lia. f_equal. unfold g, mux, muc. lia. }
    assert (0 < 2 ^ g) by (apply Z.pow_pos_nonneg; lia).
    assert (0 < 2 ^ (ex - ec - e')) by (apply Z.pow_pos_nonneg; lia).
    unfold m'. nia. }
  assert (0 < 2 ^ g) by (apply Z.pow_pos_nonneg; lia).
  apply binary_round_aux_at_least; [lia|done|].
  pose proof (Zdigits2_ge_pow (m' / Z.pos mc) g ltac:(lia) Hq).
  unfold g in *. lia.
Qed.

Lemma half_bounds x : 2 * (x / 2) ≤ x < 2 * (x / 2) + 2.
Proof.
  pose proof (Z.mul_div_le x 2 ltac:(lia)).
  pose proof (Z.mul_succ_div_gt x 2 ltac:(lia)). lia.
Qed.

(** The square root of a number of magnitude at least [a]. *)
Lemma SFsqrt_at_least t a :
  -1074 < (a + 1) / 2 →
  at_least t a → at_least (SFsqrt prec emax t) ((a + 1) / 2).
Proof.
  intros Ha [->|(m & e & -> & Hmag)]; [by left|].
  unfold SFsqrt, SFsqrt_core_binary. simpl Zdigits2.
  set (d := Z.pos (digits2_pos m)) in *.
  rewrite !Z.div2_div.
  set (e' := Z.min (fexp prec emax ((d + e + 1) / 2)) (e / 2)).
  set (s := e - 2 * e').
  pose proof (half_bounds e) as He2.
  pose proof (half_bounds (a + 1)) as Ha2.
  assert (0 ≤ s) as Hs by (unfold s, e'; lia).
  set (m' := match s with
             | 0 => Z.pos m
             | Z.pos _ => Z.pos m ≪ s
             | Z.neg _ => 0
             end).
  assert (m' = Z.pos m * 2 ^ s) as Hm'.
  { unfold m'. destruct s as [|p|p] eqn:Es; try lia.
    rewrite Z.shiftl_mul_pow2 by lia. done. }
  pose proof (Z.sqrtrem_spec m') as Hsqrt.
  destruct (Z.sqrtrem m') as [q r].
  pose proof (pos_digits_bounds m) as [Hlo _]. fold d in Hlo.
  assert (0 < 2 ^ s) by (apply Z.pow_pos_nonneg; lia).
  assert (0 ≤ m') by (rewrite Hm'; nia).
  destruct (Hsqrt ltac:(lia)) as [Hq Hr].
  set (h := (d - 1 + s) / 2).
  pose proof (half_bounds (d - 1 + s)) as Hh2. fold h in Hh2.
  assert (0 ≤ h) by lia.
  assert (2 ^ h * 2 ^ h ≤ m') as Hh.
  { rewrite <- Z.pow_add_r by lia. rewrite Hm'.
    assert (2 ^ (h + h) ≤ 2 ^ (d - 1 + s))
      by (apply Z.pow_le_mono_r; lia).
    assert (2 ^ (d - 1 + s) = 2 ^ (d - 1) * 2 ^ s) as E
      by (apply Z.pow_add_r; unfold d; lia).
    rewrite E in *. nia. }
  assert (0 < 2 ^ h) by (apply Z.pow_pos_nonneg; lia).
  assert (2 ^ h ≤ q) as Hqh by nia.
  pose proof (Zdigits2_ge_pow q h ltac:(lia) Hqh) as Hdq.
  set (l := if r =? 0 then loc_Exact
            else loc_Inexact (if r <=? q then Lt else Gt)).
  apply binary_round_aux_at_least; [lia|done|].
  unfold s in Hh2. lia.
Qed.

Lemma binary_round_aux_sign prec emax sx mx ex lx :
  binary_round_aux prec emax sx mx ex lx =
  match binary_round_aux prec emax false mx ex lx with
  | S754_zero _ => S754_zero sx
  | S754_infinity _ => S754_infinity sx
  | S754_nan => S754_nan
  | S754_finite _ m e => S754_finite sx m e
  end.
Proof.
  unfold binary_round_aux.
  destruct (shr_fexp prec emax mx ex lx) as [mrs' e'].
  destruct (shr_fexp prec emax _ e' loc_Exact) as [mrs'' e''].
  destruct (shr_m mrs''); try done. by destruct (_ <=? _).
Qed.

(** A quotient whose magnitude stays below [2^J] is finite. *)
Lemma SFdiv_finite sx mx ex ms es J :
  -1022 ≤ J ≤ 1023 →
  Z.pos (digits2_pos mx) + ex - (Z.pos (digits2_pos ms) + es) + 1 ≤ J →
  finite_or_zero
    (SFdiv prec emax (S754_finite sx mx ex) (S754_finite false ms es)).
Proof.
  intros HJ Hmag. unfold SFdiv. rewrite xorb_false_r.
  destruct (SFdiv_core_binary_spec mx ex ms es) as (l & -> & _).
  set (mux := Z.pos (digits2_pos mx) + ex) in *.
  set (mus := Z.pos (digits2_pos ms) + es) in *.
  set (e' := Z.min (fexp prec emax (mux - mus)) (ex - es)).
  set (m' := Z.pos mx * 2 ^ (ex - es - e')).
  pose proof (pos_digits_bounds mx) as [_ Hxhi].
  pose proof (pos_digits_bounds ms) as [Hslo _].
  assert (e' ≤ J - 52) as He'.
  { unfold e', fexp, SpecFloat.emin, prec, emax. lia. }
  assert (0 ≤ ex - es - e') by (unfold e'; lia).
  assert (0 < 2 ^ (ex - es - e')) by (apply Z.pow_pos_nonneg; lia).
  assert (0 < 2 ^ (J - e')) as Hpow by (apply Z.pow_pos_nonneg; lia).
  assert (0 ≤ m') as Hm'0 by (unfold m'; nia).
  assert (m' < 2 ^ (J - e') * Z.pos ms) as Hm'.
  { assert (2 ^ (Z.pos (digits2_pos mx) + (ex - es - e'))
            ≤ 2 ^ ((J - e') + (Z.pos (digits2_pos ms) - 1))) as Hle
      by (apply Z.pow_le_mono_r; unfold mux, mus in *; lia).
    rewrite !Z.pow_add_r in Hle by lia. unfold m'. nia. }
  assert (m' / Z.pos ms < 2 ^ (J - e')) as Hq
    by (apply Z.div_lt_upper_bound; lia).
  assert (0 ≤ m' / Z.pos ms) as Hq0 by (apply Z.div_pos; lia).
  assert (4503599627370496 * 2 ^ (J - 52 - e') = 2 ^ (J - e')) as HB.
  { change 4503599627370496 with (2 ^ 52). rewrite <- Z.pow_add_r by lia.
    f_equal. lia. }
  assert (SFleb (binary_round_aux prec emax false (m' / Z.pos ms) e' l)
                (S754_finite false 4503599627370496 (J - 52)) = true)
    as Hbound.
  { assert (Zdigits2 (m' / Z.pos ms) ≤ J - e') as Hdq
      by (apply Zdigits2_le_pow; lia).
    apply binary_round_aux_le;
      unfold fexp, SpecFloat.emin, prec, emax; (done || lia). }
  rewrite binary_round_aux_sign.
  destruct (binary_round_aux_shape prec emax false (m' / Z.pos ms) e' l)
    as [HR|[HR|[HR|(m & e & HR)]]]; rewrite HR in Hbound |- *; try done.
  - left. eauto.
  - right. eauto.
Qed.

(** The conversion of a non-negative integer below [2^64]. *)
Lemma binary_normalize_small z :
  0 ≤ z < 2 ^ 64 →
  let y := binary_normalize prec emax z 0 false in
  valid_binary y = true
  ∧ (y = S754_zero false
     ∨ ∃ m e, y = S754_finite false m e ∧ Z.pos (digits2_pos m) + e ≤ 65).
Proof.
  intros Hz y. unfold y, binary_normalize.
  destruct z as [|p|p]; [by auto| |lia].
  unfold binary_round.
  set (f := fexp prec emax (Z.pos (digits2_pos p) + 0)).
  destruct (shl_align_spec p 0 f) as [Hez Hmz].
  destruct (shl_align p 0 f) as [mz ez]. simpl in Hez, Hmz. subst ez.
  assert (Zdigits2 (Z.pos p) ≤ 64) as Hd by (apply Zdigits2_le_pow; lia).
  pose proof (Zdigits2_pos (Z.pos p) ltac:(lia)) as Hd1.
  assert (Zdigits2 (Z.pos mz) + Z.min 0 f = Zdigits2 (Z.pos p)) as Hmag.
  { rewrite Hmz, Zdigits2_mul_pow2 by lia. lia. }
  destruct (binary_round_aux_mag prec emax false (Z.pos mz) (Z.min 0 f)
              loc_Exact) as (m & e & Hmu & He & ->);
    [done|lia|rewrite Hmag; unfold SpecFloat.emin, prec, emax; lia|].
  rewrite Hmag in Hmu. simpl Zdigits2 in *.
  assert (e = fexp prec emax (Z.pos (digits2_pos m) + e)) as Hcanon.
  { rewrite He at 1.
    pose proof (fexp_mono prec emax (Z.pos (digits2_pos p) + 0)
                  (Z.pos (digits2_pos m) + e) ltac:(lia)).
    fold f in H. lia. }
  assert (e ≤ emax - prec) as Hb.
  { rewrite Hcanon. unfold fexp, SpecFloat.emin, prec, emax. lia. }
  destruct (Z.leb_spec e (emax - prec)); [|lia].
  split.
  - simpl. unfold bounded, canonical_mantissa.
    apply andb_true_iff. split; [apply Z.eqb_eq; lia|apply Z.leb_le; lia].
  - right. exists m, e. split; [done|lia].
Qed.

Lemma binary_round_aux_nonneg mx ex lx :
  nonneg_or_nan (binary_round_aux prec emax false mx ex lx).
Proof.
  destruct (binary_round_aux_shape prec emax false mx ex lx)
    as [->|[->|[->|(m & e & ->)]]]; unfold nonneg_or_nan, nonneg; eauto 6.
Qed.

Lemma SFmul_square_nonneg x : nonneg_or_nan (SFmul prec emax x x).
Proof.
  destruct x as [s|s| |s m e]; simpl.
  - left. left. eauto.
  - left. right. right. by destruct s.
  - by right.
  - replace (xorb s s) with false by (by destruct s).
    apply binary_round_aux_nonneg.
Qed.

Lemma SFadd_nonneg a b :
  nonneg_or_nan a → nonneg_or_nan b → nonneg_or_nan (SFadd prec emax a b).
Proof.
  intros [[[sa ->]|[(ma & ea & ->)| ->]]| ->]
         [[[sb ->]|[(mb & eb & ->)| ->]]| ->]; simpl;
    try (by right); try (left; unfold nonneg; by eauto 6).
  - left. left. destruct sa, sb; eauto.
  - unfold binary_normalize, binary_round.
    destruct (shl_align _ _ (fexp _ _ _)) as [mz ez].
    apply binary_round_aux_nonneg.
Qed.

Lemma at_least_nonneg y a : at_least y a → nonneg y.
Proof. intros [->|(m & e & -> & _)]; unfold nonneg; eauto. Qed.

(** The sum of squares is at least its last term. *)
Lemma SFadd_at_least_or_nan acc q a :
  -1074 < a → nonneg_or_nan acc → at_least q a →
  at_least (SFadd prec emax acc q) a ∨ SFadd prec emax acc q = S754_nan.
Proof.
  intros Ha [Hacc| ->] Hq; [left; by apply SFadd_at_least|by right].
Qed.

Section Quotient.

(** The last step of a rolling z-score at the level of the binary64
    operations: [x] is the deviation of the last observation, [acc] the sum
    of the squared deviations before it, [c] the converted [n - 1]. *)
Variables (x acc c s : spec_float).
Hypothesis x_valid : valid_binary x = true.
Hypothesis s_valid : valid_binary s = true.
Hypothesis acc_nonneg : nonneg_or_nan acc.
Hypothesis c_small :
  c = S754_zero false
  ∨ ∃ mc ec, c = S754_finite false mc ec ∧ Z.pos (digits2_pos mc) + ec ≤ 65.
Hypothesis s_def :
  s = SFsqrt prec emax
        (SFdiv prec emax (SFadd prec emax acc (SFmul prec emax x x)) c).
Hypothesis s_pos : SFltb (S754_zero false) s = true.

Lemma s_positive :
  s = S754_infinity false ∨ ∃ ms es, s = S754_finite false ms es.
Proof using s_pos.
  clear -s_pos. unfold SFltb in s_pos.
  destruct s as [[]|[]| |[] ms es]; simpl in s_pos; try discriminate; eauto.
Qed.

Lemma quotient_not_infinite : not_infinite (SFdiv prec emax x s).
Proof using All.
  destruct x as [sx|sx| |sx mx ex] eqn:Ex.
  - (* a zero deviation *)
    destruct s_positive as [->|(ms & es & ->)]; done.
  - (* an infinite deviation: the sum of squares is +inf or NaN *)
    assert (SFmul prec emax (S754_infinity sx) (S754_infinity sx)
            = S754_infinity false) as Hsq by (by destruct sx).
    rewrite Hsq in s_def.
    assert (s = S754_infinity false ∨ s = S754_nan) as [->| ->]; try done.
    rewrite s_def.
    destruct acc_nonneg as [[[sa ->]|[(ma & ea & ->)| ->]]| ->];
      destruct c_small as [->|(mc & ec & -> & _)]; simpl; auto.
  - done.
  - (* a finite deviation *)
    simpl in x_valid. pose proof (bounded_facts _ _ x_valid) as (Hex & Hdx & _).
    pose proof (Pos2Z.is_pos (digits2_pos mx)).
    set (mu := Z.pos (digits2_pos mx) + ex) in *.
    destruct s_positive as [->|(ms & es & Hs)]; [done|].
    rewrite Hs in s_valid. simpl in s_valid.
    pose proof (bounded_facts _ _ s_valid) as (Hes & Hds & _).
    pose proof (Pos2Z.is_pos (digits2_pos ms)).
    assert (finite_or_zero (SFdiv prec emax (S754_finite sx mx ex) s)) as Hfin.
    { rewrite Hs.
      destruct (decide (mu < -500)) as [Hsmall|Hbig].
      - apply (SFdiv_finite sx mx ex ms es 574); fold mu; lia.
      - apply (SFdiv_finite sx mx ex ms es 34); [lia|]. fold mu.
        assert (at_least s (mu - 33)) as [Hinf|(m & e & Hs' & Hmag)].
        { rewrite s_def.
          replace (mu - 33) with ((2 * mu - 1 - 65 + 1) / 2)
            by (symmetry; apply (Z.div_unique _ _ _ 1); lia).
          assert (-1074 < (2 * mu - 1 - 65 + 1) / 2).
          { replace ((2 * mu - 1 - 65 + 1) / 2) with (mu - 33)
              by (apply (Z.div_unique _ _ _ 1); lia). lia. }
          destruct (SFadd_at_least_or_nan acc
                      (SFmul prec emax (S754_finite sx mx ex)
                                       (S754_finite sx mx ex))
                      (2 * mu - 1)) as [HS|HS]; [lia|done| |..].
          - apply SFmul_square_at_least. fold mu. lia.
          - apply SFsqrt_at_least; [done|].
            apply SFdiv_at_least; [lia|done|done].
          - exfalso. rewrite s_def, HS in Hs. done. }
        + rewrite Hs in Hinf. done.
        + rewrite Hs in Hs'. injection Hs' as <- <-. lia. }
    destruct Hfin as [[? ->]|(? & ? & ? & ->)]; done.
Qed.

End Quotient.

(** * Comparisons of doubles *)

Lemma Prim2SF_zero : Prim2SF 0 = S754_zero false.
Proof. reflexivity. Qed.

Lemma SFcompare_refl_finite s m e :
  SFcompare (S754_finite s m e) (S754_finite s m e) = Some Eq.
Proof.
  simpl. rewrite Z.compare_refl.
  assert (Pos.compare_cont Eq m m = Eq) as ->.
  { fold (Pos.compare m m). apply Pos.compare_refl. }
  by destruct s.
Qed.

(** [0 < s] holds only for a positive finite number or [+inf]. *)
Lemma ltb_zero_cases (s : float) :
  (0 <? s)%float = true →
  (∃ m e, Prim2SF s = S754_finite false m e) ∨ Prim2SF s = S754_infinity false.
Proof.
  rewrite FloatAxioms.ltb_spec, Prim2SF_zero. unfold SFltb.
  destruct (Prim2SF s) as [[]|[]| |[] m e]; simpl; try discriminate; eauto.
Qed.

Lemma ltb_zero_not_nan (s : float) :
  (0 <? s)%float = true → is_nan s = false ∧ is_zero s = false.
Proof.
  intros H. unfold is_nan, is_zero. rewrite !FloatAxioms.eqb_spec. change (Prim2SF zero) with (S754_zero false).
  unfold SFeqb.
  destruct (ltb_zero_cases s H) as [(m & e & Hs)|Hs]; rewrite Hs.
  - rewrite SFcompare_refl_finite. done.
  - done.
Qed.

Lemma ltb_nan_r (a : float) : (a <? nan)%float = false.
Proof.
  rewrite FloatAxioms.ltb_spec. unfold SFltb.
  replace (Prim2SF nan) with S754_nan by reflexivity.
  by destruct (Prim2SF a).
Qed.

Lemma is_nan_spec (f : float) : is_nan f = true ↔ Prim2SF f = S754_nan.
Proof.
  unfold is_nan. rewrite FloatAxioms.eqb_spec. unfold SFeqb.
  destruct (Prim2SF f) as [[]|[]| |s m e]; try done.
  rewrite (SFcompare_refl_finite s m e). done.
Qed.

Lemma is_infinity_spec (f : float) :
  is_infinity f = true ↔ ∃ s, Prim2SF f = S754_infinity s.
Proof.
  unfold is_infinity. rewrite FloatAxioms.eqb_spec, abs_spec.
  change (Prim2SF infinity) with (S754_infinity false). unfold SFeqb.
  destruct (Prim2SF f) as [[]|[]| |[] m e]; simpl;
    split; try done; try (intros [? ?]; done); eauto.
Qed.

Lemma SFdiv_core_binary_nonneg mx ex my ey :
  0 ≤ fst (fst (SFdiv_core_binary prec emax (Z.pos mx) ex (Z.pos my) ey)).
Proof.
  unfold SFdiv_core_binary.
  set (s := _ - _ - _).
  set (m' := match s with Z.pos _ => _ | 0 => _ | Z.neg _ => _ end).
  assert (0 ≤ m') as Hm'.
  { unfold m'. destruct s; try lia. apply Z.shiftl_nonneg. lia. }
  destruct (Z.div_eucl m' (Z.pos my)) as [q r] eqn:E. simpl.
  assert (q = m' / Z.pos my) as -> by (unfold Z.div; by rewrite E).
  apply Z.div_pos; lia.
Qed.

(** The quotient by a strictly positive double is NaN only for a NaN
    numerator, or for infinity over infinity. *)
Lemma div_by_positive_nan (x s : float) :
  (0 <? s)%float = true →
  is_nan (x / s) = true ↔
  is_nan x = true ∨ (is_infinity x = true ∧ is_infinity s = true).
Proof.
  intros Hs. rewrite !is_nan_spec, !is_infinity_spec, div_spec.
  rewrite FloatAxioms.ltb_spec in Hs.
  change (Prim2SF 0) with (S754_zero false) in Hs. unfold SFltb in Hs.
  destruct (Prim2SF s) as [[]|[]| |[] ms es]; simpl in Hs; try discriminate.
  - (* s = +inf *)
    destruct (Prim2SF x) as [sx|sx| |sx mx ex]; simpl; split;
      try done; try (intros [?|[[? ?] _]]; done); eauto.
  - (* s finite and positive *)
    destruct (Prim2SF x) as [sx|sx| |sx mx ex]; simpl; split;
      try done; try (intros [?|[_ [? ?]]]; done); eauto.
    intros Hnan. exfalso. revert Hnan.
    pose proof (SFdiv_core_binary_nonneg mx ex ms es) as Hq.
    unfold SF64div. simpl.
    destruct (SFdiv_core_binary prec emax (Z.pos mx) ex (Z.pos ms) es)
      as [[mz ez] lz].
    simpl in Hq. by apply binary_round_aux_not_nan.
Qed.

(** * Rolling statistics *)

Lemma wrap_nonneg z : 0 ≤ size_t_wrap z.
Proof. unfold size_t_wrap. apply Z.mod_pos_bound. lia. Qed.

Lemma lookup_total_lookup {A} `{Inhabited A} (l : list A) (i : nat) (x : A) :
  l !! i = Some x → l !!! i = x.
Proof. apply list_lookup_total_correct. Qed.

Lemma rollingStdDev_length data window :
  length (rollingStdDev data window) = length data.
Proof.
  unfold rollingStdDev. destruct (size data <? window).
  - apply length_replicate.
  - etrans; [apply (fill_loop_length (λ _, true)
                     (λ i, standardDeviation
                             (slice data (i - window + 1) (i + 1))))|].
    apply length_replicate.
Qed.

Lemma rollingStdDev_warmup data window (i : nat) :
  (i < length data)%nat →
  size data < window ∨ Z.of_nat i < size_t_wrap (window - 1) →
  rollingStdDev data window !!! i = nan.
Proof.
  intros Hi Hshort. unfold rollingStdDev.
  destruct (Z.ltb_spec (size data) window) as [Hlt|Hge].
  - apply lookup_total_lookup. by apply lookup_replicate_2.
  - destruct Hshort as [?|Hw]; [lia|].
    apply lookup_total_lookup. rewrite loop_range_seqZ.
    etrans.
    { apply (fill_loop_lookup (λ _, true)
               (λ i, standardDeviation
                       (slice data (i - window + 1) (i + 1)))).
      apply wrap_nonneg. }
    rewrite decide_False by lia. by apply lookup_replicate_2.
Qed.

Lemma rollingZScore_length data window :
  length (rollingZScore data window) = length data.
Proof.
  unfold rollingZScore. destruct (size data <? window).
  - apply length_replicate.
  - set (means := rollingMean data window).
    set (stdDevs := rollingStdDev data window).
    etrans; [apply (fill_loop_length
                     (λ i, (0 <? stdDevs !!! Z.to_nat i)%float)
                     (λ i, ((data !!! Z.to_nat i - means !!! Z.to_nat i)
                            / stdDevs !!! Z.to_nat i)%float))|].
    apply length_replicate.
Qed.

(** Every entry of the z-score vector, in closed form: the quotient where the
    rolling standard deviation is strictly positive, NaN elsewhere. *)
Lemma rollingZScore_lookup data window (i : nat) :
  (i < length data)%nat →
  rollingZScore data window !!! i =
  if (0 <? rollingStdDev data window !!! i)%float then
    ((data !!! i - rollingMean data window !!! i)
     / rollingStdDev data window !!! i)%float
  else nan.
Proof.
  intros Hi.
  destruct (decide (size data < window ∨ Z.of_nat i < size_t_wrap (window - 1)))
    as [Hshort|Hlong].
  - rewrite (rollingStdDev_warmup data window i Hi Hshort), ltb_nan_r.
    unfold rollingZScore.
    destruct (Z.ltb_spec (size data) window) as [Hlt|Hge].
    + apply lookup_total_lookup. by apply lookup_replicate_2.
    + destruct Hshort as [?|Hw]; [lia|].
      apply lookup_total_lookup. rewrite loop_range_seqZ.
      set (means := rollingMean data window).
      set (stdDevs := rollingStdDev data window).
      etrans.
      { apply (fill_loop_lookup
                 (λ i, (0 <? stdDevs !!! Z.to_nat i)%float)
                 (λ i, ((data !!! Z.to_nat i - means !!! Z.to_nat i)
                        / stdDevs !!! Z.to_nat i)%float)).
        apply wrap_nonneg. }
      rewrite decide_False by lia. by apply lookup_replicate_2.
  - unfold rollingZScore.
    destruct (Z.ltb_spec (size data) window) as [Hlt|Hge]; [lia|].
    apply lookup_total_lookup. rewrite loop_range_seqZ.
    set (means := rollingMean data window).
    set (stdDevs := rollingStdDev data window).
    etrans.
    { apply (fill_loop_lookup
               (λ i, (0 <? stdDevs !!! Z.to_nat i)%float)
               (λ i, ((data !!! Z.to_nat i - means !!! Z.to_nat i)
                      / stdDevs !!! Z.to_nat i)%float)).
      apply wrap_nonneg. }
    rewrite length_replicate, Nat2Z.id.
    destruct (0 <? stdDevs !!! i)%float eqn:Hpos.
    + rewrite decide_True; [done|]. unfold size in *.
      pose proof (wrap_nonneg (window - 1)). split; [lia|done].
    + rewrite decide_False by (intros (_ & _ & ?); done).
      by apply lookup_replicate_2.
Qed.

(** ** The z-score is never infinite *)

Lemma rollingStdDev_lookup data window (i : nat) :
  window ≤ size data → size_t_wrap (window - 1) ≤ Z.of_nat i →
  (i < length data)%nat →
  rollingStdDev data window !!! i =
  standardDeviation (slice data (Z.of_nat i - window + 1) (Z.of_nat i + 1)).
Proof.
  intros Hw Hlo Hi. unfold rollingStdDev.
  destruct (Z.ltb_spec (size data) window) as [Hlt|Hge]; [lia|].
  apply lookup_total_lookup. rewrite loop_range_seqZ.
  etrans.
  { apply (fill_loop_lookup (λ _, true)
             (λ i, standardDeviation (slice data (i - window + 1) (i + 1)))).
    apply wrap_nonneg. }
  rewrite length_replicate. unfold size in *. rewrite decide_True; [done|].
  pose proof (wrap_nonneg (window - 1)). split; [lia|done].
Qed.

Lemma rollingMean_lookup data window (i : nat) :
  window ≤ size data → size_t_wrap (window - 1) ≤ Z.of_nat i →
  (i < length data)%nat →
  rollingMean data window !!! i =
  (window_sum data window (Z.of_nat i) / double_of_Z window)%float.
Proof.
  intros Hw Hlo Hi. unfold rollingMean.
  destruct (Z.ltb_spec (size data) window) as [Hlt|Hge]; [lia|].
  apply lookup_total_lookup. rewrite loop_range_seqZ.
  etrans.
  { apply (fill_loop_lookup (λ _, true)
             (λ i, (window_sum data window i / double_of_Z window)%float)).
    apply wrap_nonneg. }
  rewrite length_replicate. unfold size in *. rewrite decide_True; [done|].
  pose proof (wrap_nonneg (window - 1)). split; [lia|done].
Qed.

Lemma fold_left_fmap {A B C} (f : A → B → A) (g : C → B) (l : list C) a :
  fold_left (λ acc j, f acc (g j)) l a = fold_left f (g <$> l) a.
Proof. revert a. induction l as [|j l IH]; intros a; simpl; [done|apply IH]. Qed.

(** The window copied by [rollingStdDev] holds the observations that
    [rollingMean] adds up. *)
Lemma slice_indices (data : list float) (lo n : Z) :
  0 ≤ lo → 0 ≤ n → lo + n ≤ size data →
  (λ j, data !!! Z.to_nat j) <$> seqZ lo n = slice data lo (lo + n).
Proof.
  intros Hlo Hn Hhi. unfold slice, size in *.
  replace (lo + n - lo) with n by lia.
  apply list_eq. intros k. rewrite list_lookup_fmap.
  destruct (decide (Z.of_nat k < n)) as [Hk|Hk].
  - rewrite lookup_seqZ_lt by lia. simpl.
    rewrite lookup_take_lt by lia. rewrite lookup_drop.
    replace (Z.to_nat (lo + Z.of_nat k)) with (Z.to_nat lo + k)%nat by lia.
    symmetry. apply list_lookup_lookup_total_lt. lia.
  - rewrite lookup_seqZ_ge by lia. simpl.
    symmetry. apply lookup_take_ge. lia.
Qed.

Lemma window_sum_slice data window (i : Z) :
  0 ≤ i - window + 1 → 0 ≤ window → i + 1 ≤ size data →
  window_sum data window i =
  fold_left (λ acc v, acc + v)%float
            (slice data (i - window + 1) (i + 1)) 0%float.
Proof.
  intros Hlo Hw Hhi. unfold window_sum, loop_range.
  rewrite (fold_left_fmap (λ acc v, acc + v)%float
             (λ j, data !!! Z.to_nat j)).
  replace (i + 1 - (i - window + 1)) with window by lia.
  rewrite slice_indices by lia. do 2 f_equal. lia.
Qed.

Lemma slice_length data lo hi :
  0 ≤ lo → lo ≤ hi → hi ≤ size data → size (slice data lo hi) = hi - lo.
Proof.
  intros Hlo Hle Hhi. unfold slice, size in *.
  rewrite length_take, length_drop. lia.
Qed.

Lemma slice_last data lo (i : nat) :
  0 ≤ lo → lo ≤ Z.of_nat i → (i < length data)%nat →
  ∃ init, slice data lo (Z.of_nat i + 1) = init ++ [data !!! i].
Proof.
  intros Hlo Hle Hi. unfold slice.
  replace (Z.to_nat (Z.of_nat i + 1 - lo)) with (S (i - Z.to_nat lo)) by lia.
  eexists. apply take_S_r. rewrite lookup_drop.
  replace (Z.to_nat lo + (i - Z.to_nat lo))%nat with i by lia.
  by apply list_lookup_lookup_total_lt.
Qed.

(** The running sum of squared deviations is never negative. *)
Lemma squared_diff_fold_nonneg (avg : float) (l : list float) (acc : float) :
  nonneg_or_nan (Prim2SF acc) →
  nonneg_or_nan
    (Prim2SF (fold_left (λ acc value, let diff := value - avg in
                                      acc + diff * diff)%float l acc)).
Proof.
  revert acc. induction l as [|v l IH]; intros acc Hacc; simpl; [done|].
  apply IH. rewrite add_spec, mul_spec.
  apply SFadd_nonneg; [done|apply SFmul_square_nonneg].
Qed.

Lemma Prim2SF_double_of_Z z :
  0 ≤ z < 2 ^ 64 →
  Prim2SF (double_of_Z z) = S754_zero false
  ∨ ∃ m e, Prim2SF (double_of_Z z) = S754_finite false m e
           ∧ Z.pos (digits2_pos m) + e ≤ 65.
Proof.
  intros Hz. destruct (binary_normalize_small z Hz) as [Hvalid Hshape].
  unfold double_of_Z. by rewrite Prim2SF_SF2Prim.
Qed.

(** The deviation of the last observation of a sample, divided by the
    sample's standard deviation, is never infinite. *)
Lemma standardDeviation_last_quotient (init : list float) (v : float) :
  let sample := init ++ [v] in
  let s := standardDeviation sample in
  (0 <? s)%float = true →
  is_infinity ((v - mean sample) / s) = false.
Proof.
  intros sample s Hpos.
  destruct (is_infinity _) eqn:Hinf; [exfalso|done].
  apply is_infinity_spec in Hinf as [sg Hinf].
  rewrite div_spec in Hinf.
  pose proof (quotient_not_infinite
                (Prim2SF (v - mean sample))
                (Prim2SF (fold_left
                            (λ acc value, let diff := value - mean sample in
                                          acc + diff * diff)%float init 0%float))
                (Prim2SF (double_of_Z (size_t_wrap (size sample - 1))))
                (Prim2SF s)) as Hq.
  unfold SF64div in Hinf. rewrite Hinf in Hq. apply Hq; clear Hq Hinf.
  - apply Prim2SF_valid.
  - apply Prim2SF_valid.
  - by apply squared_diff_fold_nonneg; left; left; exists false.
  - apply Prim2SF_double_of_Z. unfold size_t_wrap.
    apply Z.mod_pos_bound. lia.
  - unfold s, standardDeviation in *.
    destruct (size sample <? 2); [by rewrite ltb_nan_r in Hpos|].
    rewrite sqrt_spec, div_spec.
    set (avg := mean sample). unfold sample.
    rewrite fold_left_app. simpl. by rewrite add_spec, mul_spec.
  - by rewrite FloatAxioms.ltb_spec in Hpos.
Qed.

(** No entry of the z-score vector is infinite. *)
Lemma rollingZScore_not_infinite data window (i : nat) :
  0 ≤ window < 2 ^ 64 → (i < length data)%nat →
  is_infinity (rollingZScore data window !!! i) = false.
Proof.
  intros Hw Hi. rewrite (rollingZScore_lookup data window i Hi).
  destruct (0 <? rollingStdDev data window !!! i)%float eqn:Hpos; [|done].
  destruct (decide (size data < window ∨ Z.of_nat i < size_t_wrap (window - 1)))
    as [Hshort|Hlong].
  { by rewrite (rollingStdDev_warmup data window i Hi Hshort), ltb_nan_r
      in Hpos. }
  assert (window ≤ size data) as Hsize by lia.
  assert (size_t_wrap (window - 1) ≤ Z.of_nat i) as Hlo by lia.
  rewrite (rollingStdDev_lookup data window i Hsize Hlo Hi) in Hpos |- *.
  rewrite (rollingMean_lookup data window i Hsize Hlo Hi).
  destruct (decide (window = 0)) as [->|Hw0].
  { replace (Z.of_nat i - 0 + 1) with (Z.of_nat i + 1) in Hpos by lia.
    unfold slice in Hpos. rewrite Z.sub_diag in Hpos.
    change (take (Z.to_nat 0) ?l) with (@nil float) in Hpos.
    change (standardDeviation []) with nan in Hpos.
    by rewrite ltb_nan_r in Hpos. }
  assert (size_t_wrap (window - 1) = window - 1) as Hwrap
    by (unfold size_t_wrap; apply Z.mod_small; lia).
  rewrite Hwrap in Hlo. unfold size in Hsize.
  rewrite window_sum_slice by (unfold size; lia).
  set (lo := Z.of_nat i - window + 1) in *.
  destruct (slice_last data lo i) as [init Hslice]; [lia|lia|done|].
  assert (double_of_Z window
          = double_of_Z (size (slice data lo (Z.of_nat i + 1)))) as ->.
  { f_equal. rewrite slice_length; unfold size; lia. }
  assert (mean (slice data lo (Z.of_nat i + 1))
          = (fold_left (λ acc v, acc + v) (slice data lo (Z.of_nat i + 1)) 0
             / double_of_Z (size (slice data lo (Z.of_nat i + 1))))%float)
    as <-.
  { rewrite Hslice. unfold mean. by destruct init. }
  rewrite Hslice in Hpos |- *.
  by apply standardDeviation_last_quotient.
Qed.

(** * The simulation loop *)

Lemma foldM_invariant {S A} (P : S → Prop) (f : S → A → option S)
    (l : list A) (s : S) :
  (∀ s a, a ∈ l → P s → ∃ s', f s a = Some s' ∧ P s') →
  P s → ∃ s', foldM f l s = Some s' ∧ P s'.
Proof.
  revert s; induction l as [|a l IH]; intros s Hstep Hs; simpl.
  - eauto.
  - destruct (Hstep s a) as (s1 & -> & Hs1); [left|done|]. simpl.
    apply IH; [|done]. intros s2 b Hb. apply Hstep. by right.
Qed.

Lemma executionDayOf_bounds n delayed day :
  0 ≤ day < n →
  day ≤ executionDayOf n delayed day < n
  ∧ (delayed = true → day + 1 < n → executionDayOf n delayed day = day + 1).
Proof.
  intros Hday. unfold executionDayOf.
  destruct delayed; simpl; [|lia].
  destruct (Z.ltb_spec (day + 1) n); lia.
Qed.

Lemma executionDayOf_mono n delayed day day' :
  day ≤ day' < n →
  executionDayOf n delayed day ≤ executionDayOf n delayed day'.
Proof.
  intros Hday. unfold executionDayOf.
  destruct delayed; simpl; [|lia].
  destruct (Z.ltb_spec (day + 1) n), (Z.ltb_spec (day' + 1) n); lia.
Qed.

Lemma closePosition_values priceA priceB executionDay s :
  portfolioValues_ (engine (closePosition priceA priceB executionDay s))
  = portfolioValues_ (engine s).
Proof. done. Qed.

Lemma openPosition_values pair priceA priceB executionDay signal s :
  portfolioValues_ (engine (openPosition pair priceA priceB executionDay signal s))
  = portfolioValues_ (engine s).
Proof. done. Qed.

(** Closing a position only touches cash, the trade log and the counters:
    the entry stays in [positions_]. *)
Lemma closePosition_positions priceA priceB executionDay s :
  positions_ (engine (closePosition priceA priceB executionDay s))
  = positions_ (engine s).
Proof. done. Qed.

Lemma dayStep_untouched pair signals n delayed s day first :
  0 ≤ first ≤ executionDayOf n delayed day →
  0 ≤ day < n →
  n ≤ size (pricesA_ pair) → n ≤ size (pricesB_ pair) →
  untouched_below n first (engine s) →
  ∃ s', dayStep pair signals n delayed s day = Some s'
        ∧ untouched_below n first (engine s').
Proof.
  intros Hfirst Hday HA HB [Hlen Hzero].
  pose proof (executionDayOf_bounds n delayed day Hday) as [Hexec _].
  unfold dayStep.
  set (signal := if day <? size signals then signals !!! Z.to_nat day else 0).
  set (executionDay := executionDayOf n delayed day) in *.
  destruct (lookup_lt_is_Some_2 (pricesA_ pair) (Z.to_nat executionDay))
    as [priceA HpA]; [unfold size in *; lia|].
  destruct (lookup_lt_is_Some_2 (pricesB_ pair) (Z.to_nat executionDay))
    as [priceB HpB]; [unfold size in *; lia|].
  rewrite HpA, HpB.
  assert (∀ s1, portfolioValues_ (engine s1) = portfolioValues_ (engine s) →
                untouched_below n first
                  (set_portfolioValues (engine s1)
                     (<[Z.to_nat executionDay :=
                          calculatePortfolioValue (engine s1) executionDay]>
                        (portfolioValues_ (engine s1))))) as Hwrite.
  { intros s1 Hs1. unfold untouched_below. simpl. rewrite Hs1. split.
    - unfold size in *. by rewrite length_insert.
    - intros i Hi. rewrite list_lookup_insert_ne by lia. by apply Hzero. }
  destruct (signal =? currentPosition s);
    [|destruct (currentPosition s =? 0); destruct (signal =? 0)];
    cbn [mbind option_bind];
    (eexists; split; [reflexivity|]; by apply Hwrite).
Qed.

(** A day of the loop never removes an entry of [positions_]: the list after
    the day extends the list before it. *)
Lemma dayStep_positions_grow pair signals n delayed s day s' :
  dayStep pair signals n delayed s day = Some s' →
  positions_ (engine s) `prefix_of` positions_ (engine s').
Proof.
  unfold dayStep.
  set (executionDay := executionDayOf n delayed day).
  set (signal := if day <? size signals then signals !!! Z.to_nat day else 0).
  destruct (pricesA_ pair !! Z.to_nat executionDay) as [priceA|];
    destruct (pricesB_ pair !! Z.to_nat executionDay) as [priceB|];
    destruct (signal =? currentPosition s);
    destruct (currentPosition s =? 0); destruct (signal =? 0);
    cbn [mbind option_bind]; intros [= <-]; simpl;
    first [ done | by apply prefix_app_r ].
Qed.

Lemma elem_of_loop_range lo hi day :
  day ∈ loop_range lo hi ↔ lo ≤ day < hi.
Proof. unfold loop_range. rewrite elem_of_seqZ. lia. Qed.

Lemma runPair_untouched e x lw n delayed bt pair :
  0 ≤ lw →
  n ≤ size (pricesA_ pair) → n ≤ size (pricesB_ pair) →
  untouched_below n (executionDayOf n delayed lw) bt →
  ∃ s', runPair e x lw n delayed bt pair = Some s'
        ∧ untouched_below n (executionDayOf n delayed lw) (engine s').
Proof.
  intros Hlw HA HB Hbt. unfold runPair.
  apply (foldM_invariant
           (λ s, untouched_below n (executionDayOf n delayed lw) (engine s)));
    [|done].
  intros s day Hday Hs. apply elem_of_loop_range in Hday.
  apply dayStep_untouched; try done; try lia.
  split.
  - unfold executionDayOf. destruct (delayed && (lw + 1 <? n)); lia.
  - apply executionDayOf_mono. lia.
Qed.

Lemma runPairs_untouched e x lw n delayed bt :
  0 ≤ lw →
  Forall (λ pair, n ≤ size (pricesA_ pair) ∧ n ≤ size (pricesB_ pair))
         (pairs_ bt) →
  untouched_below n (executionDayOf n delayed lw) bt →
  ∃ bt', runPairs e x lw n delayed bt = Some bt'
         ∧ untouched_below n (executionDayOf n delayed lw) bt'.
Proof.
  intros Hlw Hcover Hbt. unfold runPairs.
  apply (foldM_invariant
           (λ b, untouched_below n (executionDayOf n delayed lw) b)); [|done].
  intros b pair Hpair Hb.
  rewrite Forall_forall in Hcover. destruct (Hcover pair Hpair) as [HA HB].
  destruct (runPair_untouched e x lw n delayed b pair Hlw HA HB Hb)
    as (s' & -> & Hs'). simpl. eauto.
Qed.

Lemma calculateMetrics_values pow bt :
  portfolioValues_ (calculateMetrics pow bt) = portfolioValues_ bt.
Proof.
  unfold calculateMetrics. destruct (portfolioValues_ bt) eqn:E; [done|].
  by destruct (fold_left _ (tradeHistory_ bt) _).
Qed.

Lemma newAssetPair_sizes symbolA symbolB pricesA pricesB n :
  n ≤ size pricesA → n ≤ size pricesB →
  n ≤ size (pricesA_ (newAssetPair symbolA symbolB pricesA pricesB))
  ∧ n ≤ size (pricesB_ (newAssetPair symbolA symbolB pricesA pricesB)).
Proof.
  intros HA HB. unfold newAssetPair, calculateSpreads, size in *. simpl.
  destruct (Z.of_nat (length pricesA) =? Z.of_nat (length pricesB)); [done|].
  rewrite !length_resize. lia.
Qed.

Lemma newBacktester_covers md : pairs_cover_dataset (newBacktester md).
Proof. constructor. Qed.

Lemma addPair_covers bt symbolA symbolB :
  market_aligned (marketData_ bt) →
  pairs_cover_dataset bt → pairs_cover_dataset (addPair bt symbolA symbolB).
Proof.
  intros Hmd Hbt. unfold addPair.
  destruct (getPriceSeries _ symbolA) as [pricesA|] eqn:EA; [|done].
  destruct (getPriceSeries _ symbolB) as [pricesB|] eqn:EB; [|done].
  destruct (snd (testCointegration _ _)); [|done].
  unfold pairs_cover_dataset in *. simpl.
  apply Forall_app. split; [done|]. constructor; [|constructor].
  apply newAssetPair_sizes; by eapply Hmd.
Qed.

(** * Drawdown *)





Lemma calculateMetrics_maxDrawdown pow bt :
  portfolioValues_ bt ≠ [] →
  maxDrawdown (metrics_ (calculateMetrics pow bt))
  = snd (drawdown_loop (portfolioValues_ bt)).
Proof.
  intros Hne. unfold calculateMetrics.
  destruct (portfolioValues_ bt) eqn:E; [done|].
  by destruct (fold_left _ (tradeHistory_ bt) _).
Qed.


Lemma SFcompare_not_lt_flip ma ea mb eb :
  SFltb (S754_finite false ma ea) (S754_finite false mb eb) = false →
  SFcompare (S754_finite false mb eb) (S754_finite false ma ea) ≠ Some Gt.
Proof.
  unfold SFltb. simpl.
  destruct (Z.compare_spec ea eb) as [->|Hlt|Hgt].
  - rewrite Z.compare_refl. fold (Pos.compare ma mb) (Pos.compare mb ma).
    rewrite (Pos.compare_antisym ma mb). by destruct (ma ?= mb)%positive.
  - done.
  - intros _. destruct (Z.compare_spec eb ea); (done || lia).
Qed.







(** * The claims of the specification *)

Lemma reverting_engine_pairs : pairs_ reverting_engine = [reverting_pair].
Proof. by vm_compute. Qed.

(** Claim C1 (the code departs from it).  The claim: [calculatePortfolioValue]
    is cash plus the mark of the open positions only, closed positions
    contribute nothing.  On the 24-day reverting market (capital 1000, entry
    1.1, exit 0, window 3, T+1 fills) the only trade is opened on day 9 and
    closed on day 10.  At the end of the day loop nothing is held
    ([currentPosition] is 0 and the local position is cleared), yet the closed
    trade is still in [positions_], and the value of day 23 is cash plus the
    closed trade's legs at the prices of day 23, not cash. *)
Theorem closed_position_still_counted :
  ∃ s,
    runPair 1.1 0 3 24 true reverting_start reverting_pair = Some s
    ∧ currentPosition s = 0
    ∧ position s = emptyPosition
    ∧ tradeHistory_ (engine s) = [(10, (-0.93663324087902566)%float)]
    ∧ positions_ (engine s)
      = [{| symbolA := "A"; symbolB := "B";
            quantityA := (-0.23255813953488372)%float;
            quantityB := 0.45871559633027525;
            entryPriceA := 215; entryPriceB := 109;
            entryDay := 9; direction := -1 |}]
    ∧ cash_ (engine s) = 999.06336675912098%float
    ∧ calculatePortfolioValue (engine s) 23 = 998.04352464262854%float
    ∧ portfolioValues_ (engine s) !! 23%nat = Some 998.04352464262854%float.
Proof. eexists. split; [by vm_compute|]. repeat split; by vm_compute. Qed.

(** Claim C2.  On every day with a defined (non-NaN) z-score,
    [generateSignals] moves as the three-state machine of the specification:
    with [s] the state held on entry to day [i], the signal of the day and
    the state held afterwards are both [machine_step s z] (from flat: short
    when z > entry, long when z < -entry, else flat; from long: flat when
    z >= -exit, else long; from short: flat when z <= exit, else short). *)
Theorem generateSignals_three_state_machine p e x w (i : nat) (z : float) :
  getZScores p w !! i = Some z →
  is_nan z = false →
  ∃ s, heldBefore p e x w (Z.of_nat i) = direction_of s
       ∧ generateSignals p e x w !! i
         = Some (direction_of (machine_step e x s z))
       ∧ heldBefore p e x w (Z.of_nat (S i))
         = direction_of (machine_step e x s z).
Proof.
  intros Hz Hnan. destruct (signal_day p e x w i z Hz) as (s & H1 & H2 & H3).
  exists s. unfold machine_day in *. rewrite Hnan in *. done.
Qed.

Lemma generateSignals_three_state_machine_witness :
  ∃ s, heldBefore plateau_pair 1.1 0 3 (Z.of_nat 2) = direction_of s
       ∧ generateSignals plateau_pair 1.1 0 3 !! 2%nat
         = Some (direction_of
                   (machine_step 1.1 0 s (getZScores plateau_pair 3 !!! 2%nat)))
       ∧ heldBefore plateau_pair 1.1 0 3 (Z.of_nat 3)
         = direction_of
             (machine_step 1.1 0 s (getZScores plateau_pair 3 !!! 2%nat)).
Proof.
  apply (generateSignals_three_state_machine plateau_pair 1.1 0 3 2
           (getZScores plateau_pair 3 !!! 2%nat)); by vm_compute.
Defined.

(** Claim C3.  A day whose z-score is NaN emits the flat signal and leaves
    the held direction as it was; after any run of NaN days starting at [i],
    the next day [j] with a defined z-score is decided by [machine_step] from
    the state held on entry to day [i] (so a held long or short position is
    tested against its exit rule, not against the entry rules). *)
Theorem generateSignals_nan_day p e x w (i : nat) (z : float) :
  getZScores p w !! i = Some z →
  is_nan z = true →
  generateSignals p e x w !! i = Some 0
  ∧ heldBefore p e x w (Z.of_nat (S i)) = heldBefore p e x w (Z.of_nat i)
  ∧ ∀ (j : nat) (z' : float),
      (i < j)%nat →
      (∀ k, (i ≤ k < j)%nat →
            ∃ zk, getZScores p w !! k = Some zk ∧ is_nan zk = true) →
      getZScores p w !! j = Some z' →
      is_nan z' = false →
      ∃ s, heldBefore p e x w (Z.of_nat i) = direction_of s
           ∧ generateSignals p e x w !! j
             = Some (direction_of (machine_step e x s z')).
Proof.
  intros Hz Hnan.
  destruct (signal_day p e x w i z Hz) as (s & H1 & H2 & H3).
  unfold machine_day in H2, H3. rewrite Hnan in H2, H3. simpl in *.
  split; [done|]. split; [congruence|].
  intros j z' Hij Hrun Hz' Hdef.
  destruct (signal_day p e x w j z' Hz') as (s' & H1' & H2' & _).
  unfold machine_day in H2'. rewrite Hdef in H2'. simpl in H2'.
  rewrite (held_through_nan p e x w i j) in H1' by (lia || done).
  exists s'. done.
Qed.

Lemma generateSignals_nan_day_witness :
  generateSignals plateau_pair 1.1 0 3 !! 4%nat = Some 0
  ∧ heldBefore plateau_pair 1.1 0 3 (Z.of_nat 5)
    = heldBefore plateau_pair 1.1 0 3 (Z.of_nat 4)
  ∧ ∀ (j : nat) (z' : float),
      (4 < j)%nat →
      (∀ k, (4 ≤ k < j)%nat →
            ∃ zk, getZScores plateau_pair 3 !! k = Some zk
                  ∧ is_nan zk = true) →
      getZScores plateau_pair 3 !! j = Some z' →
      is_nan z' = false →
      ∃ s, heldBefore plateau_pair 1.1 0 3 (Z.of_nat 4) = direction_of s
           ∧ generateSignals plateau_pair 1.1 0 3 !! j
             = Some (direction_of (machine_step 1.1 0 s z')).
Proof.
  apply (generateSignals_nan_day plateau_pair 1.1 0 3 4
           (getZScores plateau_pair 3 !!! 4%nat)); by vm_compute.
Defined.

(** On the plateau pair the position is short when the NaN day 4 arrives;
    day 5 (z = -1.15) is an exit to flat, where the entry rules from flat
    would have answered long. *)
Lemma plateau_signals :
  generateSignals plateau_pair 1.1 0 3 = [0; 0; -1; -1; 0; 0]
  ∧ heldBefore plateau_pair 1.1 0 3 4 = -1
  ∧ heldBefore plateau_pair 1.1 0 3 5 = -1
  ∧ direction_of
      (machine_step 1.1 0 Flat (getZScores plateau_pair 3 !!! 5%nat)) = 1.
Proof. repeat split; by vm_compute. Qed.

(** Claim C4.  Two consecutive signals that are both non-flat are equal: a
    change of direction passes through a flat day. *)
Theorem generateSignals_no_direct_flip p e x w (i : nat) (a b : Z) :
  generateSignals p e x w !! i = Some a →
  generateSignals p e x w !! S i = Some b →
  a ≠ 0 → b ≠ 0 → a = b.
Proof.
  intros Ha Hb Ha0 Hb0.
  assert (Hlen : length (generateSignals p e x w) = length (getZScores p w)).
  { rewrite generateSignals_run. apply machine_run_length. }
  destruct (lookup_lt_is_Some_2 (getZScores p w) i) as [z Hz].
  { apply lookup_lt_Some in Ha. lia. }
  destruct (lookup_lt_is_Some_2 (getZScores p w) (S i)) as [z' Hz'].
  { apply lookup_lt_Some in Hb. lia. }
  destruct (signal_day p e x w i z Hz) as (s & _ & H2 & H3).
  destruct (signal_day p e x w (S i) z' Hz') as (s' & H1' & H2' & _).
  rewrite H3 in H1'. apply direction_of_inj in H1'. subst s'.
  rewrite Ha in H2. rewrite Hb in H2'.
  injection H2 as ->. injection H2' as ->.
  destruct (machine_day_emits e x s z Ha0) as [Hemit _].
  destruct (machine_day_emits e x _ z' Hb0) as [Hemit' Hkeep].
  rewrite Hemit', Hkeep; [done|].
  intros Hflat. rewrite Hflat in Hemit. done.
Qed.

Lemma generateSignals_no_direct_flip_witness : (-1 : Z) = -1.
Proof.
  apply (generateSignals_no_direct_flip plateau_pair 1.1 0 3 2 (-1) (-1));
    by vm_compute.
Defined.

(** Claim C5, as stated, fails on an overflowing window: the data are
    finite, the history is sufficient, the rolling standard deviation is
    strictly positive (it is +inf), and the z-score is NaN. *)
Lemma rollingZScore_overflow_nan :
  let data := [1e308; 1e308]%float in
  Forall (λ v, is_finite v = true) data
  ∧ 2 ≤ size data ∧ size_t_wrap (2 - 1) ≤ 1
  ∧ rollingStdDev data 2 !!! 1%nat = infinity
  ∧ (0 <? rollingStdDev data 2 !!! 1%nat)%float = true
  ∧ is_nan (rollingZScore data 2 !!! 1%nat) = true.
Proof. cbv zeta. split; [by repeat constructor|]. repeat split; by vm_compute. Qed.

(** Claim C5 (amended).  The z-score vector is as long as the data.  An
    entry is NaN wherever the history is insufficient (input shorter than the
    window, or warm-up index) and wherever the rolling standard deviation is
    not strictly positive.  Where it is strictly positive the entry is the
    quotient (value - rolling mean) / rolling std, and that denominator is
    neither NaN nor zero.  An entry is NaN exactly when the rolling standard
    deviation is not strictly positive (which covers insufficient history),
    or the deviation value - rolling mean is NaN, or the deviation and the
    standard deviation are both infinite.  No entry is plus or minus
    infinity, whatever the data (the window being a [size_t]). *)
Theorem rollingZScore_entries (data : list float) (window : Z) (i : nat) :
  (i < length data)%nat →
  let stdDev := rollingStdDev data window !!! i in
  let deviation := (data !!! i - rollingMean data window !!! i)%float in
  let z := rollingZScore data window !!! i in
  length (rollingZScore data window) = length data
  ∧ (size data < window ∨ Z.of_nat i < size_t_wrap (window - 1) →
     is_nan stdDev = true ∧ is_nan z = true)
  ∧ ((0 <? stdDev)%float = false → is_nan z = true)
  ∧ ((0 <? stdDev)%float = true →
     is_nan stdDev = false ∧ is_zero stdDev = false
     ∧ z = (deviation / stdDev)%float)
  ∧ (is_nan z = true ↔
     (0 <? stdDev)%float = false
     ∨ is_nan deviation = true
     ∨ (is_infinity deviation = true ∧ is_infinity stdDev = true))
  ∧ (0 ≤ window < 2 ^ 64 → is_infinity z = false).
Proof.
  intros Hi stdDev deviation z. subst stdDev deviation z.
  split; [apply rollingZScore_length|].
  split; [|split; [|split; [|split]]];
    [..|intros Hw; by apply rollingZScore_not_infinite];
    rewrite (rollingZScore_lookup data window i Hi).
  - intros Hshort.
    rewrite (rollingStdDev_warmup data window i Hi Hshort), ltb_nan_r. done.
  - intros ->. done.
  - intros Hpos. rewrite Hpos.
    destruct (ltb_zero_not_nan _ Hpos). done.
  - destruct (0 <? rollingStdDev data window !!! i)%float eqn:Hpos.
    + rewrite (div_by_positive_nan _ _ Hpos). split; [by right|].
      intros [?|?]; done.
    + split; [by left|done].
Qed.

Lemma rollingZScore_entries_witness :
  let data := [1; 2; 4; 8]%float in
  let stdDev := rollingStdDev data 3 !!! 2%nat in
  let deviation := (data !!! 2%nat - rollingMean data 3 !!! 2%nat)%float in
  let z := rollingZScore data 3 !!! 2%nat in
  length (rollingZScore data 3) = length data
  ∧ (size data < 3 ∨ Z.of_nat 2 < size_t_wrap (3 - 1) →
     is_nan stdDev = true ∧ is_nan z = true)
  ∧ ((0 <? stdDev)%float = false → is_nan z = true)
  ∧ ((0 <? stdDev)%float = true →
     is_nan stdDev = false ∧ is_zero stdDev = false
     ∧ z = (deviation / stdDev)%float)
  ∧ (is_nan z = true ↔
     (0 <? stdDev)%float = false
     ∨ is_nan deviation = true
     ∨ (is_infinity deviation = true ∧ is_infinity stdDev = true))
  ∧ (0 ≤ 3 < 2 ^ 64 → is_infinity z = false).
Proof. apply (rollingZScore_entries [1; 2; 4; 8]%float 3 2). simpl. lia. Defined.

(** Claim C6.  With fewer than 20 observations [adfTest] returns the fixed
    result: statistic 0, p-value 1, not stationary. *)
Theorem adfTest_short (timeSeries : list float) (maxLags : Z) :
  (length timeSeries < 20)%nat →
  adfTest timeSeries maxLags =
  {| testStatistic := 0; pValue := 1; isStationary := false |}.
Proof.
  intros Hlen. unfold adfTest, size.
  destruct (Z.ltb_spec (Z.of_nat (length timeSeries)) 20); [done|lia].
Qed.

Lemma adfTest_short_witness :
  adfTest [1; 2; 3]%float 1 =
  {| testStatistic := 0; pValue := 1; isStationary := false |}.
Proof. apply (adfTest_short [1; 2; 3]%float 1). simpl. lia. Defined.




(** On that series the drawdown is (120 - 90) / 120. *)
Lemma maxDrawdown_example :
  maxDrawdown
    (metrics_
       (calculateMetrics (λ _ _, nan)
          (set_portfolioValues reverting_start [100; 80; 120; 90]%float)))
  = 0.25%float.
Proof. by vm_compute. Qed.

(** Claim C8.  [testCointegration] is idempotent: a second call on the pair
    left by the first one gives the same beta, the same spreads and the same
    verdict (the same pair altogether).  Doubles are compared as values, a
    NaN beta being the same as itself. *)
Theorem testCointegration_idempotent (p : AssetPair) (level level' : float) :
  let first := testCointegration p level in
  let second := testCointegration (fst first) level' in
  beta_ (fst second) = beta_ (fst first)
  ∧ spreads_ (fst second) = spreads_ (fst first)
  ∧ snd second = snd first
  ∧ second = first.
Proof.
  assert (testCointegration (fst (testCointegration p level)) level'
          = testCointegration p level) as Heq.
  { unfold testCointegration. cbn [fst snd].
    set (b := Utilities.beta (linearRegression (pricesB_ p) (pricesA_ p))).
    set (q := calculateSpreads (set_beta p b)).
    set (v := isStationary (adfTest (spreads_ q) 1)).
    assert (pricesA_ q = pricesA_ p ∧ pricesB_ q = pricesB_ p)
      as (HA & HB) by done.
    cbn [pricesA_ pricesB_ set_isCointegrated set_beta isCointegrated_].
    rewrite HA, HB. fold b.
    change {| symbolA_ := symbolA_ q; symbolB_ := symbolB_ q;
              pricesA_ := pricesA_ p; pricesB_ := pricesB_ p;
              spreads_ := spreads_ q; beta_ := b; isCointegrated_ := v |}
      with (set_beta (set_isCointegrated q v) b).
    set (q2 := set_beta (set_isCointegrated q v) b).
    assert (spreads_ (calculateSpreads q2) = spreads_ q) as Hs.
    { apply (calculateSpreads_ext q2 (set_beta p b)); done. }
    rewrite (calculateSpreads_fields q2), Hs.
    cbn [spreads_ set_isCointegrated set_spreads]. fold v.
    reflexivity. }
  cbv zeta. rewrite Heq. done.
Qed.

(** Claim C9.  With a lookback window below the number [n] of days,
    [runBacktest] returns with a value series of length [n] whose entries
    before the window are exactly 0.0, and so is the entry at the window
    itself under T+1 execution when [lookbackWindow + 1 < n]. *)
Theorem runBacktest_leading_zeros (pow : float → float → float)
    (bt : Backtester) (initialCapital entryThreshold exitThreshold : float)
    (lookbackWindow : Z) (delayedExecution : bool) :
  let n := getDataSize (marketData_ bt) in
  0 ≤ lookbackWindow < n →
  pairs_cover_dataset bt →
  ∃ bt',
    runBacktest pow bt initialCapital entryThreshold exitThreshold
                lookbackWindow delayedExecution = Some bt'
    ∧ size (portfolioValues_ bt') = n
    ∧ (∀ i : nat, Z.of_nat i < lookbackWindow →
                  portfolioValues_ bt' !! i = Some 0%float)
    ∧ (delayedExecution = true → lookbackWindow + 1 < n →
       portfolioValues_ bt' !! Z.to_nat lookbackWindow = Some 0%float).
Proof.
  intros n Hlw Hcover. unfold runBacktest. cbn [marketData_ resetState].
  fold n. destruct (Z.eqb_spec n 0) as [?|Hn]; [lia|].
  set (bt1 := set_portfolioValues _ _).
  destruct (runPairs_untouched entryThreshold exitThreshold lookbackWindow n
              delayedExecution bt1) as (bt2 & -> & Hlen & Hzero).
  - lia.
  - exact Hcover.
  - unfold untouched_below, bt1. simpl. rewrite resize_nil. split.
    + unfold size. rewrite length_replicate. lia.
    + intros i Hi. apply lookup_replicate_2.
      assert (executionDayOf n delayedExecution lookbackWindow < n); [|lia].
      apply executionDayOf_bounds. lia.
  - simpl. eexists; split; [done|]. rewrite calculateMetrics_values.
    split; [done|]. split.
    + intros i Hi. apply Hzero.
      pose proof (executionDayOf_bounds n delayedExecution lookbackWindow Hlw).
      lia.
    + intros -> Hn1. apply Hzero. rewrite Z2Nat.id by lia.
      destruct (executionDayOf_bounds n true lookbackWindow Hlw) as [_ ->];
        (done || lia).
Qed.

(** The value series does not depend on [pow]; any function stands for it
    here. *)
Lemma runBacktest_leading_zeros_witness :
  ∃ bt',
    runBacktest (λ _ _, nan) reverting_engine 1000 1.1 0 3 true = Some bt'
    ∧ size (portfolioValues_ bt') = 24
    ∧ (∀ i : nat, Z.of_nat i < 3 →
                  portfolioValues_ bt' !! i = Some 0%float)
    ∧ (true = true → 3 + 1 < 24 →
       portfolioValues_ bt' !! Z.to_nat 3 = Some 0%float).
Proof.
  apply (runBacktest_leading_zeros (λ _ _, nan) reverting_engine
           1000 1.1 0 3 true).
  - by vm_compute.
  - unfold pairs_cover_dataset. rewrite reverting_engine_pairs.
    repeat constructor; by vm_compute.
Defined.



(** The statistic and the verdict do follow the data. *)
Lemma adfTest_verdict_varies :
  isStationary (adfTest (spreads_ reverting_pair) 1) = true
  ∧ isStationary (adfTest trend_B 1) = false.
Proof. split; by vm_compute. Qed.

(** * Further properties of the code *)

Lemma fold_left_pointwise {A B} (f g : A → B → A) (l : list B) (a : A) :
  (∀ a b, f a b = g a b) → fold_left f l a = fold_left g l a.
Proof.
  intros Hfg. revert a. induction l as [|b l IH]; intros a; simpl; [done|].
  by rewrite Hfg, IH.
Qed.

(** A loop [for (i = 1; i < n + 1; ++i) v[i-1] = value(i)]. *)
Lemma shifted_fill_lookup {A} (value : Z → A) (n : nat) (init : list A)
    (j : nat) :
  fold_left (λ acc i, <[Z.to_nat (i - 1) := value i]> acc)
            (seqZ 1 (Z.of_nat n)) init !! j =
  if decide (j < n ∧ j < length init)%nat
  then Some (value (Z.of_nat j + 1)) else init !! j.
Proof.
  replace (seqZ 1 (Z.of_nat n)) with (Z.add 1 <$> seqZ 0 (Z.of_nat n))
    by (by rewrite fmap_add_seqZ).
  rewrite <- (fold_left_fmap (λ acc i, <[Z.to_nat (i - 1) := value i]> acc)).
  rewrite (fold_left_pointwise _ (fill_body (λ _, true) (λ i, value (i + 1)))).
  2:{ intros acc i. unfold fill_body. do 2 f_equal; lia. }
  rewrite fill_loop_lookup by lia.
  destruct (decide (j < n ∧ j < length init)%nat).
  - rewrite decide_True; [done|]. lia.
  - rewrite decide_False; [done|]. lia.
Qed.

Lemma shifted_fill_length {A} (value : Z → A) (idx : list Z) (init : list A) :
  length (fold_left (λ acc i, <[Z.to_nat (i - 1) := value i]> acc) idx init)
  = length init.
Proof.
  revert init. induction idx as [|i idx IH]; intros init; simpl; [done|].
  by rewrite IH, length_insert.
Qed.

(** Property X1.  [calculateReturns] gives no return for fewer than two
    prices; otherwise it gives one return per consecutive pair of prices,
    the ratio of the later to the earlier price minus one. *)
Theorem calculateReturns_entries (prices : list float) :
  length (calculateReturns prices) = (length prices - 1)%nat
  ∧ ∀ i : nat, (S i < length prices)%nat →
      calculateReturns prices !! i
      = Some (prices !!! S i / prices !!! i - 1)%float.
Proof.
  unfold calculateReturns, size.
  destruct (Z.ltb_spec (Z.of_nat (length prices)) 2) as [Hshort|Hlong].
  - split; [simpl; lia|]. intros i Hi. lia.
  - split.
    + rewrite shifted_fill_length, length_replicate. lia.
    + intros i Hi. rewrite loop_range_seqZ, shifted_fill_lookup.
      rewrite length_replicate.
      rewrite decide_True by lia.
      do 4 f_equal; lia.
Qed.

Lemma rollingMean_length data window :
  length (rollingMean data window) = length data.
Proof.
  unfold rollingMean. destruct (size data <? window).
  - apply length_replicate.
  - etrans; [apply (fill_loop_length (λ _, true)
                     (λ i, (window_sum data window i
                            / double_of_Z window)%float))|].
    apply length_replicate.
Qed.

Lemma rollingMean_warmup data window (i : nat) :
  (i < length data)%nat →
  size data < window ∨ Z.of_nat i < size_t_wrap (window - 1) →
  rollingMean data window !!! i = nan.
Proof.
  intros Hi Hshort. unfold rollingMean.
  destruct (Z.ltb_spec (size data) window) as [Hlt|Hge].
  - apply lookup_total_lookup. by apply lookup_replicate_2.
  - destruct Hshort as [?|Hw]; [lia|].
    apply lookup_total_lookup. rewrite loop_range_seqZ.
    etrans.
    { apply (fill_loop_lookup (λ _, true)
               (λ i, (window_sum data window i / double_of_Z window)%float)).
      apply wrap_nonneg. }
    rewrite decide_False by lia. by apply lookup_replicate_2.
Qed.

Lemma wrap_small z : 0 ≤ z < 2 ^ 64 → size_t_wrap z = z.
Proof. intros Hz. unfold size_t_wrap. by apply Z.mod_small. Qed.

Lemma wrap_minus_one : size_t_wrap (0 - 1) = 2 ^ 64 - 1.
Proof. reflexivity. Qed.

(** The mean of the window that ends at [i]. *)
Lemma rollingMean_mean data window (i : nat) :
  1 ≤ window ≤ size data → window < 2 ^ 64 → window - 1 ≤ Z.of_nat i →
  (i < length data)%nat →
  rollingMean data window !!! i
  = mean (slice data (Z.of_nat i - window + 1) (Z.of_nat i + 1)).
Proof.
  intros Hw Hw64 Hlo Hi.
  rewrite rollingMean_lookup; [|lia|rewrite wrap_small; lia|done].
  rewrite window_sum_slice by (unfold size; lia).
  set (lo := Z.of_nat i - window + 1).
  destruct (slice_last data lo i) as [init Hslice]; [lia|lia|done|].
  assert (size (slice data lo (Z.of_nat i + 1)) = window) as Hsize.
  { rewrite slice_length; unfold size; lia. }
  assert (double_of_Z window
          = double_of_Z (size (slice data lo (Z.of_nat i + 1)))) as ->
    by (by rewrite Hsize).
  rewrite Hslice. unfold mean. by destruct init.
Qed.

Lemma rolling_empty_window data (i : nat) :
  (i < length data)%nat →
  is_nan (rollingMean data 0 !!! i) = true
  ∧ is_nan (rollingStdDev data 0 !!! i) = true.
Proof.
  intros Hi.
  destruct (decide (Z.of_nat i < size_t_wrap (0 - 1))) as [Hlt|Hge].
  - rewrite rollingMean_warmup, rollingStdDev_warmup; auto.
  - assert (0 ≤ size data) by (unfold size; lia).
    rewrite rollingMean_lookup, rollingStdDev_lookup; try (done || lia).
    replace (Z.of_nat i - 0 + 1) with (Z.of_nat i + 1) by lia.
    unfold window_sum, loop_range, slice. rewrite Z.sub_diag.
    rewrite seqZ_nil by lia.
    change (take (Z.to_nat 0) ?l) with (@nil float). by vm_compute.
Qed.

(** Property X2.  For a window in the range of [size_t], [rollingMean] and
    [rollingStdDev] return vectors as long as the data; the entry at [i] is
    NaN when the window is 0, exceeds the data or reaches before the first
    observation, and otherwise it is the mean, respectively the sample
    standard deviation, of the [window] observations that end at [i]. *)
Theorem rolling_statistics_of_window (data : list float) (window : Z)
    (i : nat) :
  0 ≤ window < 2 ^ 64 → (i < length data)%nat →
  let sample := slice data (Z.of_nat i - window + 1) (Z.of_nat i + 1) in
  length (rollingMean data window) = length data
  ∧ length (rollingStdDev data window) = length data
  ∧ (window = 0 ∨ size data < window ∨ Z.of_nat i < window - 1 →
     is_nan (rollingMean data window !!! i) = true
     ∧ is_nan (rollingStdDev data window !!! i) = true)
  ∧ (1 ≤ window ≤ size data → window - 1 ≤ Z.of_nat i →
     size sample = window
     ∧ rollingMean data window !!! i = mean sample
     ∧ rollingStdDev data window !!! i = standardDeviation sample).
Proof.
  intros Hw Hi sample.
  split; [apply rollingMean_length|]. split; [apply rollingStdDev_length|].
  split.
  - intros [->|Hshort]; [by apply rolling_empty_window|].
    destruct (decide (window = 0)) as [->|Hw0]; [by apply rolling_empty_window|].
    rewrite rollingMean_warmup, rollingStdDev_warmup; try done;
      rewrite wrap_small by lia; lia.
  - intros Hsize Hlo. split; [|split].
    + unfold sample. rewrite slice_length; unfold size in *; lia.
    + apply rollingMean_mean; (done || lia).
    + apply rollingStdDev_lookup; [lia| |done]. rewrite wrap_small; lia.
Qed.

Lemma rolling_statistics_of_window_witness :
  let data := [1; 2; 4; 8]%float in
  let sample := slice data (Z.of_nat 2 - 3 + 1) (Z.of_nat 2 + 1) in
  length (rollingMean data 3) = length data
  ∧ length (rollingStdDev data 3) = length data
  ∧ (3 = 0 ∨ size data < 3 ∨ Z.of_nat 2 < 3 - 1 →
     is_nan (rollingMean data 3 !!! 2%nat) = true
     ∧ is_nan (rollingStdDev data 3 !!! 2%nat) = true)
  ∧ (1 ≤ 3 ≤ size data → 3 - 1 ≤ Z.of_nat 2 →
     size sample = 3
     ∧ rollingMean data 3 !!! 2%nat = mean sample
     ∧ rollingStdDev data 3 !!! 2%nat = standardDeviation sample).
Proof.
  apply (rolling_statistics_of_window [1; 2; 4; 8]%float 3 2); [lia|simpl; lia].
Defined.

(** Property X3.  With a window of 0 or 1 every entry of [rollingStdDev] is
    NaN (a one-point sample has no standard deviation), hence every z-score
    is NaN. *)
Theorem rolling_degenerate_window (data : list float) (window : Z) (i : nat) :
  0 ≤ window ≤ 1 → (i < length data)%nat →
  is_nan (rollingStdDev data window !!! i) = true
  ∧ is_nan (rollingZScore data window !!! i) = true.
Proof.
  intros Hw Hi.
  assert (is_nan (rollingStdDev data window !!! i) = true) as Hstd.
  { destruct (decide (window = 0)) as [->|Hw0];
      [by apply rolling_empty_window|].
    assert (window = 1) as -> by lia.
    destruct (decide (size data < 1)) as [Hshort|Hlong].
    { rewrite rollingStdDev_warmup; auto. }
    rewrite rollingStdDev_lookup; [|lia|rewrite wrap_small; lia|done].
    destruct (slice_last data (Z.of_nat i - 1 + 1) i) as [init Hslice];
      [lia|lia|done|].
    assert (size (slice data (Z.of_nat i - 1 + 1) (Z.of_nat i + 1)) = 1)
      as Hsize by (rewrite slice_length; unfold size in *; lia).
    unfold standardDeviation. rewrite Hsize. done. }
  split; [done|].
  rewrite rollingZScore_lookup by done.
  apply is_nan_spec in Hstd.
  destruct (0 <? _)%float eqn:Hpos; [|done].
  rewrite FloatAxioms.ltb_spec, Hstd in Hpos. done.
Qed.

Lemma rolling_degenerate_window_witness :
  is_nan (rollingStdDev [1; 2; 4]%float 1 !!! 2%nat) = true
  ∧ is_nan (rollingZScore [1; 2; 4]%float 1 !!! 2%nat) = true.
Proof.
  apply (rolling_degenerate_window [1; 2; 4]%float 1 2); [lia|simpl; lia].
Defined.

Lemma SFdiv_nonneg a c :
  nonneg_or_nan a →
  (c = S754_zero false ∨ ∃ mc ec, c = S754_finite false mc ec) →
  nonneg_or_nan (SFdiv prec emax a c).
Proof.
  intros [[[sa ->]|[(ma & ea & ->)| ->]]| ->] [->|(mc & ec & ->)]; simpl;
    try (by right); try (left; unfold nonneg; by eauto 6).
  destruct (SFdiv_core_binary _ _ _ _ _ _) as [[mz ez] lz].
  apply binary_round_aux_nonneg.
Qed.

Lemma SFsqrt_nonneg a : nonneg_or_nan a → nonneg_or_nan (SFsqrt prec emax a).
Proof.
  intros [[[sa ->]|[(ma & ea & ->)| ->]]| ->]; simpl;
    try (by right); try (left; unfold nonneg; by eauto 6).
  destruct (SFsqrt_core_binary _ _ _ _) as [[mz ez] lz].
  apply binary_round_aux_nonneg.
Qed.

Lemma nonneg_or_nan_not_negative a :
  nonneg_or_nan a → SFltb a (S754_zero false) = false.
Proof.
  by intros [[[[] ->]|[(ma & ea & ->)| ->]]| ->].
Qed.

Lemma Prim2SF_double_of_wrap z :
  Prim2SF (double_of_Z (size_t_wrap z)) = S754_zero false
  ∨ ∃ m e, Prim2SF (double_of_Z (size_t_wrap z)) = S754_finite false m e.
Proof.
  destruct (Prim2SF_double_of_Z (size_t_wrap z)) as [H|(m & e & H & _)].
  - unfold size_t_wrap. apply Z.mod_pos_bound. lia.
  - by left.
  - right. eauto.
Qed.

Lemma standardDeviation_nonneg data :
  nonneg_or_nan (Prim2SF (standardDeviation data)).
Proof.
  unfold standardDeviation. destruct (size data <? 2); [by right|].
  rewrite sqrt_spec, div_spec.
  apply SFsqrt_nonneg, SFdiv_nonneg; [|apply Prim2SF_double_of_wrap].
  apply squared_diff_fold_nonneg. left. left. by exists false.
Qed.

(** Property X4.  [standardDeviation] is NaN for fewer than two values and
    is never negative: it is NaN, zero, positive or +inf; the same holds for
    every entry of [rollingStdDev]. *)
Theorem standardDeviation_not_negative (data : list float) (window : Z)
    (i : nat) :
  ((length data < 2)%nat → is_nan (standardDeviation data) = true)
  ∧ (standardDeviation data <? 0)%float = false
  ∧ ∀ v, rollingStdDev data window !! i = Some v → (v <? 0)%float = false.
Proof.
  split; [|split].
  - intros Hlen. unfold standardDeviation, size.
    destruct (Z.ltb_spec (Z.of_nat (length data)) 2); [done|lia].
  - rewrite FloatAxioms.ltb_spec.
    apply nonneg_or_nan_not_negative, standardDeviation_nonneg.
  - intros v Hv.
    assert (i < length data)%nat as Hi.
    { rewrite <- (rollingStdDev_length data window). by eapply lookup_lt_Some. }
    apply list_lookup_total_correct in Hv. subst v.
    rewrite FloatAxioms.ltb_spec. apply nonneg_or_nan_not_negative.
    destruct (decide (size data < window
                      ∨ Z.of_nat i < size_t_wrap (window - 1))) as [Hs|Hl].
    + rewrite rollingStdDev_warmup by done. by right.
    + rewrite rollingStdDev_lookup by (done || lia).
      apply standardDeviation_nonneg.
Qed.

(** ** The least-squares regression *)

Lemma regression_loop_residuals x y alpha beta ybar idx st :
  fst (fst (fold_left (regression_loop_body x y alpha beta ybar) idx st))
  = fold_left
      (fill_body (λ _, true)
         (λ i, (y !!! Z.to_nat i - (alpha + beta * x !!! Z.to_nat i))%float))
      idx (fst (fst st)).
Proof.
  revert st. induction idx as [|i idx IH]; intros [[res tot] rsd]; [done|].
  simpl. by rewrite IH.
Qed.

Lemma regression_loop_ss_residual x y alpha beta ybar idx st :
  nonneg_or_nan (Prim2SF (snd st)) →
  nonneg_or_nan
    (Prim2SF (snd (fold_left (regression_loop_body x y alpha beta ybar) idx st))).
Proof.
  revert st. induction idx as [|i idx IH]; intros [[res tot] rsd] Hst; [done|].
  simpl. apply IH. simpl. rewrite add_spec, mul_spec.
  apply SFadd_nonneg; [done|apply SFmul_square_nonneg].
Qed.

(** [linearRegression] in terms of its second loop. *)
Lemma linearRegression_unfold x y :
  linearRegression x y =
  if negb (size x =? size y) || (size x =? 0) then
    {| alpha := 0; beta := 0; rsquared := 0; residuals := [] |}
  else
    let s := regression_sums x y in
    let n := double_of_Z (size x) in
    let denominator := (n * sum_xx s - sum_x s * sum_x s)%float in
    if (denominator =? 0)%float then
      {| alpha := 0; beta := 0; rsquared := 0; residuals := [] |}
    else
      let beta := ((n * sum_xy s - sum_x s * sum_y s) / denominator)%float in
      let alpha := ((sum_y s - beta * sum_x s) / n)%float in
      let st :=
        fold_left (regression_loop_body x y alpha beta (sum_y s / n)%float)
                  (loop_range 0 (size x)) (filled (length x) 0%float, 0%float, 0%float) in
      {| alpha := alpha; beta := beta;
         rsquared :=
           if (0 <? snd (fst st))%float
           then (1 - snd st / snd (fst st))%float else 0%float;
         residuals := fst (fst st) |}.
Proof.
  unfold linearRegression.
  destruct (negb _ || _); [done|]. cbv zeta.
  destruct (_ =? 0)%float; [done|].
  set (s := regression_sums x y). set (n := double_of_Z (size x)).
  set (b := ((n * sum_xy s - sum_x s * sum_y s)
             / (n * sum_xx s - sum_x s * sum_x s))%float).
  set (a := ((sum_y s - b * sum_x s) / n)%float).
  rewrite (fold_left_pointwise _
             (regression_loop_body x y a b (sum_y s / n)%float))
    by (by intros [[? ?] ?] ?).
  by destruct (fold_left _ _ _) as [[res tot] rsd].
Qed.

Lemma SFcompare_not_gt_flip ma ea mb eb :
  SFcompare (S754_finite false ma ea) (S754_finite false mb eb) ≠ Some Gt →
  SFltb (S754_finite false mb eb) (S754_finite false ma ea) = false.
Proof.
  unfold SFltb. simpl.
  destruct (Z.compare_spec ea eb) as [->|Hlt|Hgt].
  - rewrite Z.compare_refl. fold (Pos.compare ma mb) (Pos.compare mb ma).
    rewrite (Pos.compare_antisym ma mb). by destruct (ma ?= mb)%positive.
  - intros _. destruct (Z.compare_spec eb ea); (done || lia).
  - done.
Qed.

Lemma binary_normalize_nonpos z e :
  z ≤ 0 →
  let R := binary_normalize prec emax z e false in
  R = S754_zero false ∨ R = S754_zero true ∨ R = S754_infinity true
  ∨ ∃ m e', R = S754_finite true m e'.
Proof.
  intros Hz. destruct z as [|p|p]; [by left|lia|]. simpl.
  unfold binary_round. destruct (shl_align _ _ _) as [mz ez].
  destruct (binary_round_aux_shape prec emax true (Z.pos mz) ez loc_Exact)
    as [->|[->|[HR|(m & e' & ->)]]]; eauto 6.
  by apply binary_round_aux_not_nan in HR.
Qed.

(** [b - q] for positive [b] and [q] never exceeds [b]. *)
Lemma SFsub_positive_le mb eb mq eq :
  bounded prec emax mb eb = true → bounded prec emax mq eq = true →
  SFltb (S754_finite false mb eb)
        (SFsub prec emax (S754_finite false mb eb) (S754_finite false mq eq))
  = false.
Proof.
  intros Hb Hq.
  destruct (SFltb (S754_finite false mb eb) (S754_finite false mq eq)) eqn:Hlt.
  - (* b < q: the difference is not positive *)
    assert (SFcompare (S754_finite false mb eb) (S754_finite false mq eq)
            ≠ Some Gt) as Hle.
    { unfold SFltb in Hlt. intros Hc. by rewrite Hc in Hlt. }
    destruct (finite_order_value mb eb mq eq Hb Hq Hle) as [He Hval].
    unfold SFsub. cbn [cond_Zopp].
    replace (Z.min eb eq) with eb by lia.
    destruct (shl_align_spec mb eb eb) as [_ ->].
    destruct (shl_align_spec mq eq eb) as [_ ->].
    replace (Z.min eb eb) with eb by lia.
    replace (Z.min eq eb) with eb by lia.
    rewrite Z.sub_diag, Z.mul_1_r.
    destruct (binary_normalize_nonpos (Z.pos mb - Z.pos mq * 2 ^ (eq - eb)) eb)
      as [->|[->|[->|(m & e' & ->)]]]; (done || lia).
  - (* q <= b *)
    pose proof (SFcompare_not_lt_flip _ _ _ _ Hlt) as Hle.
    destruct (SFsub_le mb eb mq eq Hb Hq Hle) as [->|(m & e & -> & Hc)];
      [done|].
    by apply SFcompare_not_gt_flip.
Qed.

(** [1 - q] for a quotient [q] that is not negative. *)
Lemma one_minus_quotient_le_one (q : float) :
  nonneg_or_nan (Prim2SF q) → (1 <? 1 - q)%float = false.
Proof.
  intros Hq. rewrite FloatAxioms.ltb_spec, sub_spec, Prim2SF_one.
  pose proof (Prim2SF_valid q) as Hvalid.
  destruct Hq as [[[s Hz]|[(m & e & Hf)|Hinf]]|Hnan].
  - rewrite Hz. done.
  - rewrite Hf in *. by apply SFsub_positive_le.
  - rewrite Hinf. done.
  - rewrite Hnan. done.
Qed.

Lemma SFdiv_nonneg_positive a c :
  nonneg_or_nan a →
  (c = S754_infinity false ∨ ∃ mc ec, c = S754_finite false mc ec) →
  nonneg_or_nan (SFdiv prec emax a c).
Proof.
  intros Ha [->|Hc]; [|apply SFdiv_nonneg; auto].
  destruct Ha as [[[sa ->]|[(ma & ea & ->)| ->]]| ->]; simpl;
    try (by right); left; left; eauto.
Qed.

(** Property X5.  [linearRegression] returns the all-zero result with no
    residuals when the inputs differ in length or are empty (and when the
    denominator of the slope is zero); otherwise it returns one residual per
    observation, [y[i] - (alpha + beta * x[i])]. *)
Theorem linearRegression_residuals (x y : list float) :
  let r := linearRegression x y in
  (length x ≠ length y ∨ x = [] →
   r = {| alpha := 0; beta := 0; rsquared := 0; residuals := [] |})
  ∧ (r = {| alpha := 0; beta := 0; rsquared := 0; residuals := [] |}
     ∨ length (residuals r) = length x
       ∧ ∀ i : nat, (i < length x)%nat →
           residuals r !! i
           = Some (y !!! i - (alpha r + beta r * x !!! i))%float).
Proof.
  cbv zeta. rewrite linearRegression_unfold. unfold size. split.
  - intros Hbad.
    destruct (Z.eqb_spec (Z.of_nat (length x)) (Z.of_nat (length y)));
      [|done].
    destruct (Z.eqb_spec (Z.of_nat (length x)) 0); [done|].
    destruct Hbad as [?| ->]; [lia|done].
  - destruct (negb _ || _); [by left|]. cbv zeta.
    destruct (_ =? 0)%float; [by left|]. right. simpl.
    rewrite regression_loop_residuals. simpl. split.
    + rewrite fill_loop_length. apply length_replicate.
    + intros i Hi. rewrite loop_range_seqZ, fill_loop_lookup by lia.
      rewrite length_replicate, Nat2Z.id.
      rewrite decide_True by lia. done.
Qed.

(** Property X6.  The coefficient of determination that [linearRegression]
    reports is never greater than 1 (it can be NaN or negative). *)
Theorem linearRegression_rsquared_le_one (x y : list float) :
  (1 <? rsquared (linearRegression x y))%float = false.
Proof.
  rewrite linearRegression_unfold.
  destruct (negb _ || _); [done|]. cbv zeta.
  destruct (_ =? 0)%float; [done|]. simpl.
  set (st := fold_left _ _ _).
  destruct (0 <? snd (fst st))%float eqn:Hpos; [|done].
  apply one_minus_quotient_le_one. rewrite div_spec.
  apply SFdiv_nonneg_positive.
  - apply regression_loop_ss_residual. left. left. by exists false.
  - destruct (ltb_zero_cases _ Hpos) as [(m & e & H)|H]; eauto.
Qed.

(** ** The pair: constructor, z-scores and signals *)

Lemma calculateSpreads_length p :
  length (spreads_ (calculateSpreads p)) = length (pricesA_ p).
Proof.
  unfold calculateSpreads. simpl.
  etrans; [apply (fill_loop_length (λ _, true)
                   (λ i, (pricesA_ p !!! Z.to_nat i
                          - beta_ p * pricesB_ p !!! Z.to_nat i)%float))|].
  apply length_resize.
Qed.

Lemma newAssetPair_prices symbolA symbolB (pricesA pricesB : list float) :
  let n := (length pricesA `min` length pricesB)%nat in
  pricesA_ (newAssetPair symbolA symbolB pricesA pricesB) = take n pricesA
  ∧ pricesB_ (newAssetPair symbolA symbolB pricesA pricesB) = take n pricesB.
Proof.
  unfold newAssetPair, calculateSpreads, size. simpl.
  destruct (Z.eqb_spec (Z.of_nat (length pricesA)) (Z.of_nat (length pricesB)))
    as [Heq|Hne].
  - rewrite !take_ge by lia. done.
  - rewrite !resize_le by lia. done.
Qed.

(** Property X7.  The constructor of [AssetPair] cuts both price series to
    the shorter length and fills the spread with [A[i] - 1 * B[i]]: the three
    vectors end with the same length, and the pair starts with beta 1 and
    not cointegrated. *)
Theorem newAssetPair_truncates (symbolA symbolB : string)
    (pricesA pricesB : list float) :
  let p := newAssetPair symbolA symbolB pricesA pricesB in
  let n := (length pricesA `min` length pricesB)%nat in
  symbolA_ p = symbolA ∧ symbolB_ p = symbolB
  ∧ pricesA_ p = take n pricesA ∧ pricesB_ p = take n pricesB
  ∧ beta_ p = 1%float ∧ isCointegrated_ p = false
  ∧ length (spreads_ p) = n
  ∧ ∀ i : nat, (i < n)%nat →
      spreads_ p !! i = Some (pricesA !!! i - 1 * pricesB !!! i)%float.
Proof.
  intros p n.
  destruct (newAssetPair_prices symbolA symbolB pricesA pricesB) as [HA HB].
  fold p n in HA, HB.
  assert (length (pricesA_ p) = n) as Hlen.
  { rewrite HA, length_take. unfold n. lia. }
  repeat split; try done.
  - unfold p, newAssetPair. rewrite calculateSpreads_length. exact Hlen.
  - intros i Hi. unfold p, newAssetPair.
    rewrite calculateSpreads_lookup. fold p.
    change (pricesA_ _) with (pricesA_ p). change (pricesB_ _) with (pricesB_ p).
    rewrite decide_True by lia. rewrite HA, HB.
    rewrite !lookup_total_take, !decide_True by lia. done.
Qed.

Lemma getZScores_length p w :
  length (getZScores p w) = length (spreads_ p).
Proof. unfold getZScores. apply rollingZScore_length. Qed.

Lemma machine_day_signal e x s z :
  fst (machine_day e x s z) = -1 ∨ fst (machine_day e x s z) = 0
  ∨ fst (machine_day e x s z) = 1.
Proof.
  unfold machine_day. destruct (is_nan z); simpl; [auto|].
  destruct (machine_step e x s z); simpl; auto.
Qed.

Lemma generateSignals_values p e x w :
  Forall (λ signal, signal = -1 ∨ signal = 0 ∨ signal = 1)
         (generateSignals p e x w).
Proof.
  apply Forall_lookup. intros i signal Hi. rewrite generateSignals_run in Hi.
  assert (i < length (getZScores p w))%nat as Hlt.
  { apply lookup_lt_Some in Hi. by rewrite machine_run_length in Hi. }
  destruct (lookup_lt_is_Some_2 _ _ Hlt) as [z Hz].
  rewrite (machine_run_lookup _ _ _ _ _ _ Hz) in Hi.
  injection Hi as <-. apply machine_day_signal.
Qed.

(** Property X8.  [getZScores] and [generateSignals] return one entry per
    spread, whatever the window (also when the window is replaced by half
    the series length), and every signal is -1, 0 or 1. *)
Theorem generateSignals_shape (p : AssetPair)
    (entryThreshold exitThreshold : float) (lookbackWindow : Z) :
  length (getZScores p lookbackWindow) = length (spreads_ p)
  ∧ length (generateSignals p entryThreshold exitThreshold lookbackWindow)
    = length (spreads_ p)
  ∧ ∀ (i : nat) (signal : Z),
      generateSignals p entryThreshold exitThreshold lookbackWindow !! i
      = Some signal →
      signal = -1 ∨ signal = 0 ∨ signal = 1.
Proof.
  split; [apply getZScores_length|]. split.
  - rewrite generateSignals_run, machine_run_length. apply getZScores_length.
  - apply Forall_lookup, generateSignals_values.
Qed.

(** The z-score is NaN in the warm-up region and for a degenerate window. *)
Lemma rollingZScore_warmup data window (i : nat) :
  0 ≤ window < 2 ^ 64 → (i < length data)%nat →
  window ≤ 1 ∨ size data < window ∨ Z.of_nat i < window - 1 →
  is_nan (rollingStdDev data window !!! i) = true
  ∧ is_nan (rollingZScore data window !!! i) = true.
Proof.
  intros Hw Hi Hcase.
  assert (is_nan (rollingStdDev data window !!! i) = true) as Hstd.
  { destruct (decide (window = 0)) as [->|Hw0];
      [by apply rolling_empty_window|].
    destruct (decide (size data < window ∨ Z.of_nat i < window - 1))
      as [Hshort|Hlong].
    { rewrite rollingStdDev_warmup; [done|done|].
      rewrite wrap_small by lia. done. }
    assert (window = 1) as -> by lia.
    rewrite rollingStdDev_lookup; [|lia|rewrite wrap_small; lia|done].
    assert (size (slice data (Z.of_nat i - 1 + 1) (Z.of_nat i + 1)) = 1)
      as Hsize by (rewrite slice_length; unfold size in *; lia).
    unfold standardDeviation. rewrite Hsize. done. }
  split; [done|].
  rewrite rollingZScore_lookup by done.
  apply is_nan_spec in Hstd.
  destruct (0 <? _)%float eqn:Hpos; [|done].
  rewrite FloatAxioms.ltb_spec, Hstd in Hpos. done.
Qed.

(** Property X9.  No signal is given before the window is full: with the
    window that [getZScores] uses (the requested one, or half the series
    length, at least 2, when the request is not below the series length),
    the signals of the first [window - 1] days are 0, and all signals are 0
    when that window is 0 or 1. *)
Theorem generateSignals_warmup (p : AssetPair)
    (entryThreshold exitThreshold : float) (lookbackWindow : Z) (i : nat) :
  0 ≤ lookbackWindow < 2 ^ 64 → size (spreads_ p) < 2 ^ 64 →
  (i < length (spreads_ p))%nat →
  let window :=
    if size (spreads_ p) <=? lookbackWindow
    then Z.max 2 (size (spreads_ p) / 2) else lookbackWindow in
  window ≤ 1 ∨ Z.of_nat i < window - 1 →
  generateSignals p entryThreshold exitThreshold lookbackWindow !! i = Some 0.
Proof.
  intros Hw Hsize Hi window Hcase.
  assert (getZScores p lookbackWindow = rollingZScore (spreads_ p) window)
    as Hz.
  { unfold getZScores, window.
    destruct (size (spreads_ p) <=? lookbackWindow); [|done].
    destruct (Z.ltb_spec (size (spreads_ p) / 2) 2); f_equal; lia. }
  assert (0 ≤ window < 2 ^ 64) as Hwin.
  { unfold window. destruct (size (spreads_ p) <=? lookbackWindow); [|done].
    assert (0 ≤ size (spreads_ p) / 2 ≤ size (spreads_ p)); [|lia].
    unfold size. split; [apply Z.div_pos; lia|].
    apply Z.div_le_upper_bound; lia. }
  destruct (rollingZScore_warmup (spreads_ p) window i Hwin Hi) as [_ Hnan];
    [tauto|].
  destruct (lookup_lt_is_Some_2 (getZScores p lookbackWindow) i) as [z Hzi].
  { by rewrite getZScores_length. }
  rewrite generateSignals_run, (machine_run_lookup _ _ _ _ _ _ Hzi).
  rewrite Hz in Hzi. apply lookup_total_lookup in Hzi. rewrite Hzi in Hnan.
  unfold machine_day. by rewrite Hnan.
Qed.

Lemma generateSignals_warmup_witness :
  generateSignals plateau_pair 1 0 3 !! 1%nat = Some 0.
Proof.
  apply (generateSignals_warmup plateau_pair 1 0 3 1);
    [lia|by vm_compute|vm_compute; lia|].
  right. by vm_compute.
Defined.

(** ** The cointegration test and the pairs of the engine *)

Lemma testCointegration_fields p sl :
  let q := fst (testCointegration p sl) in
  symbolA_ q = symbolA_ p ∧ symbolB_ q = symbolB_ p
  ∧ pricesA_ q = pricesA_ p ∧ pricesB_ q = pricesB_ p
  ∧ beta_ q = beta (linearRegression (pricesB_ p) (pricesA_ p))
  ∧ spreads_ q
    = spreads_ (calculateSpreads
                  (set_beta p (beta (linearRegression (pricesB_ p)
                                                      (pricesA_ p)))))
  ∧ isCointegrated_ q = snd (testCointegration p sl)
  ∧ snd (testCointegration p sl) = isStationary (adfTest (spreads_ q) 1).
Proof. by repeat split. Qed.

(** Property X10.  [testCointegration] leaves the symbols and both price
    series as they are; it sets beta to the slope of the regression of A on
    B, rewrites every spread as [A[i] - beta * B[i]] (one per price), and
    stores the verdict it returns, which is the verdict of [adfTest] on the
    new spreads. *)
Theorem testCointegration_updates (p : AssetPair) (significanceLevel : float) :
  let q := fst (testCointegration p significanceLevel) in
  symbolA_ q = symbolA_ p ∧ symbolB_ q = symbolB_ p
  ∧ pricesA_ q = pricesA_ p ∧ pricesB_ q = pricesB_ p
  ∧ beta_ q = beta (linearRegression (pricesB_ p) (pricesA_ p))
  ∧ length (spreads_ q) = length (pricesA_ p)
  ∧ (∀ i : nat, (i < length (pricesA_ p))%nat →
       spreads_ q !! i
       = Some (pricesA_ p !!! i - beta_ q * pricesB_ p !!! i)%float)
  ∧ isCointegrated_ q = snd (testCointegration p significanceLevel)
  ∧ snd (testCointegration p significanceLevel)
    = isStationary (adfTest (spreads_ q) 1).
Proof.
  intros q.
  destruct (testCointegration_fields p significanceLevel)
    as (HsA & HsB & HA & HB & Hbeta & Hspreads & Hflag & Hverdict).
  fold q in HsA, HsB, HA, HB, Hbeta, Hspreads, Hflag, Hverdict.
  repeat split; try done.
  - rewrite Hspreads, calculateSpreads_length. done.
  - intros i Hi. rewrite Hspreads, calculateSpreads_lookup, Hbeta.
    cbn [set_beta pricesA_ pricesB_ beta_]. by rewrite decide_True.
Qed.

Lemma adfTest_short_series (timeSeries : list float) (maxLags : Z) :
  (length timeSeries < 20)%nat →
  isStationary (adfTest timeSeries maxLags) = false.
Proof.
  intros Hlen. unfold adfTest, size.
  destruct (Z.ltb_spec (Z.of_nat (length timeSeries)) 20); [done|lia].
Qed.

Lemma testCointegration_short p sl :
  (length (pricesA_ p) < 20)%nat → snd (testCointegration p sl) = false.
Proof.
  intros Hlen.
  destruct (testCointegration_fields p sl) as (_ & _ & _ & _ & _ & Hs & _ & ->).
  rewrite adfTest_short_series; [done|].
  rewrite Hs, calculateSpreads_length. done.
Qed.

(** Property X11.  [addPair] leaves the engine exactly as it was when a
    symbol has no price series (unknown symbol, or data not loaded), and when
    the two series have fewer than 20 observations in common: such a pair is
    never accepted. *)
Theorem addPair_rejects (bt : Backtester) (symbolA symbolB : string) :
  (getPriceSeries (marketData_ bt) symbolA = None
   ∨ getPriceSeries (marketData_ bt) symbolB = None
   ∨ ∃ pricesA pricesB,
       getPriceSeries (marketData_ bt) symbolA = Some pricesA
       ∧ getPriceSeries (marketData_ bt) symbolB = Some pricesB
       ∧ (length pricesA `min` length pricesB < 20)%nat) →
  addPair bt symbolA symbolB = bt.
Proof.
  unfold addPair.
  intros [->|[->|(pricesA & pricesB & -> & -> & Hshort)]]; [done| |].
  - by destruct (getPriceSeries _ symbolA).
  - rewrite testCointegration_short; [done|].
    destruct (newAssetPair_prices symbolA symbolB pricesA pricesB) as [-> _].
    rewrite length_take. lia.
Qed.

Lemma addPair_rejects_witness :
  addPair (newBacktester (market_of reverting_A)) "A" "C"
  = newBacktester (market_of reverting_A).
Proof.
  apply (addPair_rejects (newBacktester (market_of reverting_A)) "A" "C").
  right. left. by vm_compute.
Defined.

(** Property X12.  [addPair] changes nothing but the list of pairs, and it
    either keeps that list or appends one pair: the pair of the two symbols,
    flagged cointegrated, with at least 20 observations and with prices and
    spreads of one length. *)
Theorem addPair_appends (bt : Backtester) (symbolA symbolB : string) :
  let bt' := addPair bt symbolA symbolB in
  marketData_ bt' = marketData_ bt ∧ positions_ bt' = positions_ bt
  ∧ portfolioValues_ bt' = portfolioValues_ bt
  ∧ tradeHistory_ bt' = tradeHistory_ bt ∧ cash_ bt' = cash_ bt
  ∧ initialCapital_ bt' = initialCapital_ bt ∧ metrics_ bt' = metrics_ bt
  ∧ (pairs_ bt' = pairs_ bt
     ∨ ∃ pair,
         pairs_ bt' = pairs_ bt ++ [pair]
         ∧ symbolA_ pair = symbolA ∧ symbolB_ pair = symbolB
         ∧ isCointegrated_ pair = true
         ∧ (20 ≤ length (pricesA_ pair))%nat
         ∧ length (pricesB_ pair) = length (pricesA_ pair)
         ∧ length (spreads_ pair) = length (pricesA_ pair)).
Proof.
  unfold addPair.
  destruct (getPriceSeries _ symbolA) as [pricesA|]; [|by auto 10].
  destruct (getPriceSeries _ symbolB) as [pricesB|]; [|by auto 10].
  destruct (newAssetPair_prices symbolA symbolB pricesA pricesB) as [HpA HpB].
  set (p := newAssetPair symbolA symbolB pricesA pricesB) in *.
  assert (symbolA_ p = symbolA ∧ symbolB_ p = symbolB) as [HnA HnB] by done.
  clearbody p.
  destruct (snd (testCointegration p 0.05)) eqn:Hverdict; [|by auto 10].
  destruct (testCointegration_fields p 0.05)
    as (HsA & HsB & HA & HB & _ & Hspreads & Hflag & _).
  assert (length (pricesA_ p) = (length pricesA `min` length pricesB)%nat)
    as HlA by (rewrite HpA, length_take; lia).
  assert (length (pricesB_ p) = (length pricesA `min` length pricesB)%nat)
    as HlB by (rewrite HpB, length_take; lia).
  cbn [marketData_ positions_ portfolioValues_ tradeHistory_ cash_
       initialCapital_ metrics_ pairs_].
  repeat split; try done. right. exists (fst (testCointegration p 0.05)).
  split; [done|]. split; [congruence|]. split; [congruence|].
  split; [by rewrite Hflag|].
  rewrite HA, HB, Hspreads, calculateSpreads_length.
  cbn [set_beta pricesA_]. rewrite HlA, HlB. repeat split; try lia.
  destruct (decide (20 ≤ length pricesA `min` length pricesB)%nat); [lia|].
  rewrite testCointegration_short in Hverdict; [done|lia].
Qed.

(** ** The books of a run *)

Lemma foldM_preserves {S A} (P : S → Prop) (f : S → A → option S)
    (l : list A) (s s' : S) :
  (∀ s a s', a ∈ l → P s → f s a = Some s' → P s') →
  P s → foldM f l s = Some s' → P s'.
Proof.
  revert s; induction l as [|a l IH]; intros s Hstep Hs; simpl.
  - by intros [= <-].
  - destruct (f s a) as [s1|] eqn:E; [|done]. simpl.
    apply IH.
    + intros s2 b s3 Hb. apply Hstep. by right.
    + eapply Hstep; [by left|done|done].
Qed.

Lemma signal_of_day_ok (signals : list Z) (day : Z) :
  Forall (λ signal, signal = -1 ∨ signal = 0 ∨ signal = 1) signals →
  let signal := if day <? size signals then signals !!! Z.to_nat day else 0 in
  signal = -1 ∨ signal = 0 ∨ signal = 1.
Proof.
  intros Hall. cbv zeta. destruct (day <? size signals); [|auto].
  destruct (signals !! Z.to_nat day) as [v|] eqn:E.
  - rewrite (lookup_total_lookup _ _ _ E).
    by apply (Forall_lookup_1 _ _ _ _ Hall E).
  - rewrite list_lookup_total_alt, E. auto.
Qed.

Lemma closePosition_books priceA priceB executionDay s n first c :
  first ≤ executionDay < n →
  currentPosition s ≠ 0 →
  books_ok n first c (engine s) (currentPosition s) →
  books_ok n first c (engine (closePosition priceA priceB executionDay s)) 0.
Proof.
  intros Hday Hheld (Htrades & Hpos & Hcount & _ & Hlen).
  destruct (Z.eqb_spec (currentPosition s) 0) as [?|_]; [done|].
  unfold books_ok, closePosition, size in *. simpl.
  rewrite length_app. simpl.
  split; [|split; [done|split; [|split; [auto|lia]]]].
  - apply Forall_app. split; [done|]. by apply Forall_singleton.
  - destruct (0 <? _)%float; lia.
Qed.

Lemma openPosition_books pair priceA priceB executionDay signal s n first c :
  first ≤ executionDay < n →
  signal = 1 ∨ signal = -1 →
  books_ok n first c (engine s) 0 →
  books_ok n first c
    (engine (openPosition pair priceA priceB executionDay signal s)) signal.
Proof.
  intros Hday Hsignal (Htrades & Hpos & Hcount & _ & Hlen).
  unfold books_ok, openPosition, size in *. simpl in *.
  rewrite length_app. simpl.
  split; [done|split; [|split; [done|split; [tauto|]]]].
  - apply Forall_app. split; [done|]. apply Forall_singleton. simpl. tauto.
  - destruct (Z.eqb_spec signal 0); lia.
Qed.

Lemma dayStep_dayTrades pair signals n delayed s day :
  let signal := if day <? size signals then signals !!! Z.to_nat day else 0 in
  let executionDay := executionDayOf n delayed day in
  dayStep pair signals n delayed s day =
  s ← dayTrades pair signal executionDay s;
  Some {| engine :=
            set_portfolioValues (engine s)
              (<[Z.to_nat executionDay :=
                   calculatePortfolioValue (engine s) executionDay]>
                 (portfolioValues_ (engine s)));
          currentPosition := currentPosition s;
          position := position s |}.
Proof. done. Qed.

Lemma dayTrades_books pair signal executionDay s s1 n first c :
  first ≤ executionDay < n →
  signal = -1 ∨ signal = 0 ∨ signal = 1 →
  dayTrades pair signal executionDay s = Some s1 →
  books_ok n first c (engine s) (currentPosition s) →
  books_ok n first c (engine s1) (currentPosition s1).
Proof.
  intros Hday Hsignal Hstep Hs. unfold dayTrades in Hstep.
  destruct (Z.eqb_spec signal (currentPosition s)) as [Heq|Hne].
  { by injection Hstep as <-. }
  destruct (pricesA_ pair !! Z.to_nat executionDay) as [priceA|];
    destruct (pricesB_ pair !! Z.to_nat executionDay) as [priceB|];
    destruct (Z.eqb_spec (currentPosition s) 0) as [Hflat|Hheld];
    destruct (Z.eqb_spec signal 0) as [Hzero|Hnonzero];
    cbn [mbind option_bind] in Hstep; try discriminate;
    injection Hstep as <-; try lia.
  all: try change (currentPosition (openPosition _ _ _ _ ?sig _)) with sig.
  all: first
    [ by (apply openPosition_books; [done|lia|]; rewrite Hflat in Hs)
    | by (change (currentPosition (closePosition _ _ _ _)) with 0;
          apply closePosition_books)
    | by (apply openPosition_books; [done|lia|];
          apply closePosition_books) ].
Qed.

Lemma dayStep_books pair signals n delayed s day s' first c :
  first ≤ executionDayOf n delayed day < n →
  Forall (λ signal, signal = -1 ∨ signal = 0 ∨ signal = 1) signals →
  dayStep pair signals n delayed s day = Some s' →
  books_ok n first c (engine s) (currentPosition s) →
  books_ok n first c (engine s') (currentPosition s').
Proof.
  intros Hday Hsignals Hstep Hs. rewrite dayStep_dayTrades in Hstep.
  cbv zeta in Hstep.
  destruct (dayTrades _ _ _ _) as [s1|] eqn:Htrades; [|done].
  injection Hstep as <-.
  eapply dayTrades_books in Htrades; [exact Htrades|done| |done].
  by apply signal_of_day_ok.
Qed.

Lemma dayTrades_frame pair signal executionDay s s1 bt0 :
  dayTrades pair signal executionDay s = Some s1 →
  frame_kept bt0 (engine s) → frame_kept bt0 (engine s1).
Proof.
  intros Hstep Hs. unfold dayTrades in Hstep.
  destruct (signal =? currentPosition s); [by injection Hstep as <-|].
  destruct (pricesA_ pair !! Z.to_nat executionDay) as [priceA|];
    destruct (pricesB_ pair !! Z.to_nat executionDay) as [priceB|];
    destruct (currentPosition s =? 0); destruct (signal =? 0);
    cbn [mbind option_bind] in Hstep; try discriminate;
    by injection Hstep as <-.
Qed.

Lemma dayTrades_returns pair signal executionDay s :
  0 ≤ executionDay < size (pricesA_ pair) →
  executionDay < size (pricesB_ pair) →
  is_Some (dayTrades pair signal executionDay s).
Proof.
  intros HA HB. unfold dayTrades.
  destruct (lookup_lt_is_Some_2 (pricesA_ pair) (Z.to_nat executionDay))
    as [priceA ->]; [unfold size in *; lia|].
  destruct (lookup_lt_is_Some_2 (pricesB_ pair) (Z.to_nat executionDay))
    as [priceB ->]; [unfold size in *; lia|].
  destruct (signal =? currentPosition s); [done|].
  destruct (currentPosition s =? 0); destruct (signal =? 0); done.
Qed.

Lemma dayStep_run_ok pair signals n delayed s day bt0 first c :
  first ≤ executionDayOf n delayed day < n →
  0 ≤ executionDayOf n delayed day →
  n ≤ size (pricesA_ pair) → n ≤ size (pricesB_ pair) →
  Forall (λ signal, signal = -1 ∨ signal = 0 ∨ signal = 1) signals →
  run_ok bt0 n first c s →
  ∃ s', dayStep pair signals n delayed s day = Some s'
        ∧ run_ok bt0 n first c s'.
Proof.
  intros Hday Hday0 HA HB Hsignals [Hframe Hbooks].
  destruct (dayTrades_returns pair
              (if day <? size signals then signals !!! Z.to_nat day else 0)
              (executionDayOf n delayed day) s) as [s1 Hs1]; [lia|lia|].
  pose proof (dayStep_dayTrades pair signals n delayed s day) as Hstep.
  cbv zeta in Hstep. rewrite Hs1 in Hstep. cbn [mbind option_bind] in Hstep.
  eexists. split; [exact Hstep|]. split.
  - pose proof (dayTrades_frame _ _ _ _ _ bt0 Hs1 Hframe)
      as (H1 & H2 & H3 & H4).
    unfold frame_kept. simpl. rewrite length_insert. done.
  - by apply (dayStep_books pair signals n delayed s day).
Qed.

Lemma runPair_run_ok e x lw n delayed bt pair bt0 c :
  0 ≤ lw →
  n ≤ size (pricesA_ pair) → n ≤ size (pricesB_ pair) →
  frame_kept bt0 bt →
  books_ok n (executionDayOf n delayed lw) c bt 0 →
  ∃ s', runPair e x lw n delayed bt pair = Some s'
        ∧ frame_kept bt0 (engine s')
        ∧ books_ok n (executionDayOf n delayed lw) c (engine s') 0.
Proof.
  intros Hlw HA HB Hframe Hbooks. unfold runPair.
  destruct (foldM_invariant (run_ok bt0 n (executionDayOf n delayed lw) c)
              (dayStep pair (generateSignals pair e x lw) n delayed)
              (loop_range lw n)
              {| engine := bt; currentPosition := 0;
                 position := emptyPosition |})
    as (s' & Hs' & Hframe' & Hbooks'); [|done|].
  - intros s day Hday Hs. apply elem_of_loop_range in Hday.
    pose proof (executionDayOf_bounds n delayed day ltac:(lia)) as [Hb _].
    pose proof (executionDayOf_mono n delayed lw day ltac:(lia)).
    apply dayStep_run_ok; try done; try lia.
    apply generateSignals_values.
  - exists s'. split; [done|]. split; [done|].
    destruct Hbooks' as (H1 & H2 & H3 & H4 & H5).
    repeat split; try done; [auto|]. simpl.
    destruct (currentPosition s' =? 0); lia.
Qed.

Lemma runPairs_run_ok e x lw n delayed bt c :
  0 ≤ lw →
  Forall (λ pair, n ≤ size (pricesA_ pair) ∧ n ≤ size (pricesB_ pair))
         (pairs_ bt) →
  books_ok n (executionDayOf n delayed lw) c bt 0 →
  ∃ bt', runPairs e x lw n delayed bt = Some bt'
         ∧ frame_kept bt bt'
         ∧ books_ok n (executionDayOf n delayed lw) c bt' 0.
Proof.
  intros Hlw Hcover Hbooks. unfold runPairs.
  destruct (foldM_invariant
              (λ b, frame_kept bt b
                    ∧ books_ok n (executionDayOf n delayed lw) c b 0)
              (λ b pair, engine <$> runPair e x lw n delayed b pair)
              (pairs_ bt) bt) as (bt' & Hbt' & Hinv); [| |by eauto].
  - intros b pair Hpair [Hframe Hb].
    rewrite Forall_forall in Hcover. destruct (Hcover pair Hpair) as [HA HB].
    destruct (runPair_run_ok e x lw n delayed b pair bt c Hlw HA HB Hframe Hb)
      as (s' & -> & Hs'). simpl. eauto.
  - split; [done|]. exact Hbooks.
Qed.

Lemma calculateMetrics_keeps pow bt :
  let bt' := calculateMetrics pow bt in
  marketData_ bt' = marketData_ bt ∧ pairs_ bt' = pairs_ bt
  ∧ positions_ bt' = positions_ bt
  ∧ portfolioValues_ bt' = portfolioValues_ bt
  ∧ tradeHistory_ bt' = tradeHistory_ bt ∧ cash_ bt' = cash_ bt
  ∧ initialCapital_ bt' = initialCapital_ bt
  ∧ winCount (metrics_ bt') = winCount (metrics_ bt)
  ∧ lossCount (metrics_ bt') = lossCount (metrics_ bt).
Proof.
  unfold calculateMetrics. destruct (portfolioValues_ bt) eqn:E; [done|].
  by destruct (fold_left _ (tradeHistory_ bt) _).
Qed.

(** What every run of [runBacktest] on covered pairs gives. *)
Lemma runBacktest_run_ok pow bt initialCapital e x lw delayed :
  let n := getDataSize (marketData_ bt) in
  0 ≤ lw → pairs_cover_dataset bt →
  ∃ bt',
    runBacktest pow bt initialCapital e x lw delayed = Some bt'
    ∧ marketData_ bt' = marketData_ bt ∧ pairs_ bt' = pairs_ bt
    ∧ initialCapital_ bt' = initialCapital
    ∧ size (portfolioValues_ bt') = n
    ∧ books_ok n (executionDayOf n delayed lw)
               (winCount (metrics_ bt) + lossCount (metrics_ bt)) bt' 0.
Proof.
  intros n Hlw Hcover. unfold runBacktest. cbn [marketData_ resetState].
  fold n. destruct (Z.eqb_spec n 0) as [Hn|Hn].
  - eexists. split; [done|]. simpl. rewrite Hn.
    repeat split; try done; try constructor; unfold size; simpl; (lia || auto).
  - set (bt1 := set_portfolioValues _ _).
    destruct (runPairs_run_ok e x lw n delayed bt1
                (winCount (metrics_ bt) + lossCount (metrics_ bt)))
      as (bt2 & -> & (H1 & H2 & H3 & H4) & Hbooks); [done|done| |].
    + unfold books_ok, bt1, size. simpl.
      repeat split; try done; try constructor; (lia || auto).
    + simpl. eexists. split; [done|].
      destruct (calculateMetrics_keeps pow bt2)
        as (K1 & K2 & K3 & K4 & K5 & K6 & K7 & K8 & K9).
      cbv zeta in K1, K2, K3, K4, K5, K6, K7, K8, K9.
      rewrite K1, K2, K7, K4, H1, H2, H3. unfold size. rewrite H4.
      unfold bt1. simpl. rewrite resize_nil, length_replicate.
      assert (0 ≤ n) by (unfold n, getDataSize, size; lia).
      split; [done|]. split; [done|]. split; [done|]. split; [lia|].
      unfold books_ok. rewrite K3, K5, K8, K9. exact Hbooks.
Qed.

Lemma addPair_marketData bt a b : marketData_ (addPair bt a b) = marketData_ bt.
Proof.
  unfold addPair.
  destruct (getPriceSeries _ a); [|done].
  destruct (getPriceSeries _ b); [|done].
  by destruct (snd _).
Qed.

Lemma addPairs_covers md symbols :
  market_aligned md →
  marketData_ (addPairs (newBacktester md) symbols) = md
  ∧ pairs_cover_dataset (addPairs (newBacktester md) symbols).
Proof.
  intros Hmd. unfold addPairs.
  assert (marketData_ (newBacktester md) = md
          ∧ pairs_cover_dataset (newBacktester md)) as Hstart
    by (split; [done|apply newBacktester_covers]).
  revert Hstart. generalize (newBacktester md).
  induction symbols as [|[a b] symbols IH]; intros bt [Hbt Hcover]; [done|].
  simpl. apply IH. split.
  - by rewrite addPair_marketData.
  - apply addPair_covers; [by rewrite Hbt|done].
Qed.

(** Property X13.  On a dataset in which every series has a price for every
    date, an engine filled by any sequence of [addPair] calls runs: for every
    capital, thresholds, window and execution mode [runBacktest] returns (no
    price is read beyond a series), it keeps the dataset and the pairs,
    records the capital and leaves one portfolio value per date. *)
Theorem runBacktest_returns (pow : float → float → float) (md : MarketData)
    (symbols : list (string * string))
    (initialCapital entryThreshold exitThreshold : float)
    (lookbackWindow : Z) (delayedExecution : bool) :
  market_aligned md → 0 ≤ lookbackWindow →
  let bt := addPairs (newBacktester md) symbols in
  ∃ bt',
    runBacktest pow bt initialCapital entryThreshold exitThreshold
                lookbackWindow delayedExecution = Some bt'
    ∧ marketData_ bt' = md ∧ pairs_ bt' = pairs_ bt
    ∧ initialCapital_ bt' = initialCapital
    ∧ size (portfolioValues_ bt') = getDataSize md.
Proof.
  intros Hmd Hlw bt.
  destruct (addPairs_covers md symbols Hmd) as [Hdata Hcover]. fold bt in Hdata, Hcover.
  destruct (runBacktest_run_ok pow bt initialCapital entryThreshold
              exitThreshold lookbackWindow delayedExecution Hlw Hcover)
    as (bt' & Hrun & H1 & H2 & H3 & H4 & _).
  rewrite Hdata in H1, H4. by exists bt'.
Qed.

Lemma runBacktest_returns_witness :
  let bt := addPairs (newBacktester (market_of reverting_A)) [("A", "B")] in
  ∃ bt',
    runBacktest (λ _ _, nan) bt 1000 1.1 0 3 true = Some bt'
    ∧ marketData_ bt' = market_of reverting_A ∧ pairs_ bt' = pairs_ bt
    ∧ initialCapital_ bt' = 1000%float
    ∧ size (portfolioValues_ bt') = getDataSize (market_of reverting_A).
Proof.
  apply (runBacktest_returns (λ _ _, nan) (market_of reverting_A)
           [("A", "B")] 1000 1.1 0 3 true); [|lia].
  intros symbol series. unfold getPriceSeries, getDataSize, market_of, size.
  simpl. intros Hs.
  apply lookup_insert_Some in Hs as [[_ <-]|[_ Hs]]; [simpl; lia|].
  apply lookup_singleton_Some in Hs as [_ <-]. simpl. lia.
Defined.

(** Property X14.  After [runBacktest] on pairs that cover the dataset, every
    trade of the log and every entry of [positions_] is dated on an execution
    day: not before the execution day of the first signal day
    [lookbackWindow] and before the number of days; every position has
    direction 1 or -1; and there are at most as many closed trades as
    opened positions. *)
Theorem runBacktest_trade_log (pow : float → float → float) (bt : Backtester)
    (initialCapital entryThreshold exitThreshold : float)
    (lookbackWindow : Z) (delayedExecution : bool) :
  let n := getDataSize (marketData_ bt) in
  let first := executionDayOf n delayedExecution lookbackWindow in
  0 ≤ lookbackWindow → pairs_cover_dataset bt →
  ∃ bt',
    runBacktest pow bt initialCapital entryThreshold exitThreshold
                lookbackWindow delayedExecution = Some bt'
    ∧ lookbackWindow ≤ first
    ∧ Forall (λ trade, first ≤ fst trade < n) (tradeHistory_ bt')
    ∧ Forall (λ pos, (direction pos = 1 ∨ direction pos = -1)
                     ∧ first ≤ entryDay pos < n)
             (positions_ bt')
    ∧ (length (tradeHistory_ bt') ≤ length (positions_ bt'))%nat.
Proof.
  intros n first Hlw Hcover.
  destruct (runBacktest_run_ok pow bt initialCapital entryThreshold
              exitThreshold lookbackWindow delayedExecution Hlw Hcover)
    as (bt' & Hrun & _ & _ & _ & _ & Htrades & Hpos & _ & _ & Hlen).
  fold n in Htrades, Hpos. fold first in Htrades, Hpos.
  assert (lookbackWindow ≤ first) as Hfirst.
  { unfold first, executionDayOf. destruct (_ && _); lia. }
  exists bt'. split; [done|]. split; [done|]. split; [done|]. split; [done|].
  unfold size in Hlen. simpl in Hlen. lia.
Qed.

Lemma runBacktest_trade_log_witness :
  let n := getDataSize (marketData_ reverting_engine) in
  let first := executionDayOf n true 3 in
  ∃ bt',
    runBacktest (λ _ _, nan) reverting_engine 1000 1.1 0 3 true = Some bt'
    ∧ 3 ≤ first
    ∧ Forall (λ trade, first ≤ fst trade < n) (tradeHistory_ bt')
    ∧ Forall (λ pos, (direction pos = 1 ∨ direction pos = -1)
                     ∧ first ≤ entryDay pos < n)
             (positions_ bt')
    ∧ (length (tradeHistory_ bt') ≤ length (positions_ bt'))%nat.
Proof.
  apply (runBacktest_trade_log (λ _ _, nan) reverting_engine 1000 1.1 0 3 true);
    [lia|].
  unfold pairs_cover_dataset. rewrite reverting_engine_pairs.
  repeat constructor; by vm_compute.
Defined.

(** Property X15.  [runBacktest] clears the trade log but not the win and
    loss counters: after a run on pairs that cover the dataset, wins plus
    losses equal the wins plus losses counted before the run plus the number
    of trades of the run. *)
Theorem runBacktest_counters (pow : float → float → float) (bt : Backtester)
    (initialCapital entryThreshold exitThreshold : float)
    (lookbackWindow : Z) (delayedExecution : bool) :
  0 ≤ lookbackWindow → pairs_cover_dataset bt →
  ∃ bt',
    runBacktest pow bt initialCapital entryThreshold exitThreshold
                lookbackWindow delayedExecution = Some bt'
    ∧ winCount (metrics_ bt') + lossCount (metrics_ bt')
      = winCount (metrics_ bt) + lossCount (metrics_ bt)
        + size (tradeHistory_ bt').
Proof.
  intros Hlw Hcover.
  destruct (runBacktest_run_ok pow bt initialCapital entryThreshold
              exitThreshold lookbackWindow delayedExecution Hlw Hcover)
    as (bt' & Hrun & _ & _ & _ & _ & _ & _ & Hcount & _).
  eauto.
Qed.

Lemma runBacktest_counters_witness :
  ∃ bt',
    runBacktest (λ _ _, nan) reverting_engine 1000 1.1 0 3 true = Some bt'
    ∧ winCount (metrics_ bt') + lossCount (metrics_ bt')
      = winCount (metrics_ reverting_engine)
        + lossCount (metrics_ reverting_engine)
        + size (tradeHistory_ bt').
Proof.
  apply (runBacktest_counters (λ _ _, nan) reverting_engine 1000 1.1 0 3 true);
    [lia|].
  unfold pairs_cover_dataset. rewrite reverting_engine_pairs.
  repeat constructor; by vm_compute.
Defined.

(** ** A run without trades *)

Lemma runPair_no_days e x lw n delayed bt pair :
  n ≤ lw →
  runPair e x lw n delayed bt pair
  = Some {| engine := bt; currentPosition := 0; position := emptyPosition |}.
Proof.
  intros Hlw. unfold runPair, loop_range. by rewrite seqZ_nil by lia.
Qed.

Lemma runPairs_no_days e x lw n delayed bt :
  n ≤ lw → runPairs e x lw n delayed bt = Some bt.
Proof.
  intros Hlw. unfold runPairs. generalize (pairs_ bt) as pairs.
  intros pairs. induction pairs as [|pair pairs IH]; [done|].
  simpl. rewrite runPair_no_days by done. exact IH.
Qed.

Lemma drawdown_loop_zeros (k : nat) :
  fold_left drawdown_body (replicate k 0%float) (0%float, 0%float)
  = (0%float, 0%float).
Proof. induction k as [|k IH]; [done|]. simpl. exact IH. Qed.

Lemma last_replicate_S {A} (k : nat) (x : A) :
  last (replicate (S k) x) = Some x.
Proof.
  induction k as [|k IH]; [done|].
  change (replicate (S (S k)) x) with (x :: replicate (S k) x).
  by rewrite last_cons, IH.
Qed.

Lemma zero_return (capital : float) :
  (0 <? capital)%float = true → (0 / capital - 1)%float = (-1)%float.
Proof.
  intros Hpos. apply Prim2SF_inj. rewrite sub_spec, div_spec.
  change (Prim2SF 0) with (S754_zero false).
  destruct (ltb_zero_cases _ Hpos) as [(m & e & ->)| ->]; reflexivity.
Qed.

(** Property X16.  Without an accepted pair, or with a lookback window that
    is not below the number of days, [runBacktest] makes no trade and writes
    no portfolio value: the value series is 0.0 on every day (not the initial
    capital), the cash is the initial capital, the maximum drawdown is 0 and,
    for a positive capital, the reported total return is -1 (-100%). *)
Theorem runBacktest_without_trades (pow : float → float → float)
    (bt : Backtester) (initialCapital entryThreshold exitThreshold : float)
    (lookbackWindow : Z) (delayedExecution : bool) :
  let n := getDataSize (marketData_ bt) in
  0 < n → pairs_ bt = [] ∨ n ≤ lookbackWindow →
  ∃ bt',
    runBacktest pow bt initialCapital entryThreshold exitThreshold
                lookbackWindow delayedExecution = Some bt'
    ∧ portfolioValues_ bt' = replicate (Z.to_nat n) 0%float
    ∧ tradeHistory_ bt' = [] ∧ positions_ bt' = []
    ∧ cash_ bt' = initialCapital
    ∧ maxDrawdown (metrics_ bt') = 0%float
    ∧ ((0 <? initialCapital)%float = true →
       totalReturn (metrics_ bt') = (-1)%float).
Proof.
  intros n Hn Hcase. unfold runBacktest. cbn [marketData_ resetState].
  fold n. destruct (Z.eqb_spec n 0) as [?|_]; [lia|].
  set (bt1 := set_portfolioValues _ _).
  assert (runPairs entryThreshold exitThreshold lookbackWindow n
                   delayedExecution bt1 = Some bt1) as ->.
  { destruct Hcase as [Hnone|Hlw]; [|by apply runPairs_no_days].
    unfold runPairs. change (pairs_ bt1) with (pairs_ bt). by rewrite Hnone. }
  cbn [mbind option_bind]. eexists. split; [done|].
  destruct (calculateMetrics_keeps pow bt1)
    as (_ & _ & K3 & K4 & K5 & K6 & _).
  cbv zeta in K3, K4, K5, K6. rewrite K3, K4, K5, K6.
  assert (portfolioValues_ bt1 = replicate (Z.to_nat n) 0%float) as Hpv
    by (unfold bt1; simpl; apply resize_nil).
  split; [done|]. split; [done|]. split; [done|]. split; [done|].
  destruct (Z.to_nat n) as [|k] eqn:Hk; [lia|].
  unfold calculateMetrics. rewrite Hpv.
  change (replicate (S k) 0%float) with (0%float :: replicate k 0%float).
  destruct (fold_left _ (tradeHistory_ bt1) _) as [totalWins totalLosses].
  cbn [metrics_ maxDrawdown totalReturn]. split.
  - unfold drawdown_loop.
    change (0%float :: replicate k 0%float) with (replicate (S k) 0%float).
    change (replicate (S k) 0%float !!! 0%nat) with (0%float).
    by rewrite drawdown_loop_zeros.
  - intros Hpos.
    change (0%float :: replicate k 0%float) with (replicate (S k) 0%float).
    rewrite last_replicate_S. simpl. by apply zero_return.
Qed.

Lemma runBacktest_without_trades_witness :
  ∃ bt',
    runBacktest (λ _ _, nan) reverting_engine 1000 1.1 0 24 true = Some bt'
    ∧ portfolioValues_ bt' = replicate (Z.to_nat 24) 0%float
    ∧ tradeHistory_ bt' = [] ∧ positions_ bt' = []
    ∧ cash_ bt' = 1000%float
    ∧ maxDrawdown (metrics_ bt') = 0%float
    ∧ ((0 <? 1000)%float = true → totalReturn (metrics_ bt') = (-1)%float).
Proof.
  apply (runBacktest_without_trades (λ _ _, nan) reverting_engine
           1000 1.1 0 24 true); [by vm_compute|].
  right. by vm_compute.
Defined.

(** ** A value series that never falls *)

Lemma SFcompare_eq_cases a b :
  SFcompare a b = Some Eq →
  (∃ s s', a = S754_zero s ∧ b = S754_zero s')
  ∨ (∃ s, a = S754_infinity s ∧ b = S754_infinity s)
  ∨ ∃ s m e, a = S754_finite s m e ∧ b = S754_finite s m e.
Proof.
  destruct a as [sa|[]| |[] ma ea], b as [sb|[]| |[] mb eb]; simpl;
    intros H; try discriminate; eauto 8.
  - right. right.
    destruct (Z.compare_spec ea eb) as [->|?|?]; try discriminate.
    fold (Pos.compare ma mb) in H.
    destruct (Pos.compare_spec ma mb) as [->|?|?]; try discriminate.
    eauto.
  - right. right.
    destruct (Z.compare_spec ea eb) as [->|?|?]; try discriminate.
    fold (Pos.compare ma mb) in H.
    destruct (Pos.compare_spec ma mb) as [->|?|?]; try discriminate.
    eauto.
Qed.

Lemma SFcompare_refl_not_nan a :
  a ≠ S754_nan → SFcompare a a = Some Eq.
Proof.
  destruct a as [s|[]| |s m e]; try done. intros _.
  apply SFcompare_refl_finite.
Qed.

(** [(M - w) / M] for [M] and [w] of one value: a zero or NaN. *)
Lemma SF_ratio_of_equal a b :
  SFcompare a b = Some Eq →
  SFltb (S754_zero false) (SFdiv prec emax (SFsub prec emax a b) a) = false.
Proof.
  intros [(s & s' & -> & ->)|[(s & -> & ->)|(s & m & e & -> & ->)]]%SFcompare_eq_cases.
  - by destruct s, s'.
  - by destruct s.
  - unfold SFsub. rewrite Z.sub_diag. by destruct s.
Qed.

Lemma SFcompare_eq_le a b c :
  SFcompare a b = Some Eq → SFleb b c = true →
  SFcompare a c = Some Lt ∨ SFcompare a c = Some Eq.
Proof.
  intros [(s & s' & -> & ->)|[(s & -> & ->)|(s & m & e & -> & ->)]]%SFcompare_eq_cases;
    unfold SFleb.
  - destruct c as [sc|[]| |[] mc ec]; simpl; auto; discriminate.
  - destruct (SFcompare _ c) as [[]|]; auto; discriminate.
  - destruct (SFcompare _ c) as [[]|]; auto; discriminate.
Qed.

(** The values visited so far all equal the peak or lie below it, and no
    drawdown has been recorded. *)
Lemma drawdown_body_rising (M v w : float) :
  SFcompare (Prim2SF M) (Prim2SF v) = Some Eq →
  (v <=? w)%float = true →
  ∃ M', drawdown_body (M, 0%float) w = (M', 0%float)
        ∧ SFcompare (Prim2SF M') (Prim2SF w) = Some Eq.
Proof.
  intros HM Hvw. rewrite FloatAxioms.leb_spec in Hvw.
  unfold drawdown_body.
  rewrite !FloatAxioms.ltb_spec. unfold SFltb at 1.
  destruct (SFcompare_eq_le _ _ _ HM Hvw) as [Hc|Hc]; rewrite Hc.
  - exists w. split; [done|]. apply SFcompare_refl_not_nan.
    intros Hnan. rewrite Hnan in Hvw. unfold SFleb in Hvw.
    by destruct (Prim2SF v) as [?|?| |].
  - exists M. rewrite div_spec, sub_spec. unfold SF64div, SF64sub.
    change (Prim2SF 0) with (S754_zero false).
    by rewrite (SF_ratio_of_equal _ _ Hc).
Qed.

Lemma drawdown_fold_rising (values : list float) (M v : float) :
  SFcompare (Prim2SF M) (Prim2SF v) = Some Eq →
  (∀ (i : nat) a b, (v :: values) !! i = Some a →
                    (v :: values) !! S i = Some b → (a <=? b)%float = true) →
  snd (fold_left drawdown_body values (M, 0%float)) = 0%float.
Proof.
  revert M v. induction values as [|w values IH]; intros M v HM Hup; [done|].
  cbn [fold_left].
  destruct (drawdown_body_rising M v w HM) as (M' & -> & HM').
  { by apply (Hup 0%nat). }
  apply (IH M' w HM'). intros i a b Ha Hb. by apply (Hup (S i)).
Qed.

Lemma SFltb_irrefl a : SFltb a a = false.
Proof.
  unfold SFltb. destruct a as [s|[]| |s m e]; try done.
  by rewrite SFcompare_refl_finite.
Qed.

Lemma drawdown_single (v : float) :
  snd (drawdown_body (v, 0%float) v) = 0%float
  ∧ fst (drawdown_body (v, 0%float) v) = v.
Proof.
  unfold drawdown_body. rewrite !FloatAxioms.ltb_spec, div_spec, sub_spec.
  unfold SF64div, SF64sub. change (Prim2SF 0) with (S754_zero false).
  rewrite SFltb_irrefl.
  assert (Prim2SF v = S754_nan ∨ Prim2SF v ≠ S754_nan) as [->|Hnan]
    by (destruct (Prim2SF v); auto); [done|].
  by rewrite (SF_ratio_of_equal _ _ (SFcompare_refl_not_nan _ Hnan)).
Qed.

(** Property X17.  For a value series that never falls (each entry is at
    most the next one) the maximum drawdown that [calculateMetrics] reports
    is exactly 0. *)
Theorem maxDrawdown_rising_series (pow : float → float → float)
    (bt : Backtester) :
  portfolioValues_ bt ≠ [] →
  (∀ (i : nat) a b, portfolioValues_ bt !! i = Some a →
                    portfolioValues_ bt !! S i = Some b →
                    (a <=? b)%float = true) →
  maxDrawdown (metrics_ (calculateMetrics pow bt)) = 0%float.
Proof.
  intros Hne Hup. rewrite calculateMetrics_maxDrawdown by done.
  unfold drawdown_loop.
  destruct (portfolioValues_ bt) as [|v values]; [done|].
  change ((v :: values) !!! 0%nat) with v. cbn [fold_left].
  destruct (drawdown_single v) as [Hsnd Hfst].
  destruct (drawdown_body (v, 0%float) v) as [M md]. simpl in Hsnd, Hfst.
  subst M md.
  destruct values as [|w values]; [done|].
  apply (drawdown_fold_rising (w :: values) v v); [|done].
  apply SFcompare_refl_not_nan. intros Hnan.
  specialize (Hup 0%nat v w eq_refl eq_refl).
  rewrite FloatAxioms.leb_spec, Hnan in Hup. done.
Qed.

Lemma maxDrawdown_rising_series_witness :
  maxDrawdown
    (metrics_
       (calculateMetrics (λ _ _, nan)
          (set_portfolioValues reverting_start [100; 100; 120]%float)))
  = 0%float.
Proof.
  apply (maxDrawdown_rising_series (λ _ _, nan)
           (set_portfolioValues reverting_start [100; 100; 120]%float)).
  - simpl. discriminate.
  - intros [|[|[|i]]] a b; simpl; intros [= <-] [= <-]; by vm_compute.
Defined.

(** ** A run in which no pair ever signals *)

Lemma dayStep_flat pair signals n delayed s day first upto capital :
  0 ≤ first ≤ executionDayOf n delayed day →
  executionDayOf n delayed day ≤ upto →
  0 ≤ day < n →
  getDataSize (marketData_ (engine s)) = n →
  Forall (λ signal, signal = 0) signals →
  currentPosition s = 0 →
  flat_books n first upto capital (engine s) →
  ∃ s', dayStep pair signals n delayed s day = Some s'
        ∧ marketData_ (engine s') = marketData_ (engine s)
        ∧ currentPosition s' = 0
        ∧ flat_books n first (Z.max upto (executionDayOf n delayed day + 1))
                     capital (engine s').
Proof.
  intros Hfirst Hupto Hday Hn Hsignals Hheld
         (Hpos & Htrades & Hcash & Hlen & Hzero & Hcap).
  pose proof (executionDayOf_bounds n delayed day Hday) as [Hexec _].
  unfold dayStep.
  set (executionDay := executionDayOf n delayed day) in *.
  assert ((if day <? size signals then signals !!! Z.to_nat day else 0) = 0)
    as ->.
  { destruct (Z.ltb_spec day (size signals)) as [Hin|_]; [|done].
    destruct (lookup_lt_is_Some_2 signals (Z.to_nat day)) as [v E];
      [unfold size in Hin; lia|].
    rewrite (lookup_total_lookup _ _ _ E).
    by apply (Forall_lookup_1 _ _ _ _ Hsignals E). }
  rewrite Hheld. cbn [Z.eqb mbind option_bind].
  eexists. split; [done|]. cbn [engine currentPosition set_portfolioValues
    marketData_ positions_ tradeHistory_ cash_ portfolioValues_].
  split; [done|]. split; [done|].
  assert (calculatePortfolioValue (engine s) executionDay = capital) as ->.
  { unfold calculatePortfolioValue. rewrite Hn, Hpos.
    destruct (Z.ltb_spec executionDay 0); [lia|].
    destruct (Z.leb_spec n executionDay); [lia|]. done. }
  unfold flat_books, set_portfolioValues.
  cbn [positions_ tradeHistory_ cash_ portfolioValues_].
  split; [done|]. split; [done|]. split; [done|]. split; [|split].
  - unfold size in *. by rewrite length_insert.
  - intros i Hi. rewrite list_lookup_insert_ne by lia. by apply Hzero.
  - intros i Hi. destruct (decide (Z.to_nat executionDay = i)) as [<-|Hne].
    + rewrite list_lookup_insert_eq; [done|]. unfold size in Hlen. lia.
    + rewrite list_lookup_insert_ne by done. apply Hcap. lia.
Qed.

(** The day loop from day [lo] on. *)
Lemma days_flat pair signals n delayed first capital (k : nat) :
  ∀ lo upto s,
    0 ≤ first ≤ executionDayOf n delayed lo →
    executionDayOf n delayed lo ≤ upto →
    0 ≤ lo → lo + Z.of_nat k ≤ n →
    getDataSize (marketData_ (engine s)) = n →
    Forall (λ signal, signal = 0) signals →
    currentPosition s = 0 →
    flat_books n first upto capital (engine s) →
    ∃ s', foldM (dayStep pair signals n delayed) (seqZ lo (Z.of_nat k)) s
          = Some s'
          ∧ marketData_ (engine s') = marketData_ (engine s)
          ∧ flat_books n first
               (if decide (k = 0)%nat then upto
                else Z.max upto
                       (executionDayOf n delayed (lo + Z.of_nat k - 1) + 1))
               capital (engine s').
Proof.
  induction k as [|k IH]; intros lo upto s Hfirst Hupto Hlo Hhi Hn Hsig Hheld Hs.
  - simpl. eauto.
  - rewrite seqZ_cons by lia. cbn [foldM].
    destruct (dayStep_flat pair signals n delayed s lo first upto capital)
      as (s1 & Hstep & Hmd1 & Hheld1 & Hs1);
      [done|done|lia|done|done|done|done|].
    rewrite Hstep.
    cbn [mbind option_bind].
    replace (Z.pred (Z.of_nat (S k))) with (Z.of_nat k) by lia.
    destruct (decide (k = 0)%nat) as [->|Hk].
    + exists s1. split; [done|]. split; [done|].
      rewrite decide_False by done.
      replace (lo + Z.of_nat 1 - 1) with lo by lia. done.
    + pose proof (executionDayOf_mono n delayed lo (Z.succ lo) ltac:(lia)).
      assert (executionDayOf n delayed (Z.succ lo)
              ≤ executionDayOf n delayed lo + 1) as Hnext.
      { unfold executionDayOf.
        destruct delayed; simpl; [|lia].
        destruct (Z.ltb_spec (Z.succ lo + 1) n), (Z.ltb_spec (lo + 1) n); lia. }
      destruct (IH (Z.succ lo)
                  (Z.max upto (executionDayOf n delayed lo + 1)) s1)
        as (s' & Hrun & Hmd' & Hs'); try done; try lia.
      { congruence. }
      exists s'. split; [done|]. split; [congruence|].
      replace (Z.succ lo + Z.of_nat k - 1) with (lo + Z.of_nat (S k) - 1)
        in Hs' by lia.
      rewrite decide_False by done.
      destruct Hs' as (H1 & H2 & H3 & H4 & H5 & H6).
      repeat split; try done. intros i Hi. apply H6. lia.
Qed.

Lemma flat_books_weaken n first upto upto' capital bt :
  upto' ≤ upto → flat_books n first upto capital bt →
  flat_books n first upto' capital bt.
Proof.
  intros Hle (H1 & H2 & H3 & H4 & H5 & H6). repeat split; try done.
  intros i Hi. apply H6. lia.
Qed.

Lemma runPair_flat e x lw n delayed bt pair upto capital :
  0 ≤ lw < n →
  getDataSize (marketData_ bt) = n →
  Forall (λ signal, signal = 0) (generateSignals pair e x lw) →
  executionDayOf n delayed lw ≤ upto →
  flat_books n (executionDayOf n delayed lw) upto capital bt →
  ∃ s', runPair e x lw n delayed bt pair = Some s'
        ∧ marketData_ (engine s') = marketData_ bt
        ∧ flat_books n (executionDayOf n delayed lw) n capital (engine s').
Proof.
  intros Hlw Hn Hsignals Hupto Hbt. unfold runPair. rewrite loop_range_seqZ.
  pose proof (executionDayOf_bounds n delayed lw Hlw) as [Hfirst _].
  destruct (days_flat pair (generateSignals pair e x lw) n delayed
              (executionDayOf n delayed lw) capital (Z.to_nat (n - lw))
              lw upto
              {| engine := bt; currentPosition := 0;
                 position := emptyPosition |})
    as (s' & Hrun & Hmd & Hs'); try done; try lia.
  exists s'. split; [done|]. split; [done|].
  rewrite decide_False in Hs' by lia.
  apply (flat_books_weaken _ _ _ n) in Hs'; [done|].
  replace (lw + Z.of_nat (Z.to_nat (n - lw)) - 1) with (n - 1) by lia.
  pose proof (executionDayOf_bounds n delayed (n - 1) ltac:(lia)). lia.
Qed.

Lemma runPairs_flat e x lw n delayed capital (pairs : list AssetPair) :
  ∀ bt upto,
    0 ≤ lw < n →
    getDataSize (marketData_ bt) = n →
    Forall (λ pair, Forall (λ signal, signal = 0) (generateSignals pair e x lw))
           pairs →
    executionDayOf n delayed lw ≤ upto ≤ n →
    flat_books n (executionDayOf n delayed lw) upto capital bt →
    ∃ bt',
      foldM (λ bt pair, engine <$> runPair e x lw n delayed bt pair) pairs bt
      = Some bt'
      ∧ flat_books n (executionDayOf n delayed lw)
                   (match pairs with [] => upto | _ => n end) capital bt'.
Proof.
  induction pairs as [|pair pairs IH]; intros bt upto Hlw Hn Hall Hupto Hbt.
  - simpl. eauto.
  - apply Forall_cons in Hall as [Hpair Hall]. cbn [foldM].
    destruct (runPair_flat e x lw n delayed bt pair upto capital)
      as (s' & -> & Hmd & Hs'); try done; [lia|].
    cbn [fmap option_fmap option_map mbind option_bind].
    destruct (IH (engine s') n) as (bt' & -> & Hbt'); try done.
    + congruence.
    + pose proof (executionDayOf_bounds n delayed lw Hlw). lia.
    + exists bt'. split; [done|]. by destruct pairs.
Qed.

Lemma ltb_nan_l (e z : float) : is_nan e = true → (e <? z)%float = false.
Proof.
  intros He. apply is_nan_spec in He.
  by rewrite FloatAxioms.ltb_spec, He.
Qed.

(** With a NaN entry threshold the machine never leaves the flat state. *)
Lemma machine_run_nan_threshold e x (zs : list float) :
  is_nan e = true →
  Forall (λ signal, signal = 0) (fst (machine_run e x Flat zs)).
Proof.
  intros He. induction zs as [|z zs IH]; [by constructor|].
  assert (machine_day e x Flat z = (0, Flat)) as Hday.
  { unfold machine_day, machine_step. rewrite (ltb_nan_l e z He).
    assert ((z <? - e)%float = false) as ->; [|by destruct (is_nan z)].
    apply is_nan_spec in He.
    by rewrite FloatAxioms.ltb_spec, opp_spec, He; destruct (Prim2SF z). }
  cbn [machine_run]. rewrite Hday. simpl. by constructor.
Qed.

(** Property X24.  When no pair signals (the signals of every pair are all
    0, as they are for a NaN entry threshold), [runBacktest] with a window
    below the number of days and at least one pair makes no trade and reads
    no price: the cash stays the initial capital, the portfolio values are
    0.0 before the first execution day and the initial capital from that day
    on. *)
Theorem runBacktest_no_signal (pow : float → float → float) (bt : Backtester)
    (initialCapital entryThreshold exitThreshold : float)
    (lookbackWindow : Z) (delayedExecution : bool) :
  let n := getDataSize (marketData_ bt) in
  let first := executionDayOf n delayedExecution lookbackWindow in
  0 ≤ lookbackWindow < n → pairs_ bt ≠ [] →
  is_nan entryThreshold = true
  ∨ Forall (λ pair,
              Forall (λ signal, signal = 0)
                     (generateSignals pair entryThreshold exitThreshold
                                      lookbackWindow))
           (pairs_ bt) →
  ∃ bt',
    runBacktest pow bt initialCapital entryThreshold exitThreshold
                lookbackWindow delayedExecution = Some bt'
    ∧ tradeHistory_ bt' = [] ∧ positions_ bt' = []
    ∧ cash_ bt' = initialCapital
    ∧ size (portfolioValues_ bt') = n
    ∧ (∀ i : nat, Z.of_nat i < first →
                  portfolioValues_ bt' !! i = Some 0%float)
    ∧ (∀ i : nat, first ≤ Z.of_nat i < n →
                  portfolioValues_ bt' !! i = Some initialCapital).
Proof.
  intros n first Hlw Hpairs Hquiet.
  assert (Forall (λ pair,
                    Forall (λ signal, signal = 0)
                           (generateSignals pair entryThreshold exitThreshold
                                            lookbackWindow))
                 (pairs_ bt)) as Hsignals.
  { destruct Hquiet as [Hnan|Hall]; [|done].
    apply Forall_forall. intros pair _. rewrite generateSignals_run.
    by apply machine_run_nan_threshold. }
  unfold runBacktest. cbn [marketData_ resetState]. fold n.
  destruct (Z.eqb_spec n 0) as [?|_]; [lia|].
  set (bt1 := set_portfolioValues _ _).
  pose proof (executionDayOf_bounds n delayedExecution lookbackWindow Hlw)
    as [Hfirst _]. fold first in Hfirst.
  destruct (runPairs_flat entryThreshold exitThreshold lookbackWindow n
              delayedExecution initialCapital (pairs_ bt) bt1 first)
    as (bt2 & Hrun & Hbt2); try done; try (fold first; lia).
  { unfold flat_books, bt1, size. simpl. rewrite resize_nil.
    rewrite length_replicate.
    split; [done|]. split; [done|]. split; [done|]. split; [lia|]. split.
    - intros i Hi. apply lookup_replicate_2. lia.
    - intros i Hi. fold first in Hi. lia. }
  unfold runPairs. change (pairs_ bt1) with (pairs_ bt). rewrite Hrun.
  cbn [mbind option_bind]. eexists. split; [done|].
  destruct (calculateMetrics_keeps pow bt2)
    as (_ & _ & K3 & K4 & K5 & K6 & _).
  cbv zeta in K3, K4, K5, K6. rewrite K3, K4, K5, K6.
  destruct (pairs_ bt) as [|pair pairs]; [done|].
  destruct Hbt2 as (H1 & H2 & H3 & H4 & H5 & H6). done.
Qed.

Lemma runBacktest_no_signal_witness :
  let n := getDataSize (marketData_ reverting_engine) in
  let first := executionDayOf n true 3 in
  ∃ bt',
    runBacktest (λ _ _, nan) reverting_engine 1000 nan 0 3 true = Some bt'
    ∧ tradeHistory_ bt' = [] ∧ positions_ bt' = []
    ∧ cash_ bt' = 1000%float
    ∧ size (portfolioValues_ bt') = n
    ∧ (∀ i : nat, Z.of_nat i < first →
                  portfolioValues_ bt' !! i = Some 0%float)
    ∧ (∀ i : nat, first ≤ Z.of_nat i < n →
                  portfolioValues_ bt' !! i = Some 1000%float).
Proof.
  apply (runBacktest_no_signal (λ _ _, nan) reverting_engine 1000 nan 0 3 true).
  - by vm_compute.
  - rewrite reverting_engine_pairs. discriminate.
  - left. by vm_compute.
Defined.

Lemma read_until_length delim c s :
  (String.length (snd (read_until delim (String.String c s))) ≤ String.length s)%nat.
Proof.
  revert c. induction s as [|c' s IH]; intros c; simpl.
  - by destruct (Ascii.eqb c delim).
  - destruct (Ascii.eqb c delim); [simpl; lia|]. simpl.
    specialize (IH c'). simpl in IH. lia.
Qed.

Lemma getline_loop_fuel fuel1 fuel2 delim s :
  (String.length s < fuel1)%nat → (String.length s < fuel2)%nat →
  getline_loop fuel1 delim s = getline_loop fuel2 delim s.
Proof.
  revert fuel2 s. induction fuel1 as [|fuel1 IH]; intros fuel2 s H1 H2; [lia|].
  destruct fuel2 as [|fuel2]; [lia|].
  destruct s as [|c s]; [done|]. cbn [getline_loop getline].
  pose proof (read_until_length delim c s) as Hlen.
  destruct (read_until delim (String.String c s)) as [cell rest].
  simpl in Hlen, H1, H2. f_equal. apply IH; lia.
Qed.

Lemma getline_loop_enough fuel delim s :
  (String.length s < fuel)%nat →
  getline_loop fuel delim s = read_cells delim s.
Proof. intros Hfuel. apply getline_loop_fuel; [done|lia]. Qed.

(** The loop, one [getline] at a time. *)
Lemma read_cells_step delim s :
  read_cells delim s =
  match getline delim s with
  | None => []
  | Some (cell, rest) => cell :: read_cells delim rest
  end.
Proof.
  unfold read_cells at 1. cbn [getline_loop].
  destruct s as [|c s]; [done|]. cbn [getline].
  pose proof (read_until_length delim c s) as Hlen.
  destruct (read_until delim (String.String c s)) as [cell rest]. simpl in Hlen.
  f_equal. apply getline_loop_enough. simpl. lia.
Qed.

Lemma getline_None delim s : getline delim s = None ↔ s = String.EmptyString.
Proof. destruct s; simpl; split; intros H. all: done. Qed.

Lemma read_cells_nil delim s : read_cells delim s = [] ↔ s = String.EmptyString.
Proof.
  rewrite read_cells_step. destruct s as [|c s]; [done|]. cbn [getline].
  destruct (read_until _ _). split; intros H. all: done.
Qed.

(** * The loader *)

Lemma drop_step {A} (l : list A) (i : nat) :
  drop i l = match l !! i with Some x => x :: drop (S i) l | None => [] end.
Proof.
  destruct (l !! i) as [x|] eqn:E.
  - by apply drop_S.
  - apply drop_ge. by apply lookup_ge_None.
Qed.

Section LoaderProperties.

Variable stod : string → option float.

Local Abbreviation push_cells := (push_cells stod).

Lemma parse_cell_lookup line (j : nat) :
  parse_cell stod line j =
  match read_cells comma line !! j with
  | Some cell => match stod cell with Some price => price | None => nan end
  | None => nan
  end.
Proof. done. Qed.

Lemma push_cells_cons headers line j columns md :
  push_cells headers line (j :: columns) md
  = push_cells headers line columns
      (push_price md (headers !!! j) (parse_cell stod line j)).
Proof. done. Qed.

Lemma loadCell_fold headers line (n i0 : nat) md stream :
  read_cells comma stream = drop i0 (read_cells comma line) →
  fst (fold_left (loadCell stod headers)
                 (seqZ (Z.of_nat i0) (Z.of_nat n)) (md, stream))
  = push_cells headers line (seq i0 n) md.
Proof.
  revert i0 md stream. induction n as [|n IH]; intros i0 md stream Hs; [done|].
  rewrite seqZ_cons by lia. cbn [fold_left seq].
  rewrite push_cells_cons, parse_cell_lookup.
  replace (Z.succ (Z.of_nat i0)) with (Z.of_nat (S i0)) by lia.
  replace (Z.pred (Z.of_nat (S n))) with (Z.of_nat n) by lia.
  unfold loadCell at 2. rewrite Nat2Z.id.
  rewrite read_cells_step, drop_step in Hs.
  destruct (getline comma stream) as [[priceStr rest]|] eqn:Hg;
    destruct (read_cells comma line !! i0) as [cell|] eqn:Hc; try done.
  - injection Hs as <- Hrest. by apply IH.
  - apply IH. apply getline_None in Hg. subst stream.
    rewrite drop_ge; [done|]. apply lookup_ge_None in Hc. lia.
Qed.

(** A row, in one step: an empty line is skipped; otherwise the first cell
    is the date and every column of the header gets one price. *)
Lemma loadRow_pushes headers md line :
  loadRow stod headers md line =
  match read_cells comma line with
  | [] => md
  | dateStr :: _ =>
      push_cells headers line (seq 1 (length headers - 1))
                 (push_date md dateStr)
  end.
Proof.
  unfold loadRow. rewrite read_cells_step.
  destruct (getline comma line) as [[dateStr lineStream]|] eqn:Hg; [|done].
  rewrite loop_range_seqZ.
  replace (Z.to_nat (size headers - 1)) with (length headers - 1)%nat
    by (unfold size; lia).
  apply (loadCell_fold headers line (length headers - 1) 1).
  rewrite (read_cells_step comma line), Hg. done.
Qed.

Lemma push_price_lookup md symbol price symbol' :
  prices (push_price md symbol price) !! symbol' =
  if decide (symbol = symbol')
  then Some (default [] (prices md !! symbol) ++ [price])
  else prices md !! symbol'.
Proof.
  unfold push_price. simpl. destruct (decide (symbol = symbol')) as [->|Hne].
  - apply lookup_insert_eq.
  - by apply lookup_insert_ne.
Qed.

Lemma push_cells_frame headers line columns md :
  dates (push_cells headers line columns md) = dates md
  ∧ isDataLoaded_ (push_cells headers line columns md) = isDataLoaded_ md.
Proof.
  revert md. induction columns as [|j columns IH]; intros md; [done|].
  rewrite push_cells_cons. by destruct (IH (push_price md (headers !!! j)
                                              (parse_cell stod line j))).
Qed.

Lemma push_cells_grow headers line columns md symbol :
  (series_length md symbol
   + (if decide (symbol ∈ (λ j, headers !!! j) <$> columns) then 1 else 0)
   ≤ series_length (push_cells headers line columns md) symbol)%nat
  ∧ (is_Some (prices (push_cells headers line columns md) !! symbol) ↔
     is_Some (prices md !! symbol)
     ∨ symbol ∈ (λ j, headers !!! j) <$> columns).
Proof.
  revert md. induction columns as [|j columns IH]; intros md.
  - rewrite fmap_nil. change (push_cells headers line [] md) with md.
    destruct (decide _) as [H|_]; [by apply elem_of_nil in H|].
    split; [lia|]. rewrite elem_of_nil. tauto.
  - rewrite push_cells_cons.
    destruct (IH (push_price md (headers !!! j) (parse_cell stod line j)))
      as [Hlen Hdom].
    assert (series_length (push_price md (headers !!! j)
                                      (parse_cell stod line j)) symbol
            = (series_length md symbol
               + if decide (headers !!! j = symbol) then 1 else 0)%nat)
      as Hstep.
    { unfold series_length. rewrite push_price_lookup.
      destruct (decide (headers !!! j = symbol)) as [->|Hne]; simpl.
      - rewrite length_app. simpl. lia.
      - lia. }
    rewrite fmap_cons. split.
    + rewrite Hstep in Hlen.
      destruct (decide (symbol ∈ headers !!! j
                          :: ((λ j, headers !!! j) <$> columns)))
        as [Hin|Hout]; [|lia].
      apply elem_of_cons in Hin.
      destruct (decide (symbol ∈ (λ j, headers !!! j) <$> columns));
        destruct (decide (headers !!! j = symbol)); try lia.
      exfalso. intuition congruence.
    + rewrite elem_of_cons, Hdom, push_price_lookup.
      destruct (decide (headers !!! j = symbol)) as [->|Hne].
      * split; [auto|]. intros _. left. eauto.
      * split; [tauto|]. intros [?|[?|?]]; [auto|congruence|auto].
Qed.

Lemma push_cells_lookup headers line columns md :
  NoDup ((λ j, headers !!! j) <$> columns) →
  (∀ j, j ∈ columns →
        prices (push_cells headers line columns md) !! (headers !!! j)
        = Some (default [] (prices md !! (headers !!! j))
                ++ [parse_cell stod line j]))
  ∧ ∀ symbol, symbol ∉ (λ j, headers !!! j) <$> columns →
       prices (push_cells headers line columns md) !! symbol
       = prices md !! symbol.
Proof.
  revert md. induction columns as [|j columns IH]; intros md Hnodup.
  - split; [intros j Hj; by apply elem_of_nil in Hj|done].
  - rewrite fmap_cons in Hnodup. apply NoDup_cons in Hnodup as [Hj Hnodup].
    destruct (IH (push_price md (headers !!! j) (parse_cell stod line j))
                 Hnodup) as [Hin Hout].
    split.
    + intros j' [->|Hj']%elem_of_cons; rewrite push_cells_cons.
      * rewrite Hout by done. rewrite push_price_lookup.
        by rewrite decide_True.
      * rewrite Hin by done. rewrite push_price_lookup.
        rewrite decide_False; [done|].
        intros Heq. apply Hj. rewrite Heq. apply list_elem_of_fmap. eauto.
    + intros symbol Hsymbol. rewrite fmap_cons, not_elem_of_cons in Hsymbol.
      destruct Hsymbol as [Hne Hsymbol].
      rewrite push_cells_cons, Hout by done.
      rewrite push_price_lookup. by rewrite decide_False.
Qed.

End LoaderProperties.

Lemma fold_left_seqZ_nat {A} (f : A → nat → A) (lo n : nat) (a : A) :
  fold_left (λ a i, f a (Z.to_nat i)) (seqZ (Z.of_nat lo) (Z.of_nat n)) a
  = fold_left f (seq lo n) a.
Proof.
  revert lo a. induction n as [|n IH]; intros lo a; [done|].
  rewrite seqZ_cons by lia. simpl. rewrite Nat2Z.id.
  replace (Z.succ (Z.of_nat lo)) with (Z.of_nat (S lo)) by lia.
  replace (Z.pred (Z.of_nat (S n))) with (Z.of_nat n) by lia.
  apply IH.
Qed.

(** The cells of the header after the first, by column. *)
Lemma header_columns (headers : list string) :
  (λ j, headers !!! j) <$> seq 1 (length headers - 1) = drop 1 headers.
Proof.
  apply list_eq. intros i. rewrite list_lookup_fmap, lookup_drop.
  destruct (decide (i < length headers - 1)%nat) as [Hi|Hi].
  - rewrite lookup_seq_lt by done. simpl.
    symmetry. apply list_lookup_lookup_total_lt. lia.
  - rewrite lookup_seq_ge by lia. simpl.
    symmetry. apply lookup_ge_None. lia.
Qed.

Lemma clear_series_spec headers md :
  dates (clear_series headers md) = dates md
  ∧ isDataLoaded_ (clear_series headers md) = isDataLoaded_ md
  ∧ ∀ symbol,
      prices (clear_series headers md) !! symbol =
      if decide (symbol ∈ drop 1 headers) then Some []
      else prices md !! symbol.
Proof.
  unfold clear_series. rewrite loop_range_seqZ.
  replace (Z.to_nat (size headers - 1)) with (length headers - 1)%nat
    by (unfold size; lia).
  rewrite (fold_left_seqZ_nat
             (λ md j, set_prices md (<[headers !!! j := []]> (prices md)))
             1 (length headers - 1) md).
  rewrite <- header_columns. generalize (seq 1 (length headers - 1)).
  intros columns. revert md.
  induction columns as [|j columns IH]; intros md.
  - split; [done|]. split; [done|]. intros symbol.
    rewrite fmap_nil. by rewrite decide_False by apply not_elem_of_nil.
  - cbn [fold_left].
    destruct (IH (set_prices md (<[headers !!! j := []]> (prices md))))
      as (Hd & Hl & Hp).
    split; [done|]. split; [done|]. intros symbol. rewrite Hp, fmap_cons.
    simpl prices.
    destruct (decide (symbol ∈ (λ j, headers !!! j) <$> columns)) as [Hin|Hout].
    + rewrite decide_True; [done|]. by right.
    + destruct (decide (symbol = headers !!! j)) as [->|Hne].
      * rewrite lookup_insert_eq. rewrite decide_True; [done|]. by left.
      * rewrite lookup_insert_ne by done. rewrite decide_False; [done|].
        rewrite not_elem_of_cons. done.
Qed.

Section LoaderRows.

Variable stod : string → option float.

Lemma loadRow_step headers md line :
  loadRow stod headers md line =
  if decide (line = String.EmptyString) then md
  else push_cells stod headers line (seq 1 (length headers - 1))
                  (push_date md (row_date line)).
Proof.
  rewrite loadRow_pushes. unfold row_date.
  destruct (decide (line = String.EmptyString)) as [->|Hne]; [done|].
  destruct (read_cells comma line) as [|dateStr cells] eqn:E; [|done].
  by apply read_cells_nil in E.
Qed.

Lemma loadRow_columns_filled headers md line :
  columns_filled headers md →
  columns_filled headers (loadRow stod headers md line).
Proof.
  intros Hmd. rewrite loadRow_step.
  destruct (decide (line = String.EmptyString)); [done|].
  set (md1 := push_date md (row_date line)).
  intros symbol. destruct (Hmd symbol) as [Hdom Hlen].
  destruct (push_cells_grow stod headers line (seq 1 (length headers - 1))
              md1 symbol) as [Hgrow Hdom'].
  destruct (push_cells_frame stod headers line (seq 1 (length headers - 1)) md1)
    as [Hdates _].
  rewrite header_columns in Hgrow, Hdom'. split.
  - rewrite Hdom'. change (prices md1) with (prices md). tauto.
  - intros Hin. rewrite Hdates. unfold md1 at 1. simpl.
    rewrite length_app. simpl. rewrite decide_True in Hgrow by done.
    specialize (Hlen Hin).
    change (series_length md1 symbol) with (series_length md symbol) in Hgrow.
    lia.
Qed.

Lemma loadRows_columns_filled headers lines md :
  columns_filled headers md →
  columns_filled headers (fold_left (loadRow stod headers) lines md).
Proof.
  revert md. induction lines as [|line lines IH]; intros md Hmd; [done|].
  simpl. by apply IH, loadRow_columns_filled.
Qed.

(** [loadFromCSV], outcome by outcome. *)
Lemma loadFromCSV_cases fs md filePath :
  (loadFromCSV stod fs md filePath = (md, false)
   ∧ (fs !! filePath = None
      ∨ ∃ content, fs !! filePath = Some content
          ∧ (content = String.EmptyString
             ∨ size (read_cells comma (fst (read_until newline content)))
               < 2)))
  ∨ ∃ content,
      fs !! filePath = Some content ∧ content ≠ String.EmptyString
      ∧ let headers := read_cells comma (fst (read_until newline content)) in
        let file := snd (read_until newline content) in
        2 ≤ size headers
        ∧ loadFromCSV stod fs md filePath
          = (let md := fold_left (loadRow stod headers)
                                 (read_cells newline file)
                                 (clear_series headers md) in
             {| dates := dates md; prices := prices md;
                isDataLoaded_ := true |}, true).
Proof.
  unfold loadFromCSV. destruct (fs !! filePath) as [content|]; [|by auto].
  destruct content as [|c content]; [left; by eauto 6|].
  cbn [getline].
  destruct (read_until newline (String.String c content))
    as [headerLine file] eqn:E.
  cbv zeta.
  destruct (Z.ltb_spec (size (read_cells comma headerLine)) 2) as [Hlt|Hge].
  - left. split; [done|]. right. eexists. split; [done|]. right.
    by rewrite E.
  - right. eexists. split; [done|]. split; [done|]. by rewrite E.
Qed.

End LoaderRows.

Section LoaderTheorems.

Variable stod : string → option float.

Lemma column_in_header (headers : list string) (j : nat) :
  (1 ≤ j < length headers)%nat →
  j ∈ seq 1 (length headers - 1) ∧ headers !!! j ∈ drop 1 headers.
Proof.
  intros Hj. assert (j ∈ seq 1 (length headers - 1)) as Hin
    by (apply elem_of_seq; lia).
  split; [done|]. rewrite <- header_columns.
  apply list_elem_of_fmap. eauto.
Qed.

Lemma loadRows_table headers lines md :
  NoDup (drop 1 headers) →
  let rows := filter (λ line, line ≠ String.EmptyString) lines in
  let md' := fold_left (loadRow stod headers) lines md in
  dates md' = dates md ++ (row_date <$> rows)
  ∧ isDataLoaded_ md' = isDataLoaded_ md
  ∧ (∀ j : nat, (1 ≤ j < length headers)%nat →
       default [] (prices md' !! (headers !!! j))
       = default [] (prices md !! (headers !!! j))
         ++ ((λ line, parse_cell stod line j) <$> rows))
  ∧ ∀ symbol, symbol ∉ drop 1 headers →
      prices md' !! symbol = prices md !! symbol.
Proof.
  intros Hnodup. revert md.
  induction lines as [|line lines IH]; intros md; cbv zeta.
  - simpl. rewrite app_nil_r. repeat split; try done.
    intros j Hj. by rewrite app_nil_r.
  - cbn [fold_left]. rewrite loadRow_step.
    destruct (decide (line = String.EmptyString)) as [->|Hne].
    { rewrite filter_cons_False by (intros H; by apply H). apply IH. }
    rewrite filter_cons_True by done.
    set (md1 := push_date md (row_date line)).
    set (md2 := push_cells stod headers line (seq 1 (length headers - 1)) md1).
    destruct (IH md2) as (Hd & Hl & Hp & Ho). cbv zeta in Hd, Hl, Hp, Ho.
    destruct (push_cells_frame stod headers line
                (seq 1 (length headers - 1)) md1) as [Hd2 Hl2].
    destruct (push_cells_lookup stod headers line
                (seq 1 (length headers - 1)) md1) as [Hin Hout].
    { by rewrite header_columns. }
    fold md2 in Hd2, Hl2, Hin, Hout. rewrite header_columns in Hout.
    split; [|split; [|split]].
    + rewrite Hd, Hd2. unfold md1. simpl. by rewrite <- app_assoc.
    + by rewrite Hl, Hl2.
    + intros j Hj. destruct (column_in_header headers j Hj) as [Hj1 Hj2].
      rewrite (Hp j Hj), (Hin j Hj1). simpl. by rewrite <- app_assoc.
    + intros symbol Hsymbol. by rewrite Ho, Hout.
Qed.

(** Property X18.  [loadFromCSV] fails exactly when the file cannot be
    opened, is empty, or has a first line with fewer than two cells; a
    failed load changes nothing, so a [MarketData] constructed from such a
    file has no dates and no price series; a successful load marks the data
    as loaded. *)
Theorem loadFromCSV_failure (fs : gmap string string) (md : MarketData)
    (filePath : string) :
  let r := loadFromCSV stod fs md filePath in
  (snd r = false ↔
   fs !! filePath = None
   ∨ ∃ content, fs !! filePath = Some content
       ∧ (content = String.EmptyString
          ∨ size (read_cells comma (fst (read_until newline content))) < 2))
  ∧ (snd r = false → fst r = md)
  ∧ (snd r = true → isDataLoaded_ (fst r) = true)
  ∧ (snd (loadFromCSV stod fs defaultMarketData filePath) = false →
     getDataSize (newMarketData stod fs filePath) = 0
     ∧ ∀ symbol, getPriceSeries (newMarketData stod fs filePath) symbol = None).
Proof.
  cbv zeta.
  assert (∀ md,
            (snd (loadFromCSV stod fs md filePath) = false ↔
             fs !! filePath = None
             ∨ ∃ content, fs !! filePath = Some content
                 ∧ (content = String.EmptyString
                    ∨ size (read_cells comma
                              (fst (read_until newline content))) < 2))
            ∧ (snd (loadFromCSV stod fs md filePath) = false →
               fst (loadFromCSV stod fs md filePath) = md)
            ∧ (snd (loadFromCSV stod fs md filePath) = true →
               isDataLoaded_ (fst (loadFromCSV stod fs md filePath)) = true))
    as Hall.
  { intros md0.
    destruct (loadFromCSV_cases stod fs md0 filePath)
      as [[-> Hwhy]|(content & Hfile & Hne & Hsize & ->)]; simpl.
    - split; [tauto|]. split; [done|]. discriminate.
    - cbv zeta in Hsize. split; [|split; [discriminate|done]].
      split; [discriminate|].
      intros [Hnone|(content' & Hfile' & Hbad)]; [congruence|].
      assert (content' = content) as -> by congruence.
      destruct Hbad; [done|lia]. }
  destruct (Hall md) as (H1 & H2 & H3).
  split; [done|]. split; [done|]. split; [done|].
  intros Hfail. unfold newMarketData.
  destruct (Hall defaultMarketData) as (_ & -> & _); done.
Qed.

(** Property X19.  Whatever the file, the data that the constructor of
    [MarketData] loads are aligned: every price series has at least one
    entry per date (so no later read by day index leaves a series); and
    after a successful load the symbols with a series are exactly the cells
    of the header after the first. *)
Theorem newMarketData_aligned (fs : gmap string string) (filePath : string) :
  let md := newMarketData stod fs filePath in
  market_aligned md
  ∧ ∀ content,
      fs !! filePath = Some content → isDataLoaded_ md = true →
      ∀ symbol,
        is_Some (getPriceSeries md symbol) ↔
        symbol ∈ drop 1 (read_cells comma (fst (read_until newline content))).
Proof.
  cbv zeta. unfold newMarketData.
  destruct (loadFromCSV_cases stod fs defaultMarketData filePath)
    as [[-> _]|(content & Hfile & Hne & Hsize & ->)].
  { split; [|done]. intros symbol series. done. }
  cbv zeta in Hsize |- *. simpl fst.
  set (headers := read_cells comma (fst (read_until newline content))) in *.
  set (md1 := fold_left _ _ _).
  assert (columns_filled headers md1) as Hfilled.
  { apply loadRows_columns_filled. intros symbol.
    destruct (clear_series_spec headers defaultMarketData) as (Hd & _ & Hp).
    unfold series_length. rewrite Hd, Hp.
    destruct (decide (symbol ∈ drop 1 headers)) as [Hin|Hout].
    - split; [split; eauto|]. simpl. lia.
    - split; [|done]. simpl. rewrite lookup_empty.
      split; [intros [? ?]; done|done]. }
  split.
  - intros symbol series. unfold getPriceSeries, getDataSize, size. simpl.
    intros Hs. destruct (Hfilled symbol) as [Hdom Hlen].
    assert (symbol ∈ drop 1 headers) as Hin by (apply Hdom; eauto).
    specialize (Hlen Hin). unfold series_length in Hlen.
    rewrite Hs in Hlen. simpl in Hlen. lia.
  - intros content' Hfile' _ symbol.
    assert (content' = content) as -> by congruence. fold headers.
    unfold getPriceSeries. simpl. apply Hfilled.
Qed.

(** The rows of a file, loaded into an object whose series have just been
    cleared. *)
Lemma cleared_rows_table headers lines :
  NoDup (drop 1 headers) →
  let rows := filter (λ line, line ≠ String.EmptyString) lines in
  let md := fold_left (loadRow stod headers) lines
                      (clear_series headers defaultMarketData) in
  dates md = row_date <$> rows
  ∧ (∀ j : nat, (1 ≤ j < length headers)%nat →
       prices md !! (headers !!! j)
       = Some ((λ line, parse_cell stod line j) <$> rows))
  ∧ ∀ symbol, symbol ∉ drop 1 headers → prices md !! symbol = None.
Proof.
  intros Hnodup. cbv zeta.
  destruct (loadRows_table headers lines
              (clear_series headers defaultMarketData) Hnodup)
    as (Hd & _ & Hp & Ho).
  cbv zeta in Hd, Hp, Ho.
  destruct (clear_series_spec headers defaultMarketData) as (Hd0 & _ & Hp0).
  set (md1 := fold_left _ _ _) in *.
  assert (columns_filled headers md1) as Hfilled.
  { apply loadRows_columns_filled. intros symbol.
    unfold series_length. rewrite Hd0, Hp0.
    destruct (decide (symbol ∈ drop 1 headers)) as [Hin|Hout].
    - split; [split; eauto|]. simpl. lia.
    - split; [|done]. simpl. rewrite lookup_empty.
      split; [intros [? ?]; done|done]. }
  split; [by rewrite Hd, Hd0|]. split.
  - intros j Hj. destruct (column_in_header headers j Hj) as [_ Hin].
    specialize (Hp j Hj). rewrite Hp0, decide_True in Hp by done.
    destruct (Hfilled (headers !!! j)) as [Hdom _].
    destruct (proj2 Hdom Hin) as [series Hs]. rewrite Hs in Hp |- *.
    simpl in Hp. by rewrite Hp.
  - intros symbol Hsymbol. rewrite Ho, Hp0 by done.
    by rewrite decide_False.
Qed.

(** Property X20.  For a file whose header has at least two cells and names
    each symbol once, the constructor of [MarketData] loads the table of the
    file: the dates are the first cells of the non-empty lines after the
    header, and the series of the symbol of column [j] holds, for each of
    these lines in order, the number that [std::stod] reads from cell [j],
    or NaN when the cell is missing or is not a number; no other symbol has
    a series. *)
Theorem newMarketData_table (fs : gmap string string) (filePath : string)
    (content : string) :
  fs !! filePath = Some content →
  let headers := read_cells comma (fst (read_until newline content)) in
  let rows := data_rows (snd (read_until newline content)) in
  2 ≤ size headers → NoDup (drop 1 headers) →
  let md := newMarketData stod fs filePath in
  isDataLoaded_ md = true
  ∧ dates md = row_date <$> rows
  ∧ (∀ j : nat, (1 ≤ j < length headers)%nat →
       getPriceSeries md (headers !!! j)
       = Some ((λ line, parse_cell stod line j) <$> rows))
  ∧ ∀ symbol, symbol ∉ drop 1 headers → getPriceSeries md symbol = None.
Proof.
  intros Hfile headers rows Hsize Hnodup. cbv zeta. unfold newMarketData.
  destruct (loadFromCSV_cases stod fs defaultMarketData filePath)
    as [[_ [Hnone|(content' & Hfile' & Hbad)]]
       |(content' & Hfile' & Hne & _ & ->)].
  { congruence. }
  { assert (content' = content) as -> by congruence.
    destruct Hbad as [->|Hbad]; [|fold headers in Hbad; lia].
    unfold headers, size in Hsize. simpl in Hsize. lia. }
  assert (content' = content) as -> by congruence.
  cbv zeta. simpl fst. fold headers.
  destruct (cleared_rows_table headers
              (read_cells newline (snd (read_until newline content))) Hnodup)
    as (Hd & Hp & Ho).
  cbv zeta in Hd, Hp, Ho. unfold getPriceSeries. simpl. done.
Qed.

End LoaderTheorems.

(** * Writing CSV files *)

Lemma string_app_assoc (a b c : string) : (a +:+ b) +:+ c = a +:+ (b +:+ c).
Proof.
  induction a as [|x a IH]; [done|].
  change (String.String x ((a +:+ b) +:+ c) = String.String x (a +:+ (b +:+ c))).
  by rewrite IH.
Qed.

Lemma string_app_nil_r (a : string) : a +:+ String.EmptyString = a.
Proof.
  induction a as [|x a IH]; [done|].
  change (String.String x (a +:+ String.EmptyString) = String.String x a).
  by rewrite IH.
Qed.

(** The cells from index [length pre] on, written after [out]. *)
Lemma write_cells_from (cells : list string) (last : Z)
    (pre rest : list string) (out : string) :
  cells = pre ++ rest → last = size cells - 1 →
  fold_left
    (λ out i,
       out +:+ cells !!! Z.to_nat i
           +:+ (if i <? last
                then String.String comma String.EmptyString
                else String.EmptyString))
    (seqZ (Z.of_nat (length pre)) (Z.of_nat (length rest))) out
  = out +:+ String.concat (String.String comma String.EmptyString) rest.
Proof.
  intros Hcells Hlast. revert pre out Hcells.
  induction rest as [|cell rest IH]; intros pre out Hcells.
  - simpl. by rewrite string_app_nil_r.
  - rewrite seqZ_cons by (simpl; lia). cbn [fold_left].
    replace (Z.succ (Z.of_nat (length pre)))
      with (Z.of_nat (length (pre ++ [cell])))
      by (rewrite length_app; simpl; lia).
    replace (Z.pred (Z.of_nat (length (cell :: rest))))
      with (Z.of_nat (length rest)) by (simpl; lia).
    rewrite Nat2Z.id.
    assert (cells !!! length pre = cell) as ->.
    { apply lookup_total_lookup. rewrite Hcells.
      by rewrite lookup_app_r, Nat.sub_diag by lia. }
    rewrite IH by (by rewrite <- app_assoc).
    assert (last = Z.of_nat (length pre + length rest)) as Hlast'.
    { rewrite Hlast, Hcells. unfold size. rewrite length_app. simpl. lia. }
    destruct rest as [|cell' rest].
    + destruct (Z.ltb_spec (Z.of_nat (length pre)) last);
        [simpl in Hlast'; lia|].
      simpl. by rewrite !string_app_nil_r.
    + destruct (Z.ltb_spec (Z.of_nat (length pre)) last);
        [|simpl in Hlast'; lia].
      cbn [String.concat]. by rewrite !string_app_assoc.
Qed.

(** A line is its cells joined by commas, then a newline. *)
Lemma write_line_concat (cells : list string) :
  size cells < 2 ^ 64 →
  write_line cells
  = String.concat (String.String comma String.EmptyString) cells
    +:+ String.String newline String.EmptyString.
Proof.
  intros Hlen. unfold write_line. f_equal.
  destruct cells as [|cell cells]; [done|].
  rewrite loop_range_seqZ.
  replace (Z.to_nat (size (cell :: cells) - 0)) with (length (cell :: cells))
    by (unfold size; lia).
  rewrite (write_cells_from (cell :: cells) _ [] (cell :: cells)
             String.EmptyString); [done|done|].
  unfold size in *. simpl length in *. rewrite wrap_small; lia.
Qed.

Section CsvProperties.

Variable format : float → string.

Lemma write_rows (data : list (list float)) (out : string) :
  Forall (λ row, size row < 2 ^ 64) data →
  fold_left
    (λ out row, out +:+ write_line (format <$> data !!! Z.to_nat row))
    (loop_range 0 (size data)) out
  = out +:+ String.concat String.EmptyString
              ((λ row, csv_line (format <$> row)) <$> data).
Proof.
  intros Hrows. rewrite loop_range_seqZ.
  replace (Z.to_nat (size data - 0)) with (length data) by (unfold size; lia).
  rewrite (fold_left_seqZ_nat
             (λ out j, out +:+ write_line (format <$> data !!! j))
             0 (length data) out).
  rewrite (fold_left_fmap (λ out line, out +:+ line)
             (λ j, write_line (format <$> data !!! j))).
  assert ((λ j, write_line (format <$> data !!! j)) <$> seq 0 (length data)
          = (λ row, csv_line (format <$> row)) <$> data) as ->.
  { apply list_eq. intros j. rewrite !list_lookup_fmap.
    destruct (data !! j) as [row|] eqn:E.
    - rewrite lookup_seq_lt by (by eapply lookup_lt_Some). simpl.
      rewrite (lookup_total_lookup _ _ _ E).
      rewrite write_line_concat; [done|].
      unfold size. rewrite length_fmap.
      by apply (Forall_lookup_1 _ _ _ _ Hrows E).
    - rewrite lookup_seq_ge by (by apply lookup_ge_None). done. }
  generalize ((λ row, csv_line (format <$> row)) <$> data). clear.
  intros lines. revert out. induction lines as [|line lines IH]; intros out.
  - simpl. by rewrite string_app_nil_r.
  - cbn [fold_left]. rewrite IH, string_app_assoc. f_equal.
    destruct lines as [|line' lines]; [|done].
    simpl. by rewrite string_app_nil_r.
Qed.

(** The outcomes of [writeCSV]. *)
Lemma writeCSV_outcome (fs : gmap string string) (opens : bool)
    (filename : string) (headers : list string) (data : list (list float)) :
  size headers < 2 ^ 64 → Forall (λ row, size row < 2 ^ 64) data →
  let r := writeCSV format fs opens filename headers data in
  (snd r = false ↔
   headers = [] ∨ data = []
   ∨ (∃ row, head data = Some row ∧ length row ≠ length headers)
   ∨ opens = false)
  ∧ (snd r = false → fst r = fs)
  ∧ (snd r = true →
     fst r = <[filename :=
                 String.concat String.EmptyString
                   (csv_line headers
                    :: ((λ row, csv_line (format <$> row)) <$> data))]> fs).
Proof.
  intros Hheaders Hrows. cbv zeta. unfold writeCSV, size.
  destruct headers as [|header headers].
  { simpl. split; [tauto|]. split; [done|discriminate]. }
  destruct data as [|row data].
  { simpl. split; [tauto|]. split; [done|discriminate]. }
  change ((row :: data) !!! 0%nat) with row.
  destruct (Z.eqb_spec (Z.of_nat (length (header :: headers))) 0) as [H|_];
    [simpl in H; lia|].
  destruct (Z.eqb_spec (Z.of_nat (length (row :: data))) 0) as [H|_];
    [simpl in H; lia|].
  cbn [orb].
  destruct (Z.eqb_spec (Z.of_nat (length row))
                       (Z.of_nat (length (header :: headers)))) as [Heq|Hne].
  - cbn [negb]. destruct opens; cbn [negb fst snd].
    + split; [|split; [discriminate|]].
      * split; [discriminate|].
        intros [?|[?|[(row' & [= <-] & Hbad)|?]]]; try done. lia.
      * intros _. f_equal.
        rewrite (write_rows (row :: data) _ Hrows).
        rewrite write_line_concat by done.
        cbn [String.concat fmap list_fmap]. done.
    + split; [|split; [done|discriminate]]. split; [auto|done].
  - cbn [negb fst snd]. split; [|split; [done|discriminate]].
    split; [|done]. intros _. right. right. left. exists row.
    split; [done|lia].
Qed.

(** Property X21.  [writeCSV] refuses (returns false, writes nothing) when
    there is no header, no row, a first row whose length differs from the
    header's, or when the file cannot be opened; otherwise it writes the
    named file only: the header line, then one line per row, each the cells
    joined by commas and ended by a newline.  Rows after the first are
    written whatever their length. *)
Theorem writeCSV_file (fs : gmap string string) (opens : bool)
    (filename : string) (headers : list string) (data : list (list float)) :
  size headers < 2 ^ 64 → Forall (λ row, size row < 2 ^ 64) data →
  let r := writeCSV format fs opens filename headers data in
  (snd r = false ↔
   headers = [] ∨ data = []
   ∨ (∃ row, head data = Some row ∧ length row ≠ length headers)
   ∨ opens = false)
  ∧ (snd r = false → fst r = fs)
  ∧ (snd r = true →
     fst r = <[filename :=
                 String.concat String.EmptyString
                   (csv_line headers
                    :: ((λ row, csv_line (format <$> row)) <$> data))]> fs).
Proof.
  intros Hheaders Hrows.
  destruct (writeCSV_outcome fs opens filename headers data Hheaders Hrows)
    as (Hfail & Hsame & Hfile).
  cbv zeta in Hfail, Hsame, Hfile |- *. by split; [|split].
Qed.

End CsvProperties.

Lemma writeCSV_file_witness :
  let r := writeCSV (λ _, "1") ∅ true "out.csv" ["a"; "b"]
                    [[1; 2]; [3]]%float in
  (snd r = false ↔
   ["a"; "b"] = [] ∨ [[1; 2]; [3]]%float = []
   ∨ (∃ row, head [[1; 2]; [3]]%float = Some row
             ∧ length row ≠ length ["a"; "b"])
   ∨ true = false)
  ∧ (snd r = false → fst r = ∅)
  ∧ (snd r = true →
     fst r = <["out.csv" :=
                 String.concat String.EmptyString
                   (csv_line ["a"; "b"]
                    :: ((λ row, csv_line ((λ _, "1") <$> row))
                          <$> [[1; 2]; [3]]%float))]> ∅).
Proof.
  apply (writeCSV_file (λ _, "1") ∅ true "out.csv" ["a"; "b"]
           [[1; 2]; [3]]%float).
  - by vm_compute.
  - repeat constructor; by vm_compute.
Defined.

Lemma export_loop (values : list float) (k : nat) :
  (k ≤ length values)%nat →
  fold_left
    (λ data i,
       <[Z.to_nat i :=
           <[1%nat := values !!! Z.to_nat i]>
             (<[0%nat := double_of_Z i]> (data !!! Z.to_nat i))]> data)
    (seqZ 0 (Z.of_nat k))
    (filled (length values) (filled 2 0%float))
  = export_rows (take k values)
    ++ filled (length values - k) (filled 2 0%float).
Proof.
  induction k as [|k IH]; intros Hk.
  - simpl. by rewrite Nat.sub_0_r.
  - rewrite seqZ_S, fold_left_app.
    cbn [fold_left]. rewrite IH by lia. rewrite Z.add_0_l, Nat2Z.id.
    destruct (lookup_lt_is_Some_2 values k) as [v Hv]; [lia|].
    assert (length (export_rows (take k values)) = k) as Hlen.
    { unfold export_rows. rewrite length_imap, length_take. lia. }
    rewrite (lookup_total_lookup _ _ _ Hv).
    assert ((export_rows (take k values)
             ++ filled (length values - k) (filled 2 0%float)) !!! k
            = filled 2 0%float) as ->.
    { apply lookup_total_lookup. rewrite lookup_app_r by lia.
      rewrite Hlen, Nat.sub_diag. apply lookup_replicate_2. lia. }
    rewrite (take_S_r _ _ _ Hv). unfold export_rows at 2.
    rewrite imap_app. fold (export_rows (take k values)).
    rewrite length_take, Nat.min_l by lia. simpl imap. rewrite Nat.add_0_r.
    replace (length values - k)%nat with (S (length values - S k)) by lia.
    cbn [replicate]. rewrite <- Hlen at 1.
    rewrite insert_app_r_alt, Hlen, Nat.sub_diag by lia. simpl.
    by rewrite <- app_assoc.
Qed.

Section ExportProperties.

Variable format : float → string.

(** The outcomes of [exportResults]. *)
Lemma exportResults_outcome (fs : gmap string string) (opens : bool)
    (bt : Backtester) (filename : string) :
  let r := exportResults format fs opens bt filename in
  (snd r = false ↔ portfolioValues_ bt = [] ∨ opens = false)
  ∧ (snd r = false → fst r = fs)
  ∧ (snd r = true →
     fst r = <[filename :=
                 String.concat String.EmptyString
                   (csv_line ["Day"; "PortfolioValue"]
                    :: imap (λ i v, csv_line [format (double_of_Z (Z.of_nat i));
                                              format v])
                            (portfolioValues_ bt))]> fs).
Proof.
  cbv zeta. unfold exportResults.
  rewrite loop_range_seqZ.
  replace (Z.to_nat (size (portfolioValues_ bt) - 0))
    with (length (portfolioValues_ bt)) by (unfold size; lia).
  rewrite export_loop by done.
  rewrite firstn_all, Nat.sub_diag, app_nil_r.
  set (values := portfolioValues_ bt).
  assert (Forall (λ row, size row < 2 ^ 64) (export_rows values)) as Hrows.
  { apply Forall_lookup. intros i row. unfold export_rows.
    rewrite list_lookup_imap. destruct (values !! i); simpl; [|done].
    intros [= <-]. by vm_compute. }
  destruct (writeCSV_outcome format fs opens filename ["Day"; "PortfolioValue"]
              (export_rows values)) as (Hfail & Hsame & Hfile);
    [by vm_compute|done|].
  cbv zeta in Hfail, Hsame, Hfile. split; [|split; [done|]].
  - rewrite Hfail. split.
    + intros [?|[Hnil|[(row & Hrow & Hbad)|?]]]; [done| | |by right].
      * left. destruct values; [done|]. done.
      * exfalso. unfold export_rows in Hrow.
        destruct values as [|v values']; [done|]. simpl in Hrow.
        injection Hrow as <-. by apply Hbad.
    + intros [Hnil| ->]; [|by auto]. right. left. by rewrite Hnil.
  - intros Hok. rewrite (Hfile Hok). do 3 f_equal.
    unfold export_rows. by rewrite fmap_imap.
Qed.

(** Property X22.  [exportResults] fails (and writes nothing) exactly when
    there is no portfolio value, as before any backtest or after a run on an
    empty dataset, or when the file cannot be opened; otherwise the file
    holds the line "Day,PortfolioValue" and then, for each day in order, the
    day index written as a double, a comma, the value and a newline. *)
Theorem exportResults_file (fs : gmap string string) (opens : bool)
    (bt : Backtester) (filename : string) :
  let r := exportResults format fs opens bt filename in
  (snd r = false ↔ portfolioValues_ bt = [] ∨ opens = false)
  ∧ (snd r = false → fst r = fs)
  ∧ (snd r = true →
     fst r = <[filename :=
                 String.concat String.EmptyString
                   (csv_line ["Day"; "PortfolioValue"]
                    :: imap (λ i v, csv_line [format (double_of_Z (Z.of_nat i));
                                              format v])
                            (portfolioValues_ bt))]> fs).
Proof.
  destruct (exportResults_outcome fs opens bt filename)
    as (Hfail & Hsame & Hfile).
  cbv zeta in Hfail, Hsame, Hfile |- *. by split; [|split].
Qed.

End ExportProperties.

(** * Reading back what was written *)

Lemma read_until_app delim (a rest : string) :
  has_char delim a = false →
  read_until delim (a +:+ String.String delim rest) = (a, rest).
Proof.
  induction a as [|x a IH]; intros Ha.
  - change (String.EmptyString +:+ String.String delim rest)
      with (String.String delim rest).
    simpl. by rewrite Ascii.eqb_refl.
  - change (String.String x a +:+ String.String delim rest)
      with (String.String x (a +:+ String.String delim rest)).
    simpl in Ha |- *. apply orb_false_iff in Ha as [Hx Ha].
    rewrite Hx, IH by done. done.
Qed.

Lemma read_until_plain delim (a : string) :
  has_char delim a = false →
  read_until delim a = (a, String.EmptyString).
Proof.
  induction a as [|x a IH]; intros Ha; [done|].
  simpl in Ha |- *. apply orb_false_iff in Ha as [Hx Ha].
  rewrite Hx, IH by done. done.
Qed.

Lemma getline_app delim (a rest : string) :
  has_char delim a = false →
  getline delim (a +:+ String.String delim rest) = Some (a, rest).
Proof.
  intros Ha. unfold getline. rewrite read_until_app by done.
  by destruct a.
Qed.

Lemma string_concat_cons (line : string) (lines : list string) :
  String.concat String.EmptyString (line :: lines)
  = line +:+ String.concat String.EmptyString lines.
Proof.
  destruct lines as [|line' lines]; [|done].
  simpl. by rewrite string_app_nil_r.
Qed.

(** The lines of a text in which every line ends with a newline. *)
Lemma read_cells_lines (bodies : list string) :
  Forall (λ body, has_char newline body = false) bodies →
  read_cells newline
    (String.concat String.EmptyString
       ((λ body, body +:+ String.String newline String.EmptyString)
          <$> bodies))
  = bodies.
Proof.
  induction bodies as [|body bodies IH]; intros Hall; [done|].
  apply Forall_cons in Hall as [Hbody Hall].
  rewrite fmap_cons, string_concat_cons, string_app_assoc.
  change (String.String newline String.EmptyString +:+ ?rest)
    with (String.String newline rest).
  rewrite read_cells_step, getline_app by done. by rewrite IH.
Qed.

(** The two cells of a line [a,b]. *)
Lemma read_cells_pair (a b : string) :
  has_char comma a = false → has_char comma b = false →
  b ≠ String.EmptyString →
  read_cells comma
    (String.concat (String.String comma String.EmptyString) [a; b])
  = [a; b].
Proof.
  intros Ha Hb Hne. cbn [String.concat].
  change (String.String comma String.EmptyString +:+ b)
    with (String.String comma b).
  rewrite read_cells_step, getline_app by done.
  rewrite read_cells_step. destruct b as [|x b]; [done|].
  cbn [getline]. rewrite read_until_plain by done. done.
Qed.

Lemma has_char_app c (a b : string) :
  has_char c (a +:+ b) = has_char c a || has_char c b.
Proof.
  induction a as [|x a IH]; [done|].
  change (String.String x a +:+ b) with (String.String x (a +:+ b)).
  simpl. by rewrite IH, orb_assoc.
Qed.

Lemma filter_all {A} (P : A → Prop) `{∀ x, Decision (P x)} (l : list A) :
  Forall P l → filter P l = l.
Proof.
  induction 1 as [|x l Hx Hl IH]; [done|].
  by rewrite filter_cons_True, IH.
Qed.

Section RoundTrip.

Variable stod : string → option float.
Variable format : float → string.

Local Abbreviation export_body := (export_body format).

Hypothesis format_plain :
  ∀ v, format v ≠ String.EmptyString
       ∧ has_char comma (format v) = false
       ∧ has_char newline (format v) = false.

Lemma export_body_cells i v :
  read_cells comma (export_body i v)
  = [format (double_of_Z (Z.of_nat i)); format v]
  ∧ has_char newline (export_body i v) = false
  ∧ export_body i v ≠ String.EmptyString.
Proof.
  destruct (format_plain v) as (Hne & Hc & Hn).
  destruct (format_plain (double_of_Z (Z.of_nat i))) as (Hne' & Hc' & Hn').
  split; [by apply read_cells_pair|]. unfold export_body. cbn [String.concat].
  split.
  - rewrite !has_char_app, Hn, Hn'. by vm_compute.
  - destruct (format (double_of_Z (Z.of_nat i))); done.
Qed.

(** The exported text: header line, then the bodies, each with a newline. *)
Lemma export_text (values : list float) :
  String.concat String.EmptyString
    (csv_line ["Day"; "PortfolioValue"]
     :: imap (λ i v, csv_line [format (double_of_Z (Z.of_nat i)); format v])
             values)
  = "Day,PortfolioValue"
    +:+ String.String newline
          (String.concat String.EmptyString
             ((λ body, body +:+ String.String newline String.EmptyString)
                <$> imap export_body values)).
Proof.
  rewrite string_concat_cons. unfold csv_line at 1. cbn [String.concat].
  rewrite fmap_imap. rewrite !string_app_assoc. done.
Qed.

Lemma exported_rows (values : list float) :
  data_rows
    (String.concat String.EmptyString
       ((λ body, body +:+ String.String newline String.EmptyString)
          <$> imap export_body values))
  = imap export_body values.
Proof.
  unfold data_rows. rewrite read_cells_lines.
  - apply filter_all. apply Forall_lookup. intros i body.
    rewrite list_lookup_imap. destruct (values !! i); simpl; [|done].
    intros [= <-]. apply export_body_cells.
  - apply Forall_lookup. intros i body.
    rewrite list_lookup_imap. destruct (values !! i); simpl; [|done].
    intros [= <-]. apply export_body_cells.
Qed.

Lemma export_then_load_outcome (fs : gmap string string) (bt : Backtester)
    (filename : string) :
  portfolioValues_ bt ≠ [] →
  let exported := exportResults format fs true bt filename in
  let md := newMarketData stod (fst exported) filename in
  snd exported = true
  ∧ isDataLoaded_ md = true
  ∧ dates md = imap (λ i _, format (double_of_Z (Z.of_nat i)))
                    (portfolioValues_ bt)
  ∧ getPriceSeries md "PortfolioValue"
    = Some ((λ v, match stod (format v) with
                  | Some price => price
                  | None => nan
                  end) <$> portfolioValues_ bt).
Proof.
  intros Hne. cbv zeta.
  destruct (exportResults_outcome format fs true bt filename)
    as (Hfail & _ & Hfile). cbv zeta in Hfail, Hfile.
  assert (snd (exportResults format fs true bt filename) = true) as Hok.
  { apply not_false_iff_true. intros E. apply Hfail in E as [?|?]; done. }
  split; [done|]. rewrite (Hfile Hok), export_text.
  set (values := portfolioValues_ bt).
  set (rest := String.concat _ _).
  set (content := "Day,PortfolioValue" +:+ String.String newline rest).
  assert (read_until newline content = ("Day,PortfolioValue", rest)) as Hread
    by (by apply read_until_app).
  unfold newMarketData.
  destruct (loadFromCSV_cases stod (<[filename := content]> fs)
              defaultMarketData filename)
    as [[_ [Hnone|(content' & Hfile' & Hbad)]]
       |(content' & Hfile' & _ & _ & ->)];
    rewrite lookup_insert_eq in *; try done.
  { injection Hfile' as <-. rewrite Hread in Hbad.
    destruct Hbad as [Hbad|Hbad]; [done|]. by vm_compute in Hbad. }
  injection Hfile' as <-. cbv zeta. rewrite Hread. simpl fst. simpl snd.
  change (read_cells comma "Day,PortfolioValue")
    with ["Day"; "PortfolioValue"].
  destruct (cleared_rows_table stod ["Day"; "PortfolioValue"]
              (read_cells newline rest)) as (Hd & Hp & _).
  { apply NoDup_singleton. }
  cbv zeta in Hd, Hp. fold (data_rows rest) in Hd, Hp.
  unfold rest in Hd, Hp. rewrite exported_rows in Hd, Hp. fold rest in Hd, Hp.
  unfold getPriceSeries. simpl. split; [done|]. split.
  - rewrite Hd, fmap_imap. apply imap_ext. intros i v _. simpl.
    unfold row_date. by destruct (export_body_cells i v) as [-> _].
  - specialize (Hp 1%nat ltac:(simpl; lia)).
    change (["Day"; "PortfolioValue"] !!! 1%nat) with "PortfolioValue" in Hp.
    rewrite Hp. f_equal. rewrite fmap_imap.
    rewrite <- (imap_const (λ v, match stod (format v) with
                                | Some price => price | None => nan end)).
    apply imap_ext. intros i v _. simpl. unfold parse_cell.
    by destruct (export_body_cells i v) as [-> _].
Qed.

End RoundTrip.

(** Property X23.  When the text that [operator<<] writes for a double is
    never empty and holds neither a comma nor a newline, the file that
    [exportResults] writes is read back by the constructor of [MarketData]
    as one date per day (the day index as written) and one series,
    "PortfolioValue", whose entries are what [std::stod] reads from the
    written values (NaN where it throws). *)
Theorem export_then_load (stod : string → option float)
    (format : float → string) (fs : gmap string string) (bt : Backtester)
    (filename : string) :
  (∀ v, format v ≠ String.EmptyString
        ∧ has_char comma (format v) = false
        ∧ has_char newline (format v) = false) →
  portfolioValues_ bt ≠ [] →
  let exported := exportResults format fs true bt filename in
  let md := newMarketData stod (fst exported) filename in
  snd exported = true
  ∧ isDataLoaded_ md = true
  ∧ dates md = imap (λ i _, format (double_of_Z (Z.of_nat i)))
                    (portfolioValues_ bt)
  ∧ getPriceSeries md "PortfolioValue"
    = Some ((λ v, match stod (format v) with
                  | Some price => price
                  | None => nan
                  end) <$> portfolioValues_ bt)
  ∧ getDataSize md = size (portfolioValues_ bt).
Proof.
  intros Hformat Hne.
  destruct (export_then_load_outcome stod format Hformat fs bt filename Hne)
    as (Hok & Hloaded & Hdates & Hseries).
  cbv zeta in Hok, Hloaded, Hdates, Hseries |- *.
  repeat split; try done.
  unfold getDataSize, size. by rewrite Hdates, length_imap.
Qed.

Lemma export_then_load_witness :
  let bt := set_portfolioValues reverting_start [100; 80]%float in
  let exported := exportResults (λ _, "1") ∅ true bt "out.csv" in
  let md := newMarketData (λ _, Some 1%float) (fst exported) "out.csv" in
  snd exported = true
  ∧ isDataLoaded_ md = true
  ∧ dates md = imap (λ i _, "1") (portfolioValues_ bt)
  ∧ getPriceSeries md "PortfolioValue"
    = Some ((λ v, 1%float) <$> portfolioValues_ bt)
  ∧ getDataSize md = size (portfolioValues_ bt).
Proof.
  apply (export_then_load (λ _, Some 1%float) (λ _, "1") ∅
           (set_portfolioValues reverting_start [100; 80]%float) "out.csv").
  - intros v. by vm_compute.
  - simpl. discriminate.
Defined.

Lemma newMarketData_table_witness :
  let fs : gmap string string := {[ "data.csv" := sample_csv ]} in
  let headers := read_cells comma (fst (read_until newline sample_csv)) in
  let rows := data_rows (snd (read_until newline sample_csv)) in
  let md := newMarketData sample_stod fs "data.csv" in
  isDataLoaded_ md = true
  ∧ dates md = row_date <$> rows
  ∧ (∀ j : nat, (1 ≤ j < length headers)%nat →
       getPriceSeries md (headers !!! j)
       = Some ((λ line, parse_cell sample_stod line j) <$> rows))
  ∧ ∀ symbol, symbol ∉ drop 1 headers → getPriceSeries md symbol = None.
Proof.
  apply (newMarketData_table sample_stod {[ "data.csv" := sample_csv ]}
           "data.csv" sample_csv).
  - by vm_compute.
  - by vm_compute.
  - apply (bool_decide_unpack _). by vm_compute.
Defined.

(** What the sample file loads. *)
Lemma sample_csv_loaded :
  let md := newMarketData sample_stod {[ "data.csv" := sample_csv ]}
                          "data.csv" in
  dates md = ["d1"; "d2"]
  ∧ getPriceSeries md "A" = Some [1; nan]%float
  ∧ getPriceSeries md "B" = Some [1; nan]%float
  ∧ getPriceSeries md "Date" = None.
Proof. cbv zeta. repeat split; by vm_compute. Qed.
